(** * SmartDemo Studio: the asynchronous media pipeline

    A shallow embedding of [backend/src/services/videoProcessor.ts] and
    [backend/src/services/queue.ts] (with the part of
    [backend/src/services/storage.ts] and [backend/src/models/Recording.ts]
    they use), and the properties of the pipeline proved over it.

    The numbers the code computes with and prints (times, coordinates,
    scales) are binary64 values ([Double.number]) with the rounding of
    every operation written out; progress values, frame rates and the like,
    which the code only compares and passes on, are rationals ([Q]).
    Promises that the code awaits are settled by an environment ([Env])
    which says, for every call site, whether the awaited call rejects and
    with what value; a promise that nothing ever settles leaves the
    operation [Pending]. *)

From Stdlib Require Import ZArith QArith Qround Qminmax Qabs Qpower.
From Stdlib Require Import String Ascii List Lia Lqa.
From Stdlib Require Import DecimalString DecimalPos.
From Stdlib Require Import Floats.
From stdpp Require Import base gmap strings.
Import ListNotations.
Open Scope string_scope.

(** ** JavaScript primitives used by the services *)

Module JS.

(** Values that a [throw] or a rejected promise can carry: an [Error]
    object with its [message], or any other value ([error instanceof Error]
    is false for it). *)
Inductive thrown : Type :=
| ErrorObj (message : string)
| NonError.

(** [n.toString()] of an integral number. *)
Definition Z_toString (z : Z) : string := NilZero.string_of_int (Z.to_int z).

(** [s.padStart(n, '0')]: zeros are added on the left while the string is
    shorter than [n]; a longer string is returned unchanged. *)
Fixpoint zeros (n : nat) : string :=
  match n with
  | O => EmptyString
  | S k => String "0" (zeros k)
  end.

Definition padStart (n : nat) (s : string) : string :=
  zeros (n - String.length s) ++ s.

(** Rounding towards zero, as the [%] operator needs it. *)
Definition Qtrunc (q : Q) : Z :=
  if Qle_bool 0 q then Qfloor q else Qceiling q.

(** The remainder of [a] by [b] that has the sign of the dividend. *)
Definition Qrem (a b : Q) : Q := a - b * inject_Z (Qtrunc (a / b)).

(** [Math.min]. *)
Definition Math_min (a b : Q) : Q := Qmin a b.

(** [a || b] on a number and on a string: 0 and the empty string are falsy. *)
Definition num_or (a : option Q) (b : Q) : Q :=
  match a with
  | Some v => if Qeq_bool v 0 then b else v
  | None => b
  end.

Definition str_or (a : option string) (b : string) : string :=
  match a with
  | Some v => if String.eqb v EmptyString then b else v
  | None => b
  end.

(** [list.join(sep)]. *)
Definition join (sep : string) (l : list string) : string := String.concat sep l.

(** [path.join(dir, name)] for a normalised directory and a plain file name. *)
Definition path_join (dir name : string) : string := dir ++ "/" ++ name.

Definition newline : string := String (ascii_of_nat 10) EmptyString.

(** The character classes of the regular expressions: [[0-9]] and [\w]. *)
Definition isDigit (a : ascii) : bool :=
  let n := nat_of_ascii a in (48 <=? n)%nat && (n <=? 57)%nat.

Definition isWordChar (a : ascii) : bool :=
  let n := nat_of_ascii a in
  isDigit a || ((65 <=? n)%nat && (n <=? 90)%nat)
  || ((97 <=? n)%nat && (n <=? 122)%nat) || (n =? 95)%nat.

End JS.
Import JS.

(** ** JavaScript numbers: IEEE 754 binary64 *)

Module Double.

Local Open Scope Q_scope.

(** A number is [NaN], an infinity, or a rational that binary64
    represents: [m * 2^e] with [|m| < 2^53] and [-1074 <= e <= 971]. The
    sign of zero is not modelled: it shows only in a division by zero, in
    [Object.is] and the like, and the code divides by constants. *)
Inductive number : Type :=
| NaN
| Infinity (negative : bool)
| Finite (q : Q).

Definition pow2 (e : Z) : Q := 2 ^ e.

(** The integer nearest to [x], the even one of two that are equally near. *)
Definition roundEven (x : Q) : Z :=
  let f := Qfloor x in
  match Qcompare (x - inject_Z f) (1 # 2) with
  | Lt => f
  | Gt => (f + 1)%Z
  | Eq => if Z.even f then f else (f + 1)%Z
  end.

(** The exponent of the unit in the last place of [q >= 0]: 52 below the
    exponent of [q] itself, and never below that of the subnormal numbers. *)
Definition ulpExponent (q : Q) : Z :=
  Z.max (-1074) (Z.log2 (Qfloor (q * pow2 1074)) - 1126).

(** The multiple of the unit in the last place nearest to [q >= 0]. *)
Definition nearest (q : Q) : Q :=
  let e := ulpExponent q in
  inject_Z (roundEven (q / pow2 e)) * pow2 e.

(** [Number.MAX_VALUE]. *)
Definition maxValue : Q := inject_Z (2 ^ 53 - 1) * pow2 971.

Definition negative (q : Q) : bool := negb (Qle_bool 0 q).

(** The binary64 value of a real result: round to nearest, ties to even,
    overflow to an infinity. *)
Definition round (q : Q) : number :=
  let m := nearest (Qabs q) in
  if Qle_bool m maxValue
  then Finite (Qred (if negative q then - m else m))
  else Infinity (negative q).

Definition isZero (q : Q) : bool := Qeq_bool q 0.

(** [a * b]. *)
Definition mul (a b : number) : number :=
  match a, b with
  | NaN, _ | _, NaN => NaN
  | Infinity s, Infinity t => Infinity (xorb s t)
  | Infinity s, Finite q | Finite q, Infinity s =>
      if isZero q then NaN else Infinity (xorb s (negative q))
  | Finite p, Finite q => round (p * q)
  end.

(** [a - b]. *)
Definition sub (a b : number) : number :=
  match a, b with
  | NaN, _ | _, NaN => NaN
  | Infinity s, Infinity t => if Bool.eqb s t then NaN else Infinity s
  | Infinity s, Finite _ => Infinity s
  | Finite _, Infinity t => Infinity (negb t)
  | Finite p, Finite q => round (p - q)
  end.

(** [a / b]; a zero divisor is taken as [+0]. *)
Definition div (a b : number) : number :=
  match a, b with
  | NaN, _ | _, NaN => NaN
  | Infinity _, Infinity _ => NaN
  | Infinity s, Finite q => Infinity (xorb s (negative q))
  | Finite _, Infinity _ => Finite 0
  | Finite p, Finite q =>
      if isZero q
      then if isZero p then NaN else Infinity (negative p)
      else round (p / q)
  end.

(** [a % b]: the remainder is exact, no rounding takes place. *)
Definition rem (a b : number) : number :=
  match a, b with
  | NaN, _ | _, NaN => NaN
  | Infinity _, _ => NaN
  | Finite p, Infinity _ => Finite p
  | Finite p, Finite q => if isZero q then NaN else Finite (Qred (Qrem p q))
  end.

(** [Math.floor]. *)
Definition floor (a : number) : number :=
  match a with
  | Finite q => Finite (inject_Z (Qfloor q))
  | _ => a
  end.

(** A number in a condition: [0] and [NaN] are falsy. *)
Definition truthy (a : number) : bool :=
  match a with
  | NaN => false
  | Infinity _ => true
  | Finite q => negb (isZero q)
  end.

(** [ToNumber] of a value that may be [undefined]. *)
Definition toNumber (v : option number) : number :=
  match v with
  | Some a => a
  | None => NaN
  end.

(** The number a decimal literal stands for. *)
Definition ofDecimal (q : Q) : number := round q.

(** *** The kernel's binary64, to check the rounding against *)

(** The rational a finite float stands for. *)
Definition ofFloat (f : float) : option Q :=
  match Prim2SF f with
  | S754_zero _ => Some 0
  | S754_finite s m e =>
      Some (Qred ((if s then - (1) else 1) * inject_Z (Zpos m) * pow2 e))
  | _ => None
  end.

(** The float [a / b * 2^e] of two whole numbers below [2^62]. *)
Definition floatOf (a b e : Z) : float :=
  Z.ldexp (PrimFloat.div (PrimFloat.of_uint63 (Uint63.of_Z a))
             (PrimFloat.of_uint63 (Uint63.of_Z b))) e.

(** An operation of this module and an operation of the kernel give the
    same result on two floats. *)
Definition agree (op : number -> number -> number) (fop : float -> float -> float)
    (x y : float) : bool :=
  match ofFloat x, ofFloat y with
  | Some p, Some q =>
      match op (Finite p) (Finite q), ofFloat (fop x y) with
      | Finite r, Some r' => Qeq_bool r r'
      | Infinity s, None =>
          Bool.eqb s (PrimFloat.ltb (fop x y) PrimFloat.zero)
          && negb (PrimFloat.is_nan (fop x y))
      | _, _ => false
      end
  | _, _ => false
  end.

(** The pairs the operations are checked on: the divisions, products
    and differences that [formatTime] and the zoom filter make at ordinary
    inputs, and pairs whose result is subnormal or overflows. *)
Definition quotients : list (float * float) :=
  [ (floatOf 501 4 0, floatOf 3600 1 0);
    (floatOf 86399999 1000 0, floatOf 3600 1 0);
    (floatOf 9007199254740991 1 0, floatOf 3600 1 0);
    (floatOf 3599999 1000 0, floatOf 60 1 0);
    (floatOf 55 1 0, floatOf 2 1 0);
    (floatOf 1 3 (-1020), floatOf 3600 1 0) ].

Definition products : list (float * float) :=
  [ (floatOf 624 1000 0, floatOf 1000 1 0);
    (floatOf 999 1000 0, floatOf 1000 1 0);
    (floatOf 100 1 0, floatOf 11 10 0);
    (floatOf 100 1 0, floatOf 1 10 0);
    (floatOf 1 3 (-1000), floatOf 5 7 (-73));
    (floatOf 9007199254740991 1 971, floatOf 3 1 0) ].

Definition differences : list (float * float) :=
  [ (floatOf 11 10 0, floatOf 1 1 0);
    (floatOf 15 10 0, floatOf 1 1 0);
    (floatOf 10 1 0, floatOf 55 10 0);
    (floatOf 1 3 0, floatOf 1 3 (-53)) ].

End Double.

Abbreviation number := Double.number.
Abbreviation NaN := Double.NaN.
Abbreviation Infinity := Double.Infinity.
Abbreviation Finite := Double.Finite.

(** ** Data model (models/Recording.ts, routes/export.ts) *)

(** [coordinates] is a nested path of the schema (models/Recording.ts,
    lines 167-172): the document always has the object, and each of its
    fields is a number or [undefined]. *)
Record Coordinates : Type := mkCoordinates {
  x : option number; y : option number;
  width : option number; height : option number
}.

(** The [coordinates] of an effect that was stored without any. *)
Definition noCoordinates : Coordinates := mkCoordinates None None None None.

Inductive EffectType : Type := blur | zoom | highlight | annotation.

(** [properties] is free-form; the engine only reads [properties.scale]. *)
Record EffectProperties : Type := mkEffectProperties {
  scale : option number
}.

Record VisualEffect : Type := mkVisualEffect {
  type : EffectType;
  effectStart : number;
  effectEnd : number;
  coordinates : Coordinates;
  properties : option EffectProperties
}.

Record Subtitle : Type := mkSubtitle {
  text : string;
  startTime : number;
  endTime : number
}.

Record VoiceSettings : Type := mkVoiceSettings {
  voice : option string;
  speed : option Q;
  emotion : option string
}.

Record Segment : Type := mkSegment {
  segmentId : string;
  segmentText : string;
  segmentStart : number;
  segmentEnd : number;
  segmentAudioUrl : option string;
  voiceSettings : option VoiceSettings
}.

Inductive ProcessingStatus : Type := pending | processing | completed | failed.

Record Recording : Type := mkRecording {
  originalVideoUrl : string;
  audioUrl : option string;
  thumbnailUrl : option string;
  segments : list Segment;
  visualEffects : list VisualEffect;
  subtitles : list Subtitle;
  processingStatus : ProcessingStatus;
  processingProgress : Q;
  errorMessage : option string
}.

Inductive ExportFormat : Type := mp4 | gif | webm.

Definition formatName (f : ExportFormat) : string :=
  match f with mp4 => "mp4" | gif => "gif" | webm => "webm" end.

Record Watermark : Type := mkWatermark {
  enabled : option bool;
  watermarkText : option string;
  position : option string;
  opacity : option Q
}.

(** The [options] object of an export job, as [exportVideoSchema] accepts it;
    every field is optional. *)
Record ExportOptions : Type := mkExportOptions {
  resolution : option string;
  frameRate : option Q;
  quality : option string;
  includeSubtitles : option bool;
  includeAudio : option bool;
  clipStart : option Q;
  clipEnd : option Q;
  watermark : option Watermark
}.

Definition emptyOptions : ExportOptions :=
  mkExportOptions None None None None None None None None.

(** The calls made on the fluent-ffmpeg command builder, in call order. *)
Inductive ffmpegCall : Type :=
| Input (path : string)
| ComplexFilter (graph : string)
| VideoCodec (codec : string)
| AudioCodec (codec : string)
| Size (s : string)
| Fps (f : Q)
| AddOption (flag value : string)
| Output (path : string).

Definition command : Type := list ffmpegCall.

(** ** The environment of one job attempt *)

(** The places where the services await something that can reject. *)
Inductive site : Type :=
| AtFindById | AtHttpGet | AtPipe | AtScreenshots
| AtReadThumbnail | AtUploadThumbnail
| AtReadAudio | AtUploadAudio
| AtSave | AtFindByIdAndUpdate
| AtUnlinkVideo | AtUnlinkThumbnail | AtUnlinkAudio | AtUnlinkOutput
| AtSynthesize (i : nat) | AtUploadSegment (i : nat)
| AtWriteSubtitles | AtEncode | AtReadOutput | AtUploadExport.

(** The temporary files of an attempt; each gets its name from one call of
    [uuidv4()]. *)
Inductive tempFile : Type :=
| TmpVideo | TmpThumbnail | TmpAudio | TmpOutput | TmpSubtitles.

Record Env : Type := mkEnv {
  (* the constant TEMP_DIR of videoProcessor.ts *)
  TEMP_DIR : string;
  (* whether the call awaited at a site rejects, and with what *)
  rejects : site -> option thrown;
  (* the identifier drawn for each temporary file *)
  uuidv4 : tempFile -> string;
  (* the clock read when the key of an upload is built *)
  Date_now : site -> Z;
  (* the Location S3 answers for a key *)
  s3Location : string -> string;
  (* progress.percent of the encoder's 'progress' events; may be undefined *)
  encoderPercent : list (option Q);
  (* the length of the exported buffer *)
  outputLength : Z;
  (* how a number that is not a safe integer prints *)
  fractionToString : Q -> string
}.

(** [Number.isSafeInteger]. *)
Definition isSafeInteger (q : Q) : bool :=
  Qeq_bool q (inject_Z (Qfloor q)) && (Z.abs (Qfloor q) <? 2 ^ 53)%Z.

(** [n.toString()], also inside a template literal: the decimal digits of
    a safe integer, the engine's own rendering of any other finite
    number. *)
Definition Number_toString (env : Env) (n : number) : string :=
  match n with
  | NaN => "NaN"
  | Infinity false => "Infinity"
  | Infinity true => "-Infinity"
  | Finite q =>
      if isSafeInteger q then Z_toString (Qfloor q) else fractionToString env q
  end.

(** A value that may be [undefined] inside a template literal. *)
Definition show (env : Env) (v : option number) : string :=
  match v with
  | Some n => Number_toString env n
  | None => "undefined"
  end.

(** ** [formatTime] (videoProcessor.ts, lines 360-367) *)

Definition formatTime (env : Env) (seconds : number) : string :=
  let hours := Double.floor (Double.div seconds (Finite 3600)) in
  let minutes :=
    Double.floor (Double.div (Double.rem seconds (Finite 3600)) (Finite 60)) in
  let secs := Double.floor (Double.rem seconds (Finite 60)) in
  let ms := Double.floor (Double.mul (Double.rem seconds (Finite 1)) (Finite 1000)) in
  padStart 2 (Number_toString env hours) ++ ":"
    ++ padStart 2 (Number_toString env minutes) ++ ":"
    ++ padStart 2 (Number_toString env secs) ++ ","
    ++ padStart 3 (Number_toString env ms).

(** What an attempt does to the outside, in the order it does it. *)
Inductive event : Type :=
| Progress (p : Q)
| FindById (id : string)
| HttpGet (url : string)
| CreateWriteStream (path : string)
| Screenshots (input output : string)
| ReadFile (path : string)
| S3Upload (key contentType : string)
| Save (id : string)
| FindByIdAndUpdate (id : string) (status : ProcessingStatus) (message : string)
| Unlink (path : string)
| TextToSpeech (voiceId segmentText : string)
| WriteFile (path content : string)
| RunFfmpeg (cmd : command)
| LogInfo (what : string)
| LogError (what : string).

(** The entity store and the local disk. *)
Record world : Type := mkWorld {
  db : gmap string Recording;
  disk : gset string
}.

(** ** A monad of awaited steps: state, exceptions and a trace *)

(** How an async function ends: its promise is fulfilled, is rejected, or
    is never settled. *)
Inductive outcome (A : Type) : Type :=
| Returned (a : A)
| Threw (e : thrown)
| Pending.
Arguments Returned {A} a.
Arguments Threw {A} e.
Arguments Pending {A}.

Definition M (A : Type) : Type := world -> outcome A * world * list event.

Definition ret {A} (a : A) : M A := fun w => (Returned a, w, []).

Definition bind {A B} (m : M A) (k : A -> M B) : M B :=
  fun w =>
    match m w with
    | (Returned a, w1, t1) =>
        match k a w1 with
        | (o, w2, t2) => (o, w2, (t1 ++ t2)%list)
        end
    | (Threw e, w1, t1) => (Threw e, w1, t1)
    | (Pending, w1, t1) => (Pending, w1, t1)
    end.

Definition throw {A} (e : thrown) : M A := fun w => (Threw e, w, []).

(** Awaiting a promise that nothing settles. *)
Definition never : M unit := fun w => (Pending, w, []).

(** [try { m } catch (error) { h error }]. *)
Definition tryCatch {A} (m : M A) (h : thrown -> M A) : M A :=
  fun w =>
    match m w with
    | (Returned a, w1, t1) => (Returned a, w1, t1)
    | (Threw e, w1, t1) =>
        match h e w1 with
        | (o, w2, t2) => (o, w2, (t1 ++ t2)%list)
        end
    | (Pending, w1, t1) => (Pending, w1, t1)
    end.

Definition emit (e : event) : M unit := fun w => (Returned tt, w, [e]).

Definition gets {A} (f : world -> A) : M A := fun w => (Returned (f w), w, []).

Definition modify (f : world -> world) : M unit := fun w => (Returned tt, f w, []).

(** Awaiting the call made at site [s]: it rejects when the environment
    says so. *)
Definition await (env : Env) (s : site) : M unit :=
  fun w =>
    match rejects env s with
    | Some e => (Threw e, w, [])
    | None => (Returned tt, w, [])
    end.

Declare Scope js_scope.
Delimit Scope js_scope with js.
Notation "x <- m ;; k" := (bind m (fun x => k))
  (at level 100, m at next level, right associativity) : js_scope.
Notation "m ;; k" := (bind m (fun _ => k))
  (at level 100, right associativity) : js_scope.
Open Scope js_scope.

Definition trace {A} (r : outcome A * world * list event) : list event := snd r.
Definition final {A} (r : outcome A * world * list event) : world := snd (fst r).
Definition result {A} (r : outcome A * world * list event) : outcome A := fst (fst r).

(** ** storage.ts *)

(** [uploadToS3]: whatever the S3 client rejects with, the caller sees
    [Error('Failed to upload file to S3')]. *)
Definition uploadToS3 (env : Env) (at_ : site) (key contentType : string) : M string :=
  tryCatch
    (emit (S3Upload key contentType) ;;
     await env at_ ;;
     emit (LogInfo "File uploaded to S3") ;;
     ret (s3Location env key))
    (fun _ =>
       emit (LogError "S3 upload error") ;;
       throw (ErrorObj "Failed to upload file to S3")).

(** ** Local files *)

Definition createFile (path : string) (w : world) : world :=
  mkWorld (db w) ({[ path ]} ∪ disk w).

Definition removeFile (path : string) (w : world) : world :=
  mkWorld (db w) (disk w ∖ {[ path ]}).

Definition createWriteStream (path : string) : M unit :=
  emit (CreateWriteStream path) ;; modify (createFile path).

(** [fs.unlink(path).catch(() => {})]. *)
Definition unlinkQuietly (env : Env) (at_ : site) (path : string) : M unit :=
  tryCatch
    (emit (Unlink path) ;; await env at_ ;; modify (removeFile path))
    (fun _ => ret tt).

Definition tempPath (env : Env) (f : tempFile) (ext : string) : string :=
  path_join (TEMP_DIR env) (uuidv4 env f ++ "." ++ ext).

(** ** Recording documents *)

Definition errorMessageOf (error : thrown) : string :=
  match error with
  | ErrorObj message => message
  | NonError => "Unknown error"
  end.

Definition setProcessed (thumbnailUrl' audioUrl' : string) (r : Recording) : Recording :=
  mkRecording (originalVideoUrl r) (Some audioUrl') (Some thumbnailUrl')
    (segments r) (visualEffects r) (subtitles r) completed 100 (errorMessage r).

Definition setFailed (message : string) (r : Recording) : Recording :=
  mkRecording (originalVideoUrl r) (audioUrl r) (thumbnailUrl r)
    (segments r) (visualEffects r) (subtitles r) failed (processingProgress r)
    (Some message).

Definition setSegments (segs : list Segment) (r : Recording) : Recording :=
  mkRecording (originalVideoUrl r) (audioUrl r) (thumbnailUrl r)
    segs (visualEffects r) (subtitles r) (processingStatus r)
    (processingProgress r) (errorMessage r).

(** [Recording.findById(id)]: the document, or [null]. *)
Definition findById (env : Env) (id : string) : M (option Recording) :=
  emit (FindById id) ;;
  await env AtFindById ;;
  gets (fun w => db w !! id).

(** [recording.save()] of the document fetched under [id]. *)
Definition save (env : Env) (id : string) (r : Recording) : M unit :=
  emit (Save id) ;;
  await env AtSave ;;
  modify (fun w => mkWorld (<[ id := r ]> (db w)) (disk w)).

(** [Recording.findByIdAndUpdate(id, { processingStatus, errorMessage })]:
    no document is created when none has this id. *)
Definition findByIdAndUpdate (env : Env) (id : string) (message : string) : M unit :=
  emit (FindByIdAndUpdate id failed message) ;;
  await env AtFindByIdAndUpdate ;;
  modify (fun w => mkWorld (alter (setFailed message) id (db w)) (disk w)).

(** ** videoProcessor.ts: [processVideo] (lines 17-123) *)

Record UIEvent : Type := mkUIEvent {
  uiType : string;
  uiTimestamp : Q
}.

Record ProcessResult : Type := mkProcessResult {
  processedRecordingId : string;
  processedThumbnailUrl : string;
  processedAudioUrl : string;
  processedStatus : ProcessingStatus
}.

(** The body of the [try] block. *)
Definition processVideo_try (env : Env) (recordingId videoUrl : string)
    (uiEvents : list UIEvent) (progressCallback : Q -> M unit) : M ProcessResult :=
  found <- findById env recordingId ;;
  match found with
  | None => throw (ErrorObj "Recording not found")
  | Some recording =>
      progressCallback 20%Q ;;
      (* Download video file *)
      emit (HttpGet videoUrl) ;;
      await env AtHttpGet ;;
      let tempVideoPath := tempPath env TmpVideo "mp4" in
      createWriteStream tempVideoPath ;;
      await env AtPipe ;;
      progressCallback 40%Q ;;
      (* Generate thumbnail *)
      let thumbnailPath := tempPath env TmpThumbnail "jpg" in
      emit (Screenshots tempVideoPath thumbnailPath) ;;
      await env AtScreenshots ;;
      modify (createFile thumbnailPath) ;;
      progressCallback 60%Q ;;
      (* Upload thumbnail to S3 *)
      emit (ReadFile thumbnailPath) ;;
      await env AtReadThumbnail ;;
      let thumbnailKey :=
        "thumbnails/" ++ recordingId ++ "/"
          ++ Z_toString (Date_now env AtUploadThumbnail) ++ ".jpg" in
      thumbnailUrl' <- uploadToS3 env AtUploadThumbnail thumbnailKey "image/jpeg" ;;
      progressCallback 80%Q ;;
      (* Extract audio from video: the promise settles on the command's
         'end' or 'error' event, but the command is only built (lines
         70-76), never run, so neither event ever comes *)
      let audioPath := tempPath env TmpAudio "wav" in
      never ;;
      (* Upload audio to S3 *)
      emit (ReadFile audioPath) ;;
      await env AtReadAudio ;;
      let audioKey :=
        "audio/" ++ recordingId ++ "/"
          ++ Z_toString (Date_now env AtUploadAudio) ++ ".wav" in
      audioUrl' <- uploadToS3 env AtUploadAudio audioKey "audio/wav" ;;
      progressCallback 90%Q ;;
      (* Update recording with processed data *)
      save env recordingId (setProcessed thumbnailUrl' audioUrl' recording) ;;
      (* Cleanup temp files *)
      unlinkQuietly env AtUnlinkVideo tempVideoPath ;;
      unlinkQuietly env AtUnlinkThumbnail thumbnailPath ;;
      unlinkQuietly env AtUnlinkAudio audioPath ;;
      progressCallback 100%Q ;;
      ret (mkProcessResult recordingId thumbnailUrl' audioUrl' completed)
  end.

(** The [catch] block: record the failure on the Recording, then rethrow. *)
Definition processVideo_catch (env : Env) (recordingId : string)
    (error : thrown) : M ProcessResult :=
  emit (LogError "Video processing error:") ;;
  tryCatch
    (findByIdAndUpdate env recordingId (errorMessageOf error))
    (fun _ => emit (LogError "Failed to update recording status:")) ;;
  throw error.

Definition processVideo (env : Env) (recordingId videoUrl : string)
    (uiEvents : list UIEvent) (progressCallback : Q -> M unit) : M ProcessResult :=
  tryCatch
    (processVideo_try env recordingId videoUrl uiEvents progressCallback)
    (processVideo_catch env recordingId).

(** ** videoProcessor.ts: [generateAudio] (lines 125-197) *)

Record AudioResult : Type := mkAudioResult {
  audioRecordingId : string;
  audioSegments : list Segment;
  audioStatus : ProcessingStatus
}.

Definition voiceOf (segment : Segment) : string :=
  str_or (match voiceSettings segment with
          | Some vs => voice vs
          | None => None
          end) "rachel".

Definition withAudioUrl (url : option string) (segment : Segment) : Segment :=
  mkSegment (segmentId segment) (segmentText segment) (segmentStart segment)
    (segmentEnd segment) url (voiceSettings segment).

(** The [for] loop from index [i] on: [todo] are the segments not yet
    visited, [visited] those already given their [audioUrl], [audioUrls]
    the URLs pushed so far. *)
Fixpoint synthesizeLoop (env : Env) (recordingId : string)
    (progressCallback : Q -> M unit) (totalSegments : nat)
    (i : nat) (todo visited : list Segment) (audioUrls : list string)
    : M (list Segment * list string) :=
  match todo with
  | [] => ret (visited, audioUrls)
  | segment :: rest =>
      progressCallback
        (inject_Z (Z.of_nat i) / inject_Z (Z.of_nat totalSegments) * 80)%Q ;;
      (* Generate audio for this segment using ElevenLabs *)
      emit (TextToSpeech (voiceOf segment) (segmentText segment)) ;;
      await env (AtSynthesize i) ;;
      (* Upload segment audio to S3 *)
      let audioKey :=
        "segments/" ++ recordingId ++ "/" ++ segmentId segment ++ ".mp3" in
      audioUrl' <- uploadToS3 env (AtUploadSegment i) audioKey "audio/mpeg" ;;
      synthesizeLoop env recordingId progressCallback totalSegments (S i) rest
        (visited ++ [withAudioUrl (Some audioUrl') segment])%list
        (audioUrls ++ [audioUrl'])%list
  end.

Definition generateAudio (env : Env) (recordingId : string)
    (segs : list Segment) (progressCallback : Q -> M unit) : M AudioResult :=
  tryCatch
    (found <- findById env recordingId ;;
     match found with
     | None => throw (ErrorObj "Recording not found")
     | Some recording =>
         let totalSegments := length segs in
         looped <-
           synthesizeLoop env recordingId progressCallback totalSegments
             0 segs [] [] ;;
         let '(segs', audioUrls) := looped in
         progressCallback 90%Q ;;
         (* Update recording with generated audio URLs *)
         save env recordingId (setSegments segs' recording) ;;
         progressCallback 100%Q ;;
         ret (mkAudioResult recordingId
                (imap (fun index seg => withAudioUrl (audioUrls !! index) seg) segs')
                completed)
     end)
    (fun error =>
       emit (LogError "Audio generation error:") ;;
       throw error).

(** ** videoProcessor.ts: [exportVideo] (lines 199-357) *)

Record ExportResult : Type := mkExportResult {
  exportRecordingId : string;
  exportFormat : ExportFormat;
  exportUrl : string;
  exportFileSize : Z;
  exportStatus : ProcessingStatus
}.

(** [if (effect.coordinates)]: the value read from the hydrated document
    that [findById] returns is the nested object itself, whether or not any
    of its fields was ever set, and an object is truthy. *)
Definition truthyObject (c : Coordinates) : bool := true.

(** [effect.properties?.scale || 1.5]. *)
Definition scaleOf (effect : VisualEffect) : number :=
  match properties effect with
  | Some p =>
      match scale p with
      | Some v => if Double.truthy v then v else Finite (15 # 10)
      | None => Finite (15 # 10)
      end
  | None => Finite (15 # 10)
  end.

(** What one iteration of [visualEffects.forEach] pushes onto [filters]. *)
Definition effectFilter (env : Env) (index : nat) (effect : VisualEffect)
    : list string :=
  let num := Number_toString env in
  let idx := Z_toString (Z.of_nat index) in
  let window :=
    "enable='between(t," ++ num (effectStart effect) ++ ","
      ++ num (effectEnd effect) ++ ")'" in
  let c := coordinates effect in
  match type effect with
  | blur =>
      if truthyObject c then
        [ "[0:v]crop=" ++ show env (width c) ++ ":" ++ show env (height c) ++ ":"
            ++ show env (x c) ++ ":" ++ show env (y c)
            ++ ",boxblur=10:1[blurred" ++ idx ++ "];"
            ++ "[0:v][blurred" ++ idx ++ "]overlay=" ++ show env (x c) ++ ":"
            ++ show env (y c) ++ ":" ++ window ++ "[v" ++ idx ++ "]" ]
      else []
  | zoom =>
      if truthyObject c then
        let scale' := scaleOf effect in
        let width' := Double.toNumber (width c) in
        let height' := Double.toNumber (height c) in
        let shift size :=
          Double.div (Double.mul size (Double.sub scale' (Finite 1))) (Finite 2) in
        [ "[0:v]crop=" ++ show env (width c) ++ ":" ++ show env (height c) ++ ":"
            ++ show env (x c) ++ ":" ++ show env (y c)
            ++ ",scale=" ++ num (Double.mul width' scale') ++ ":"
            ++ num (Double.mul height' scale') ++ "[zoomed" ++ idx ++ "];"
            ++ "[0:v][zoomed" ++ idx ++ "]overlay="
            ++ num (Double.sub (Double.toNumber (x c)) (shift width')) ++ ":"
            ++ num (Double.sub (Double.toNumber (y c)) (shift height')) ++ ":"
            ++ window ++ "[v" ++ idx ++ "]" ]
      else []
  | highlight =>
      if truthyObject c then
        [ "[0:v]drawbox=x=" ++ show env (x c) ++ ":y=" ++ show env (y c)
            ++ ":w=" ++ show env (width c) ++ ":h=" ++ show env (height c)
            ++ ":color=yellow@0.3:t=3:" ++ window ++ "[v" ++ idx ++ "]" ]
      else []
  | annotation => []
  end.

(** [recording.visualEffects.forEach((effect, index) => ...)] from [index]
    on, with the [filters] array built so far. *)
Fixpoint forEachEffect (env : Env) (index : nat) (effects : list VisualEffect)
    (filters : list string) : list string :=
  match effects with
  | [] => filters
  | effect :: rest =>
      forEachEffect env (S index) rest (filters ++ effectFilter env index effect)%list
  end.

(** Lines 231-273: apply visual effects. *)
Definition applyVisualEffects (env : Env) (recording : Recording)
    (cmd : command) : command :=
  match visualEffects recording with
  | [] => cmd
  | _ :: _ =>
      let filters := forEachEffect env 0 (visualEffects recording) [] in
      match filters with
      | [] => cmd
      | _ :: _ => (cmd ++ [ComplexFilter (join ";" filters)])%list
      end
  end.

(** The size strings that the [size] method of the command builder takes.
    The builder (fluent-ffmpeg) is not part of the sources; it looks in the
    string for [/([0-9]+)x([0-9]+)/], [/([0-9]+)x\?/], [/\?x([0-9]+)/] or
    [/\b([0-9]{1,3})%/] and throws when it finds none. *)
Fixpoint hasFixedSize (s : string) : bool :=
  match s with
  | String a ((String b (String c _)) as rest) =>
      (isDigit a && Ascii.eqb b "x" && isDigit c) || hasFixedSize rest
  | _ => false
  end.

Fixpoint hasFixedWidth (s : string) : bool :=
  match s with
  | String a ((String b (String c _)) as rest) =>
      (isDigit a && Ascii.eqb b "x" && Ascii.eqb c "?") || hasFixedWidth rest
  | _ => false
  end.

Fixpoint hasFixedHeight (s : string) : bool :=
  match s with
  | String a ((String b (String c _)) as rest) =>
      (Ascii.eqb a "?" && Ascii.eqb b "x" && isDigit c) || hasFixedHeight rest
  | _ => false
  end.

(** One to three digits and a percent sign, at the head of the string. *)
Definition headPercent (s : string) : bool :=
  match s with
  | String a (String b rest) =>
      isDigit a
      && (Ascii.eqb b "%"
          || (isDigit b
              && match rest with
                 | String c rest' =>
                     Ascii.eqb c "%"
                     || (isDigit c
                         && match rest' with
                            | String d _ => Ascii.eqb d "%"
                            | EmptyString => false
                            end)
                 | EmptyString => false
                 end))
  | _ => false
  end.

(** [boundary]: the string is at a word boundary when it starts with a
    word character. *)
Fixpoint hasPercent (boundary : bool) (s : string) : bool :=
  match s with
  | EmptyString => false
  | String a rest =>
      (boundary && headPercent s) || hasPercent (negb (isWordChar a)) rest
  end.

Definition acceptsSize (s : string) : bool :=
  hasPercent true s || hasFixedSize s || hasFixedWidth s || hasFixedHeight s.
Arguments acceptsSize : simpl never.

(** [command.size(s)]. *)
Definition size (s : string) (cmd : command) : M command :=
  if acceptsSize s then ret (cmd ++ [Size s])%list
  else throw (ErrorObj ("Invalid size specified: " ++ s)).

(** Lines 277-299: configure output based on format. *)
Definition configureOutput (format : ExportFormat) (options : ExportOptions)
    (cmd : command) : M command :=
  match format with
  | mp4 =>
      cmd <- size (str_or (resolution options) "1920x1080")
               (cmd ++ [VideoCodec "libx264"; AudioCodec "aac"])%list ;;
      ret (cmd ++ [Fps (num_or (frameRate options) 30)])%list
  | gif =>
      cmd <- size (str_or (resolution options) "800x600")
               (cmd ++ [VideoCodec "gif"])%list ;;
      ret (cmd ++ [Fps (num_or (frameRate options) 15)])%list
  | webm =>
      cmd <- size (str_or (resolution options) "1920x1080")
               (cmd ++ [VideoCodec "libvpx-vp9"; AudioCodec "libvorbis"])%list ;;
      ret (cmd ++ [Fps (num_or (frameRate options) 30)])%list
  end.

Arguments configureOutput : simpl never.

(** Lines 304-310: the subtitle track. *)
Definition srtEntry (env : Env) (index : nat) (sub : Subtitle) : string :=
  Z_toString (Z.of_nat (index + 1)) ++ newline
    ++ formatTime env (startTime sub) ++ " --> " ++ formatTime env (endTime sub)
    ++ newline ++ text sub ++ newline.

Definition srtContent (env : Env) (subs : list Subtitle) : string :=
  join newline (imap (srtEntry env) subs).

(** Lines 301-314: add subtitles if available. *)
Definition addSubtitles (env : Env) (recording : Recording) (cmd : command)
    : M command :=
  match subtitles recording with
  | [] => ret cmd
  | _ :: _ =>
      let subtitlePath := tempPath env TmpSubtitles "srt" in
      emit (WriteFile subtitlePath (srtContent env (subtitles recording))) ;;
      await env AtWriteSubtitles ;;
      modify (createFile subtitlePath) ;;
      ret (cmd ++ [AddOption "-vf" ("subtitles=" ++ subtitlePath)])%list
  end.

(** The encoder's 'progress' events, in the order they arrive. *)
Fixpoint onProgress (progressCallback : Q -> M unit) (percents : list (option Q))
    : M unit :=
  match percents with
  | [] => ret tt
  | percent :: rest =>
      progressCallback (Math_min (70 + num_or percent 0 * (2 # 10)) 90)%Q ;;
      onProgress progressCallback rest
  end.

(** Lines 318-329: execute the command. *)
Definition runCommand (env : Env) (cmd : command) (outputPath : string)
    (progressCallback : Q -> M unit) : M unit :=
  emit (RunFfmpeg (cmd ++ [Output outputPath])%list) ;;
  onProgress progressCallback (encoderPercent env) ;;
  await env AtEncode ;;
  modify (createFile outputPath).

Definition exportVideo (env : Env) (recordingId : string) (format : ExportFormat)
    (options : ExportOptions) (progressCallback : Q -> M unit) : M ExportResult :=
  tryCatch
    (found <- findById env recordingId ;;
     match found with
     | None => throw (ErrorObj "Recording not found")
     | Some recording =>
         progressCallback 10%Q ;;
         (* Download original video *)
         emit (HttpGet (originalVideoUrl recording)) ;;
         await env AtHttpGet ;;
         let tempVideoPath := tempPath env TmpVideo "mp4" in
         createWriteStream tempVideoPath ;;
         await env AtPipe ;;
         progressCallback 30%Q ;;
         let outputPath := tempPath env TmpOutput (formatName format) in
         (* Create ffmpeg command *)
         let cmd := [Input tempVideoPath] in
         (* Apply visual effects *)
         let cmd := applyVisualEffects env recording cmd in
         progressCallback 50%Q ;;
         (* Configure output based on format *)
         cmd <- configureOutput format options cmd ;;
         (* Add subtitles if available *)
         cmd <- addSubtitles env recording cmd ;;
         progressCallback 70%Q ;;
         (* Execute ffmpeg command *)
         runCommand env cmd outputPath progressCallback ;;
         progressCallback 95%Q ;;
         (* Upload exported video to S3 *)
         emit (ReadFile outputPath) ;;
         await env AtReadOutput ;;
         let exportKey :=
           "exports/" ++ recordingId ++ "/"
             ++ Z_toString (Date_now env AtUploadExport) ++ "."
             ++ formatName format in
         exportUrl' <- uploadToS3 env AtUploadExport exportKey
                         ("video/" ++ formatName format) ;;
         (* Cleanup temp files *)
         unlinkQuietly env AtUnlinkVideo tempVideoPath ;;
         unlinkQuietly env AtUnlinkOutput outputPath ;;
         progressCallback 100%Q ;;
         ret (mkExportResult recordingId format exportUrl' (outputLength env)
                completed)
     end)
    (fun error =>
       emit (LogError "Video export error:") ;;
       throw error).

(** ** queue.ts *)

Module Queue.

Inductive BackoffType : Type := fixedDelay | exponential.

Record BackoffOptions : Type := mkBackoff {
  backoffType : BackoffType;
  delay : Z
}.

Record JobOptions : Type := mkJobOptions {
  removeOnComplete : Z;
  removeOnFail : Z;
  attempts : Z;
  backoff : BackoffOptions
}.

Record QueueOptions : Type := mkQueue {
  name : string;
  defaultJobOptions : JobOptions
}.

(** Lines 14-51: create queues. *)
Definition processVideoQueue : QueueOptions :=
  mkQueue "video processing" (mkJobOptions 10 5 3 (mkBackoff exponential 2000)).

Definition audioGenerationQueue : QueueOptions :=
  mkQueue "audio generation" (mkJobOptions 10 5 3 (mkBackoff exponential 1000)).

Definition exportQueue : QueueOptions :=
  mkQueue "video export" (mkJobOptions 5 3 2 (mkBackoff exponential 5000)).

(** Modelled from the spec: the broker library that turns [backoff] options
    into waiting times is not part of the sources; the spec gives the delay
    before attempt [k] of an exponential policy as [base * 2^(k-1)]. *)
Definition backoffDelay (o : BackoffOptions) (k : Z) : Z :=
  match backoffType o with
  | fixedDelay => delay o
  | exponential => delay o * 2 ^ (k - 1)
  end.

(** [job.progress(p)]. *)
Definition job_progress (p : Q) : M unit := emit (Progress p).

Record ProcessVideoData : Type := mkProcessVideoData {
  pvRecordingId : string;
  pvVideoUrl : string;
  pvUiEvents : list UIEvent
}.

Record GenerateAudioData : Type := mkGenerateAudioData {
  gaRecordingId : string;
  gaSegments : list Segment
}.

Record ExportVideoData : Type := mkExportVideoData {
  evRecordingId : string;
  evFormat : ExportFormat;
  evOptions : ExportOptions
}.

(** Lines 54-73: the 'process-video' processor (concurrency 5). *)
Definition processVideoHandler (env : Env) (data : ProcessVideoData)
    : M ProcessResult :=
  tryCatch
    (emit (LogInfo "Processing video for recording") ;;
     (* Update progress *)
     job_progress 10 ;;
     r <- processVideo env (pvRecordingId data) (pvVideoUrl data)
            (pvUiEvents data) (fun progress => job_progress progress) ;;
     emit (LogInfo "Video processing completed for recording") ;;
     ret r)
    (fun error =>
       emit (LogError "Video processing failed for recording") ;;
       throw error).

(** Lines 76-94: the 'generate-audio' processor (concurrency 10). *)
Definition generateAudioHandler (env : Env) (data : GenerateAudioData)
    : M AudioResult :=
  tryCatch
    (emit (LogInfo "Generating audio for recording") ;;
     job_progress 10 ;;
     r <- generateAudio env (gaRecordingId data) (gaSegments data)
            (fun progress => job_progress progress) ;;
     emit (LogInfo "Audio generation completed for recording") ;;
     ret r)
    (fun error =>
       emit (LogError "Audio generation failed for recording") ;;
       throw error).

(** Lines 97-115: the 'export-video' processor (concurrency 3). *)
Definition exportVideoHandler (env : Env) (data : ExportVideoData)
    : M ExportResult :=
  tryCatch
    (emit (LogInfo "Exporting video for recording") ;;
     job_progress 10 ;;
     r <- exportVideo env (evRecordingId data) (evFormat data) (evOptions data)
            (fun progress => job_progress progress) ;;
     emit (LogInfo "Video export completed for recording") ;;
     ret r)
    (fun error =>
       emit (LogError "Video export failed for recording") ;;
       throw error).

End Queue.

(** ** Reading a trace *)

(** The progress values reported, in call order. *)
Fixpoint progressValues (t : list event) : list Q :=
  match t with
  | [] => []
  | Progress p :: rest => p :: progressValues rest
  | _ :: rest => progressValues rest
  end.

(** The paths on which deletion was attempted. *)
Fixpoint unlinked (t : list event) : list string :=
  match t with
  | [] => []
  | Unlink p :: rest => p :: unlinked rest
  | _ :: rest => unlinked rest
  end.

(** The texts handed to the speech-synthesis adapter. *)
Fixpoint synthesized (t : list event) : list string :=
  match t with
  | [] => []
  | TextToSpeech _ txt :: rest => txt :: synthesized rest
  | _ :: rest => synthesized rest
  end.

(** The commands handed to the encoder. *)
Fixpoint encoded (t : list event) : list command :=
  match t with
  | [] => []
  | RunFfmpeg c :: rest => c :: encoded rest
  | _ :: rest => encoded rest
  end.

(** A sequence of progress values never goes down. *)
Fixpoint nondecreasing (l : list Q) : Prop :=
  match l with
  | [] => True
  | p :: rest =>
      match rest with
      | [] => True
      | q :: _ => (p <= q)%Q /\ nondecreasing rest
      end
  end.

(** ** Sample inputs *)

Module Sample.

Definition calm : Env :=
  mkEnv "/tmp" (fun _ => None)
    (fun f => match f with
              | TmpVideo => "v" | TmpThumbnail => "t" | TmpAudio => "a"
              | TmpOutput => "o" | TmpSubtitles => "s"
              end)
    (fun _ => 1700000000000%Z)
    (fun key => "https://bucket/" ++ key)
    [Some 50%Q; None; Some 100%Q]
    4096
    (fun _ => "?").

(** The same environment with one more call site rejecting. *)
Definition site_eqb (a b : site) : bool :=
  match a, b with
  | AtFindById, AtFindById | AtHttpGet, AtHttpGet | AtPipe, AtPipe
  | AtScreenshots, AtScreenshots | AtReadThumbnail, AtReadThumbnail
  | AtUploadThumbnail, AtUploadThumbnail
  | AtReadAudio, AtReadAudio | AtUploadAudio, AtUploadAudio | AtSave, AtSave
  | AtFindByIdAndUpdate, AtFindByIdAndUpdate | AtUnlinkVideo, AtUnlinkVideo
  | AtUnlinkThumbnail, AtUnlinkThumbnail | AtUnlinkAudio, AtUnlinkAudio
  | AtUnlinkOutput, AtUnlinkOutput | AtWriteSubtitles, AtWriteSubtitles
  | AtEncode, AtEncode | AtReadOutput, AtReadOutput
  | AtUploadExport, AtUploadExport => true
  | AtSynthesize i, AtSynthesize j | AtUploadSegment i, AtUploadSegment j =>
      Nat.eqb i j
  | _, _ => false
  end.

Definition failing (s : site) (e : thrown) (env : Env) : Env :=
  mkEnv (TEMP_DIR env)
    (fun s' => if site_eqb s s' then Some e else rejects env s')
    (uuidv4 env) (Date_now env) (s3Location env) (encoderPercent env)
    (outputLength env) (fractionToString env).

Definition demo : Recording :=
  mkRecording "https://cdn/raw.mp4" None None [] [] [] processing 0 None.

Definition store : world := mkWorld {[ "rec1" := demo ]} ∅.

Definition hello : Segment :=
  mkSegment "s1" "Hello" (Finite 0) (Finite 2) None None.

Definition narrated : Segment :=
  mkSegment "s2" "Already narrated" (Finite 2) (Finite 4)
    (Some "https://bucket/old.mp3") None.

End Sample.

(** ** Reading a timestamp *)

Fixpoint allDigits (s : string) : bool :=
  match s with
  | EmptyString => true
  | String a rest => isDigit a && allDigits rest
  end.

(** The number a run of decimal digits stands for. *)
Definition readDecimal (s : string) : option Z :=
  option_map Z.of_uint (NilEmpty.uint_of_string s).

(** [str] is the timestamp [HH:MM:SS,mmm] of [h] hours, [m] minutes, [s]
    seconds and [ms] milliseconds: four runs of digits with these values,
    the last three of fixed width, the first at least two wide. *)
Definition srtTimestamp (h m s ms : Z) (str : string) : Prop :=
  exists hh mm ss mmm : string,
    str = hh ++ ":" ++ mm ++ ":" ++ ss ++ "," ++ mmm /\
    (allDigits hh = true /\ allDigits mm = true /\
     allDigits ss = true /\ allDigits mmm = true) /\
    (readDecimal hh = Some h /\ readDecimal mm = Some m /\
     readDecimal ss = Some s /\ readDecimal mmm = Some ms) /\
    (2 <= String.length hh)%nat /\ String.length mm = 2%nat /\
    String.length ss = 2%nat /\ String.length mmm = 3%nat.

(** ** Reading a filter graph *)

(** The effect is of a type for which the loop has a case. *)
Definition drawn (effect : VisualEffect) : bool :=
  match type effect with
  | annotation => false
  | _ => true
  end.

Definition noRejection (env : Env) : Prop := forall s, rejects env s = None.

(** ** Reading a command *)

(** The calls of a command that put a filter on the video. *)
Definition filterCalls (c : command) : list ffmpegCall :=
  List.filter (fun call => match call with
                           | ComplexFilter _ | AddOption _ _ => true
                           | _ => false
                           end) c.

(** The codecs of a format. *)
Definition codecs (format : ExportFormat) : command :=
  match format with
  | mp4 => [VideoCodec "libx264"; AudioCodec "aac"]
  | gif => [VideoCodec "gif"]
  | webm => [VideoCodec "libvpx-vp9"; AudioCodec "libvorbis"]
  end.

(** The size and the frame rate an export asks for. *)
Definition sizeOf (format : ExportFormat) (options : ExportOptions) : string :=
  str_or (resolution options)
    (match format with gif => "800x600" | _ => "1920x1080" end).

Definition fpsOf (format : ExportFormat) (options : ExportOptions) : Q :=
  num_or (frameRate options) (match format with gif => 15 | _ => 30 end).

(** What the export hands to the encoder, whenever it gets that far. *)
Definition builtCommand (env : Env) (recording : Recording)
    (format : ExportFormat) (options : ExportOptions) : command :=
  (applyVisualEffects env recording [Input (tempPath env TmpVideo "mp4")]
   ++ codecs format
   ++ [Size (sizeOf format options); Fps (fpsOf format options)]
   ++ match subtitles recording with
      | [] => []
      | _ :: _ =>
          [AddOption "-vf" ("subtitles=" ++ tempPath env TmpSubtitles "srt")]
      end
   ++ [Output (tempPath env TmpOutput (formatName format))])%list.

(** ** Reading where a checkpoint falls *)

(** The events of a trace that come before progress value [p] is first
    reported. *)
Fixpoint beforeReport (p : Q) (t : list event) : list event :=
  match t with
  | [] => []
  | Progress q :: rest =>
      if Qeq_bool q p then [] else Progress q :: beforeReport p rest
  | e :: rest => e :: beforeReport p rest
  end.

(** The steps that the checkpoints refer to. The audio extraction has no
    event of its own: its command is never handed to the encoder. *)
Inductive stage : Type :=
| Lookup | Download | Thumbnail | ThumbnailUpload
| AudioExtraction | AudioUpload | RecordUpdate | Cleanup.

Definition performs (s : stage) (e : event) : bool :=
  match s, e with
  | Lookup, FindById _ => true
  | Download, HttpGet _ => true
  | Thumbnail, Screenshots _ _ => true
  | ThumbnailUpload, S3Upload _ contentType => String.eqb contentType "image/jpeg"
  | AudioUpload, S3Upload _ contentType => String.eqb contentType "audio/wav"
  | RecordUpdate, Save _ => true
  | Cleanup, Unlink _ => true
  | _, _ => false
  end.

(** Progress value [p] is reported after stage [s] has been performed. *)
Definition reportedAfter (p : Q) (s : stage) (t : list event) : bool :=
  existsb (performs s) (beforeReport p t).

(** ** Reading the store and the disk *)

(** The Recording [id] carries the failure [error]. *)
Definition failureRecorded (id : string) (error : thrown) (w : world) : Prop :=
  exists r, db w !! id = Some r
            /\ processingStatus r = failed
            /\ errorMessage r = Some (errorMessageOf error).

(** Every file that an attempt leaves on the disk, and that was not there
    before, has at least seen a deletion attempt. *)
Definition deletionAttempted {A} (w : world)
    (run : outcome A * world * list event) : Prop :=
  forall p, p ∈ disk (final run) -> p ∉ disk w -> In p (unlinked (trace run)).

Definition isUnlinkSite (s : site) : bool :=
  match s with
  | AtUnlinkVideo | AtUnlinkThumbnail | AtUnlinkAudio | AtUnlinkOutput => true
  | _ => false
  end.

(** ** Reading a voice job *)

Definition segmentKey (recordingId : string) (segment : Segment) : string :=
  "segments/" ++ recordingId ++ "/" ++ segmentId segment ++ ".mp3".

(** The URL under which the clip of a segment ends up. *)
Definition narratedBy (env : Env) (recordingId : string) (segment : Segment)
    : string :=
  s3Location env (segmentKey recordingId segment).

(** [index / total * 80]. *)
Definition loopProgress (total index : nat) : Q :=
  (inject_Z (Z.of_nat index) / inject_Z (Z.of_nat total) * 80)%Q.

(** One turn of the loop in which nothing rejects. *)
Definition iterationTrace (recordingId : string) (total index : nat)
    (segment : Segment) : list event :=
  [ Progress (loopProgress total index);
    TextToSpeech (voiceOf segment) (segmentText segment);
    S3Upload (segmentKey recordingId segment) "audio/mpeg";
    LogInfo "File uploaded to S3" ].

(** The segment has no synthesized clip yet. *)
Definition lacksClip (segment : Segment) : bool :=
  match segmentAudioUrl segment with
  | None => true
  | Some _ => false
  end.

(** ** Reading an export's progress *)

(** What the engine reports for one 'progress' event of the encoder. *)
Definition encoderBand (percent : option Q) : Q :=
  Math_min (70 + num_or percent 0 * (2 # 10)) 90.

(** The sequences of values an export job can have reported when its
    attempt ends, the worker's first report included. *)
Definition exportReports (env : Env) : list (list Q) :=
  let band := map encoderBand (encoderPercent env) in
  [ [10]; [10; 10]; [10; 10; 30; 50];
    10 :: 10 :: 30 :: 50 :: 70 :: band;
    (10 :: 10 :: 30 :: 50 :: 70 :: band) ++ [95];
    (10 :: 10 :: 30 :: 50 :: 70 :: band) ++ [95; 100] ]%list%Q.

(** ** Reading a failure of the transform *)

(** The awaited calls of [processVideo] whose rejection reaches the caller
    as it is (the upload goes through [uploadToS3]; the calls that follow
    the audio extraction are never reached). *)
Definition transformAwaits : list site :=
  [AtFindById; AtHttpGet; AtPipe; AtScreenshots; AtReadThumbnail].

(** ** Reading a path *)

Fixpoint lastChar (s : string) : option ascii :=
  match s with
  | EmptyString => None
  | String c rest =>
      match lastChar rest with
      | None => Some c
      | Some d => Some d
      end
  end.


(** What a worker logs after its engine function, if that ever settles. *)
Definition closing {A} (lane : string) (o : outcome A) : list event :=
  match o with
  | Returned _ => [LogInfo (lane ++ " completed for recording")]
  | Threw _ => [LogError (lane ++ " failed for recording")]
  | Pending => []
  end.

(** ** storage.ts: object keys *)

Module Storage.

(** [s.split(sep)] for a separator of one character. *)
Fixpoint split (sep : ascii) (s : string) : list string :=
  match s with
  | EmptyString => [EmptyString]
  | String c rest =>
      if Ascii.eqb c sep then EmptyString :: split sep rest
      else match split sep rest with
           | [] => [String c EmptyString]
           | piece :: pieces => String c piece :: pieces
           end
  end.

(** Lines 38-41 of [deleteFromS3]: extract key from URL. *)
Definition keyOfUrl (url : string) : string :=
  let urlParts := split "/" url in
  join "/" (drop 3 urlParts).

(** Line 105 of [copyS3Object]: the URL of an object. *)
Definition objectUrl (bucketName key : string) : string :=
  "https://" ++ bucketName ++ ".s3.amazonaws.com/" ++ key.

(** The number of ['/'] in a string. *)
Definition slashes (s : string) : nat :=
  length (List.filter (Ascii.eqb "/"%char) (list_ascii_of_string s)).

(** The string has no ['/']. *)
Fixpoint slashFree (s : string) : bool :=
  match s with
  | EmptyString => true
  | String c rest => negb (Ascii.eqb c "/") && slashFree rest
  end.

End Storage.

(** ** The request layer (routes/export.ts, routes/recordings.ts,
    routes/ai.ts) *)

Module Server.

Inductive Role : Type := editor | reviewer | viewer.

Record Collaborator : Type := mkCollaborator {
  user : string;
  role : Role
}.

(** models/Project.ts, the fields the routes read. *)
Record Project : Type := mkProject {
  owner : string;
  collaborators : list Collaborator;
  recordings : list string
}.

(** A Recording document: the part the engine works on, and the fields of
    models/Recording.ts that only the routes read. *)
Record Document : Type := mkDocument {
  recording : Recording;
  project : string;
  title : string;
  duration : Q;
  processedVideoUrl : option string
}.

Inductive Payload : Type :=
| ProcessVideo (data : Queue.ProcessVideoData)
| GenerateAudio (data : Queue.GenerateAudioData)
| ExportVideo (data : Queue.ExportVideoData) (userId : string).

(** A job as [queue.add(name, data)] submits it. *)
Record Job : Type := mkJob {
  queue : Queue.QueueOptions;
  jobName : string;
  payload : Payload
}.

(** Entity store, object store (by key) and the jobs submitted. *)
Record state : Type := mkState {
  documents : gmap string Document;
  projects : gmap string Project;
  objects : gset string;
  jobs : list Job
}.

(** The calls a route awaits. *)
Inductive call : Type :=
| FindRecording | FindProject | SaveRecording | QueueAdd
| DeleteObject (key : string) | PullRecording | DeleteRecording.

Record Services : Type := mkServices {
  (* whether an awaited call rejects, and with what *)
  refuses : call -> option thrown;
  (* the id the broker gives to the n-th job *)
  jobId : nat -> string
}.

Inductive note : Type :=
| Info (what : string)
| Warn (what : string)
| Failure (what : string).

Definition R (A : Type) : Type := state -> outcome A * state * list note.

Definition ret {A} (a : A) : R A := fun s => (Returned a, s, []).

Definition bind {A B} (m : R A) (k : A -> R B) : R B :=
  fun s =>
    match m s with
    | (Returned a, s1, t1) =>
        match k a s1 with
        | (o, s2, t2) => (o, s2, (t1 ++ t2)%list)
        end
    | (Threw e, s1, t1) => (Threw e, s1, t1)
    | (Pending, s1, t1) => (Pending, s1, t1)
    end.

Definition throw {A} (e : thrown) : R A := fun s => (Threw e, s, []).

Definition tryCatch {A} (m : R A) (h : thrown -> R A) : R A :=
  fun s =>
    match m s with
    | (Returned a, s1, t1) => (Returned a, s1, t1)
    | (Threw e, s1, t1) =>
        match h e s1 with
        | (o, s2, t2) => (o, s2, (t1 ++ t2)%list)
        end
    | (Pending, s1, t1) => (Pending, s1, t1)
    end.

Definition log (n : note) : R unit := fun s => (Returned tt, s, [n]).

Definition gets {A} (f : state -> A) : R A := fun s => (Returned (f s), s, []).

Definition modify (f : state -> state) : R unit := fun s => (Returned tt, f s, []).

Definition await (sv : Services) (c : call) : R unit :=
  fun s =>
    match refuses sv c with
    | Some e => (Threw e, s, [])
    | None => (Returned tt, s, [])
    end.

(** Reading a run of a route. *)
Definition reply {A} (r : outcome A * state * list note) : outcome A := fst (fst r).
Definition after {A} (r : outcome A * state * list note) : state := snd (fst r).
Definition notes {A} (r : outcome A * state * list note) : list note := snd r.

Declare Scope route_scope.
Delimit Scope route_scope with route.
Notation "x <- m ;; k" := (bind m (fun x => k))
  (at level 100, m at next level, right associativity) : route_scope.
Notation "m ;; k" := (bind m (fun _ => k))
  (at level 100, right associativity) : route_scope.
Local Open Scope route_scope.

(** *** Responses *)

Inductive Body : Type :=
| ErrorBody (error : string)
| ValidationError (key : string)
| NotReady (status : ProcessingStatus)
| ExportCreated (id : string) (format : ExportFormat) (estimatedTime : Z)
| ScriptUpdated (d : Document)
| RecordingDeleted
| SubtitlesGenerated (subs : list Subtitle).

Record Response : Type := mkResponse {
  status : nat;
  body : Body
}.

(** *** Documents and their projects *)

(** [Recording.findById(id).populate('project', ...)]: the document with
    its project, which is [null] when the reference dangles. *)
Definition findPopulated (sv : Services) (id : string)
    : R (option (Document * option Project)) :=
  await sv FindRecording ;;
  gets (fun s =>
          match documents s !! id with
          | None => None
          | Some d => Some (d, projects s !! project d)
          end).

(** Reading [project.owner] of a populated reference. *)
Definition populated (p : option Project) : R Project :=
  match p with
  | Some p => ret p
  | None => throw (ErrorObj "Cannot read properties of null (reading 'owner')")
  end.

(** [recording.save()]. *)
Definition saveDocument (sv : Services) (id : string) (d : Document) : R unit :=
  await sv SaveRecording ;;
  modify (fun s =>
            mkState (<[ id := d ]> (documents s)) (projects s) (objects s) (jobs s)).

(** [queue.add(name, data)]: the job is appended and gets an id. *)
Definition add (sv : Services) (q : Queue.QueueOptions) (name : string)
    (p : Payload) : R string :=
  await sv QueueAdd ;;
  n <- gets (fun s => length (jobs s)) ;;
  modify (fun s =>
            mkState (documents s) (projects s) (objects s)
              (jobs s ++ [mkJob q name p])) ;;
  ret (jobId sv n).

Definition hasAccess (p : Project) (userId : string) : bool :=
  String.eqb (owner p) userId
  || existsb (fun collab => String.eqb (user collab) userId) (collaborators p).

Definition isEditor (r : Role) : bool :=
  match r with editor => true | _ => false end.

Definition hasEditAccess (p : Project) (userId : string) : bool :=
  String.eqb (owner p) userId
  || existsb (fun collab => String.eqb (user collab) userId && isEditor (role collab))
       (collaborators p).

Definition isCompleted (st : ProcessingStatus) : bool :=
  match st with completed => true | _ => false end.

(** *** Validation: the rules of the Joi schemas

    A key is checked in schema order and the first offending key is
    reported; a missing optional key takes its default, if it has one; a
    key the schema does not name is refused. *)

Definition V (A : Type) : Type := (string + A)%type.

Definition andThen {A B} (m : V A) (k : A -> V B) : V B :=
  match m with
  | inl key => inl key
  | inr a => k a
  end.

Definition check (ok : bool) (key : string) : V unit :=
  if ok then inr tt else inl key.

Definition orDefault {A} (v : option A) (d : A) : A :=
  match v with Some a => a | None => d end.

(** [Joi.string().required()]: present and not empty. *)
Definition requiredString (v : option string) (key : string) : V string :=
  match v with
  | Some EmptyString | None => inl key
  | Some s => inr s
  end.

(** [Joi.string().optional()]: not empty when present. *)
Definition optionalString (v : option string) : bool :=
  match v with
  | Some EmptyString => false
  | _ => true
  end.

(** [Joi.number().min(lo)] on an optional key. *)
Definition optionalMin (lo : Q) (v : option Q) : bool :=
  match v with
  | Some q => Qle_bool lo q
  | None => true
  end.

Definition noExtraKeys (prefix : string) (keys : list string) : V unit :=
  match keys with
  | key :: _ => inl (prefix ++ key)
  | [] => inr tt
  end.

Declare Scope joi_scope.
Delimit Scope joi_scope with joi.
Notation "x <- m ;; k" := (andThen m (fun x => k))
  (at level 100, m at next level, right associativity) : joi_scope.
Notation "m ;; k" := (andThen m (fun _ => k))
  (at level 100, right associativity) : joi_scope.

(** *** routes/export.ts *)

(** The body of a request as JSON gives it: every key may be missing;
    [extraKeys] are the keys the schema does not name. *)
Record RawWatermark : Type := mkRawWatermark {
  rawEnabled : option bool;
  rawText : option string;
  rawPosition : option string;
  rawOpacity : option Q;
  watermarkExtraKeys : list string
}.

Record RawOptions : Type := mkRawOptions {
  rawResolution : option string;
  rawFrameRate : option Q;
  rawQuality : option string;
  rawIncludeSubtitles : option bool;
  rawIncludeAudio : option bool;
  rawStartTime : option Q;
  rawEndTime : option Q;
  rawWatermark : option RawWatermark;
  optionsExtraKeys : list string
}.

Record ExportBody : Type := mkExportBody {
  bodyRecordingId : option string;
  bodyFormat : option string;
  bodyOptions : option RawOptions;
  bodyExtraKeys : list string
}.

Definition oneOf (allowed : list string) (v : string) : bool :=
  existsb (String.eqb v) allowed.

Definition numberOneOf (allowed : list Q) (v : Q) : bool :=
  existsb (Qeq_bool v) allowed.

Definition parseFormat (f : string) : option ExportFormat :=
  if String.eqb f "mp4" then Some mp4
  else if String.eqb f "gif" then Some gif
  else if String.eqb f "webm" then Some webm
  else None.

(** The [watermark] object of [exportVideoSchema] (lines 22-27). *)
Definition validateWatermark (raw : RawWatermark) : V Watermark :=
  (let enabled' := orDefault (rawEnabled raw) false in
   check (optionalString (rawText raw)) "options.watermark.text" ;;
   let position' := orDefault (rawPosition raw) "bottom-right" in
   check (oneOf ["top-left"; "top-right"; "bottom-left"; "bottom-right"] position')
     "options.watermark.position" ;;
   let opacity' := orDefault (rawOpacity raw) (7 # 10) in
   check (Qle_bool 0 opacity' && Qle_bool opacity' 1) "options.watermark.opacity" ;;
   noExtraKeys "options.watermark." (watermarkExtraKeys raw) ;;
   inr (mkWatermark (Some enabled') (rawText raw) (Some position') (Some opacity')))%joi.

(** The [options] object of [exportVideoSchema] (lines 14-28). *)
Definition validateOptions (raw : RawOptions) : V ExportOptions :=
  (let resolution' := orDefault (rawResolution raw) "1080p" in
   check (oneOf ["720p"; "1080p"; "4k"] resolution') "options.resolution" ;;
   let frameRate' := orDefault (rawFrameRate raw) 30%Q in
   check (numberOneOf [15; 24; 30; 60]%Q frameRate') "options.frameRate" ;;
   let quality' := orDefault (rawQuality raw) "high" in
   check (oneOf ["low"; "medium"; "high"] quality') "options.quality" ;;
   let includeSubtitles' := orDefault (rawIncludeSubtitles raw) true in
   let includeAudio' := orDefault (rawIncludeAudio raw) true in
   check (optionalMin 0%Q (rawStartTime raw)) "options.startTime" ;;
   check (optionalMin 0%Q (rawEndTime raw)) "options.endTime" ;;
   watermark' <- match rawWatermark raw with
                 | None => inr None
                 | Some rw => wm <- validateWatermark rw ;; inr (Some wm)
                 end ;;
   noExtraKeys "options." (optionsExtraKeys raw) ;;
   inr (mkExportOptions (Some resolution') (Some frameRate') (Some quality')
          (Some includeSubtitles') (Some includeAudio')
          (rawStartTime raw) (rawEndTime raw) watermark'))%joi.

(** What [exportVideoSchema.validate(req.body)] yields. *)
Record ExportValue : Type := mkExportValue {
  valueRecordingId : string;
  valueFormat : ExportFormat;
  valueOptions : option ExportOptions
}.

(** [exportVideoSchema] (lines 11-29). *)
Definition validateExportVideo (b : ExportBody) : V ExportValue :=
  (recordingId <- requiredString (bodyRecordingId b) "recordingId" ;;
   format <- match bodyFormat b with
             | None => inl "format"
             | Some f =>
                 match parseFormat f with
                 | Some format => inr format
                 | None => inl "format"
                 end
             end ;;
   options <- match bodyOptions b with
              | None => inr None
              | Some raw => o <- validateOptions raw ;; inr (Some o)
              end ;;
   noExtraKeys "" (bodyExtraKeys b) ;;
   inr (mkExportValue recordingId format options))%joi.

(** [getEstimatedExportTime] (lines 211-225); the route calls it with a
    validated format, so the [default] branch is never taken. *)
Definition getEstimatedExportTime (format : ExportFormat) (duration' : Q) : Z :=
  let baseTime := (duration' * (5 # 10))%Q in
  match format with
  | mp4 => Qceiling (baseTime * (12 # 10))
  | gif => Qceiling (baseTime * 2)
  | webm => Qceiling (baseTime * (15 # 10))
  end.

Record ExportRequest : Type := mkExportRequest {
  exportUserId : string;
  exportBody : ExportBody
}.

(** [router.post('/video', ...)] (lines 45-97). *)
Definition postExportVideo (sv : Services) (req : ExportRequest) : R Response :=
  tryCatch
    (match validateExportVideo (exportBody req) with
     | inl key => ret (mkResponse 400 (ValidationError key))
     | inr value =>
         let recordingId := valueRecordingId value in
         let format := valueFormat value in
         (* Check if recording exists and user has access *)
         found <- findPopulated sv recordingId ;;
         match found with
         | None => ret (mkResponse 404 (ErrorBody "Recording not found"))
         | Some (d, p) =>
             project' <- populated p ;;
             if negb (hasAccess project' (exportUserId req))
             then ret (mkResponse 403 (ErrorBody "Access denied"))
             else
               (* Check if recording is processed *)
               if negb (isCompleted (processingStatus (recording d)))
               then ret (mkResponse 400 (NotReady (processingStatus (recording d))))
               else
                 (* Add export job to queue *)
                 id <- add sv Queue.exportQueue "export-video"
                         (ExportVideo
                            (Queue.mkExportVideoData recordingId format
                               (orDefault (valueOptions value) emptyOptions))
                            (exportUserId req)) ;;
                 log (Info "Video export job created") ;;
                 ret (mkResponse 200
                        (ExportCreated id format
                           (getEstimatedExportTime format (duration d))))
         end
     end)
    (fun error =>
       log (Failure "Export video error:") ;;
       ret (mkResponse 500 (ErrorBody "Internal server error"))).

(** *** services/storage.ts: [deleteFromS3] (lines 37-54) *)

Definition removeObject (key : string) (s : state) : state :=
  mkState (documents s) (projects s) (objects s ∖ {[ key ]}) (jobs s).

Definition deleteFromS3 (sv : Services) (url : string) : R unit :=
  tryCatch
    ((* Extract key from URL *)
     let key := Storage.keyOfUrl url in
     await sv (DeleteObject key) ;;
     modify (removeObject key) ;;
     log (Info "File deleted from S3"))
    (fun _ =>
       log (Failure "S3 delete error:") ;;
       throw (ErrorObj "Failed to delete file from S3")).

(** *** routes/recordings.ts *)

Record RawVoiceSettings : Type := mkRawVoiceSettings {
  rawVoice : option string;
  rawSpeed : option Q;
  rawEmotion : option string;
  voiceExtraKeys : list string
}.

Record RawSegment : Type := mkRawSegment {
  rawId : option string;
  rawSegmentText : option string;
  rawSegmentStart : option number;
  rawSegmentEnd : option number;
  rawVoiceSettings : option RawVoiceSettings;
  segmentExtraKeys : list string
}.

Record ScriptBody : Type := mkScriptBody {
  bodySegments : option (list RawSegment);
  scriptExtraKeys : list string
}.

(** [Joi.number().required()]; a body is parsed JSON, so the number is
    finite. *)
Definition requiredNumber (v : option number) (key : string) : V number :=
  match v with
  | Some q => inr q
  | None => inl key
  end.

(** The [voiceSettings] object of [updateScriptSchema] (lines 55-59);
    [prefix] is the path of the object, as the message names it. *)
Definition validateVoiceSettings (prefix : string) (raw : RawVoiceSettings)
    : V VoiceSettings :=
  (check (optionalString (rawVoice raw)) (prefix ++ "voice") ;;
   check (match rawSpeed raw with
          | Some v => Qle_bool (5 # 10) v && Qle_bool v 2
          | None => true
          end) (prefix ++ "speed") ;;
   check (optionalString (rawEmotion raw)) (prefix ++ "emotion") ;;
   noExtraKeys prefix (voiceExtraKeys raw) ;;
   inr (mkVoiceSettings (rawVoice raw) (rawSpeed raw) (rawEmotion raw)))%joi.

(** One item of [segments] (lines 50-60). *)
Definition validateSegment (prefix : string) (raw : RawSegment) : V Segment :=
  (id <- requiredString (rawId raw) (prefix ++ "id") ;;
   text' <- requiredString (rawSegmentText raw) (prefix ++ "text") ;;
   startTime' <- requiredNumber (rawSegmentStart raw) (prefix ++ "startTime") ;;
   endTime' <- requiredNumber (rawSegmentEnd raw) (prefix ++ "endTime") ;;
   voiceSettings' <- match rawVoiceSettings raw with
                     | None => inr None
                     | Some rv =>
                         vs <- validateVoiceSettings (prefix ++ "voiceSettings.") rv ;;
                         inr (Some vs)
                     end ;;
   noExtraKeys prefix (segmentExtraKeys raw) ;;
   inr (mkSegment id text' startTime' endTime' None voiceSettings'))%joi.

(** The items in order, from the item at [index] on. *)
Fixpoint validateSegments (index : nat) (raws : list RawSegment)
    : V (list Segment) :=
  match raws with
  | [] => inr []
  | raw :: rest =>
      (seg <- validateSegment
                ("segments[" ++ Z_toString (Z.of_nat index) ++ "].") raw ;;
       segs <- validateSegments (S index) rest ;;
       inr (seg :: segs))%joi
  end.

(** [updateScriptSchema] (lines 49-61). *)
Definition validateScript (b : ScriptBody) : V (list Segment) :=
  (segs <- match bodySegments b with
           | None => inl "segments"
           | Some raws => validateSegments 0 raws
           end ;;
   noExtraKeys "" (scriptExtraKeys b) ;;
   inr segs)%joi.

Definition withSegments (segs : list Segment) (d : Document) : Document :=
  mkDocument (setSegments segs (recording d)) (project d) (title d) (duration d)
    (processedVideoUrl d).

(** [router.put('/:id/script', ...)] (lines 189-235). *)
Definition putScript (sv : Services) (userId id : string) (b : ScriptBody)
    : R Response :=
  tryCatch
    (match validateScript b with
     | inl key => ret (mkResponse 400 (ValidationError key))
     | inr segs =>
         found <- findPopulated sv id ;;
         match found with
         | None => ret (mkResponse 404 (ErrorBody "Recording not found"))
         | Some (d, p) =>
             (* Check if user has access to edit this recording *)
             project' <- populated p ;;
             if negb (hasEditAccess project' userId)
             then ret (mkResponse 403 (ErrorBody "Access denied"))
             else
               (* Update script *)
               let d' := withSegments segs d in
               saveDocument sv id d' ;;
               (* Queue audio generation for updated segments *)
               add sv Queue.processVideoQueue "generate-audio"
                 (GenerateAudio (Queue.mkGenerateAudioData id segs)) ;;
               log (Info "Script updated for recording") ;;
               ret (mkResponse 200 (ScriptUpdated d'))
         end
     end)
    (fun error =>
       log (Failure "Update script error:") ;;
       ret (mkResponse 500 (ErrorBody "Internal server error"))).

(** [if (url) { await deleteFromS3(url); }]. *)
Definition deleteIfSet (sv : Services) (url : option string) : R unit :=
  match url with
  | None | Some EmptyString => ret tt
  | Some u => deleteFromS3 sv u
  end.

Definition pullRecording (projectId id : string) (s : state) : state :=
  mkState (documents s)
    (alter (fun p =>
              mkProject (owner p) (collaborators p)
                (List.filter (fun r => negb (String.eqb r id)) (recordings p)))
       projectId (projects s))
    (objects s) (jobs s).

Definition dropDocument (id : string) (s : state) : state :=
  mkState (delete id (documents s)) (projects s) (objects s) (jobs s).

(** Lines 311-327: delete files from S3, a failure is only logged. *)
Definition deleteFiles (sv : Services) (d : Document) : R unit :=
  tryCatch
    (deleteIfSet sv (Some (originalVideoUrl (recording d))) ;;
     deleteIfSet sv (processedVideoUrl d) ;;
     deleteIfSet sv (audioUrl (recording d)) ;;
     deleteIfSet sv (thumbnailUrl (recording d)))
    (fun s3Error => log (Warn "Error deleting files from S3:")).

(** The files of a Recording that are set. *)
Definition fileUrls (d : Document) : list string :=
  List.filter (fun url => negb (String.eqb url EmptyString))
    (originalVideoUrl (recording d)
     :: omap id [processedVideoUrl d; audioUrl (recording d);
                 thumbnailUrl (recording d)]).

(** [router.delete('/:id', ...)] (lines 294-345). *)
Definition deleteRecording (sv : Services) (userId id : string) : R Response :=
  tryCatch
    (found <- findPopulated sv id ;;
     match found with
     | None => ret (mkResponse 404 (ErrorBody "Recording not found"))
     | Some (d, p) =>
         (* Check if user has access to delete this recording *)
         project' <- populated p ;;
         if negb (String.eqb (owner project') userId)
         then ret (mkResponse 403
                     (ErrorBody "Only project owner can delete recordings"))
         else
           (* Delete files from S3 *)
           deleteFiles sv d ;;
           (* Remove recording from project *)
           await sv PullRecording ;;
           modify (pullRecording (project d) id) ;;
           (* Delete recording *)
           await sv DeleteRecording ;;
           modify (dropDocument id) ;;
           log (Info "Recording deleted") ;;
           ret (mkResponse 200 RecordingDeleted)
     end)
    (fun error =>
       log (Failure "Delete recording error:") ;;
       ret (mkResponse 500 (ErrorBody "Internal server error"))).

(** *** routes/ai.ts: subtitles from the script (lines 227-273) *)

Record RawStyle : Type := mkRawStyle {
  rawFontSize : option Q;
  rawFontFamily : option string;
  rawColor : option string;
  rawBackgroundColor : option string;
  rawStylePosition : option string;
  styleExtraKeys : list string
}.

Record SubtitlesBody : Type := mkSubtitlesBody {
  subtitlesRecordingId : option string;
  rawLanguage : option string;
  rawStyle : option RawStyle;
  subtitlesExtraKeys : list string
}.

Definition validateStyle (raw : RawStyle) : V unit :=
  (check (optionalString (rawFontFamily raw)) "style.fontFamily" ;;
   check (optionalString (rawColor raw)) "style.color" ;;
   check (optionalString (rawBackgroundColor raw)) "style.backgroundColor" ;;
   check (oneOf ["bottom"; "top"; "center"]
            (orDefault (rawStylePosition raw) "bottom")) "style.position" ;;
   noExtraKeys "style." (styleExtraKeys raw))%joi.

(** [subtitlesSchema]: the validated [recordingId]. *)
Definition validateSubtitles (b : SubtitlesBody) : V string :=
  (recordingId <- requiredString (subtitlesRecordingId b) "recordingId" ;;
   check (optionalString (rawLanguage b)) "language" ;;
   match rawStyle b with
   | None => inr tt
   | Some raw => validateStyle raw
   end ;;
   noExtraKeys "" (subtitlesExtraKeys b) ;;
   inr recordingId)%joi.

(** [recording.script.segments.map(segment => ...)]. *)
Definition subtitlesOfScript (segs : list Segment) : list Subtitle :=
  map (fun segment =>
         mkSubtitle (segmentText segment) (segmentStart segment)
           (segmentEnd segment)) segs.

Definition withSubtitles (subs : list Subtitle) (d : Document) : Document :=
  let r := recording d in
  mkDocument
    (mkRecording (originalVideoUrl r) (audioUrl r) (thumbnailUrl r) (segments r)
       (visualEffects r) subs (processingStatus r) (processingProgress r)
       (errorMessage r))
    (project d) (title d) (duration d) (processedVideoUrl d).

Definition postSubtitles (sv : Services) (b : SubtitlesBody) : R Response :=
  tryCatch
    (match validateSubtitles b with
     | inl key => ret (mkResponse 400 (ValidationError key))
     | inr recordingId =>
         await sv FindRecording ;;
         found <- gets (fun s => documents s !! recordingId) ;;
         match found with
         | None => ret (mkResponse 404 (ErrorBody "Recording not found"))
         | Some d =>
             (* Generate subtitles from script segments *)
             let subs := subtitlesOfScript (segments (recording d)) in
             (* Update recording with subtitles *)
             saveDocument sv recordingId (withSubtitles subs d) ;;
             log (Info "Subtitles generated for recording") ;;
             ret (mkResponse 200 (SubtitlesGenerated subs))
         end
     end)
    (fun error =>
       log (Failure "Subtitle generation error:") ;;
       ret (mkResponse 500 (ErrorBody "Subtitle generation failed"))).

(** *** services/queue.ts: the processors registered (lines 54, 76, 97) *)

Record Processor : Type := mkProcessor {
  processorQueue : Queue.QueueOptions;
  processorName : string;
  concurrency : nat
}.

Definition processors : list Processor :=
  [ mkProcessor Queue.processVideoQueue "process-video" 5;
    mkProcessor Queue.audioGenerationQueue "generate-audio" 10;
    mkProcessor Queue.exportQueue "export-video" 3 ].

(** The processor is registered on the job's queue under the job's name. *)
Definition handles (p : Processor) (j : Job) : bool :=
  String.eqb (Queue.name (processorQueue p)) (Queue.name (queue j))
  && String.eqb (processorName p) (jobName j).

(** *** Reading an answer *)

(** The run of a route on [s] answered the request: it returned a
    response, with one of the statuses the routes use, and a refusal (a
    status from 400 to 499) has left the state as it was. *)
Definition answered (s : state) (r : outcome Response * state * list note)
    : Prop :=
  exists response,
    reply r = Returned response
    /\ In (status response) [200; 400; 403; 404; 500]%nat
    /\ ((400 <= status response < 500)%nat -> after r = s).

(** *** A sample deployment *)

(** Services that refuse nothing. *)
Definition quiet : Services := mkServices (fun _ => None) (fun _ => "job-1").

Definition call_eqb (a b : call) : bool :=
  match a, b with
  | FindRecording, FindRecording | FindProject, FindProject
  | SaveRecording, SaveRecording | QueueAdd, QueueAdd
  | PullRecording, PullRecording | DeleteRecording, DeleteRecording => true
  | DeleteObject k, DeleteObject k' => String.eqb k k'
  | _, _ => false
  end.

(** The same services with one more call refused. *)
Definition refusing (c : call) (e : thrown) (sv : Services) : Services :=
  mkServices (fun c' => if call_eqb c c' then Some e else refuses sv c')
    (jobId sv).

(** A processed Recording of a project that alice owns, bob edits and
    carol views, with its three files in the object store. *)
Definition processed : Recording :=
  mkRecording "https://smartdemo-studio.s3.amazonaws.com/videos/rec1.mp4"
    (Some "https://smartdemo-studio.s3.amazonaws.com/audio/rec1/17.wav")
    (Some "https://smartdemo-studio.s3.amazonaws.com/thumbnails/rec1/17.jpg")
    [mkSegment "s1" "Hello" (Finite 0) (Finite 2)
       (Some "https://bucket/old.mp3") None] [] []
    completed 100 None.

Definition studio : state :=
  mkState
    {[ "rec1" := mkDocument processed "proj1" "Demo" 90 None ]}
    {[ "proj1" := mkProject "alice"
                    [mkCollaborator "bob" editor; mkCollaborator "carol" viewer]
                    ["rec1"] ]}
    {[ "videos/rec1.mp4"; "audio/rec1/17.wav"; "thumbnails/rec1/17.jpg" ]}
    [].

End Server.

(** * Properties *)

(** ** Rounding and remainders *)

Section Rounding.

Local Open Scope Q_scope.

Lemma Qfloor_unique (q : Q) (z : Z) :
  inject_Z z <= q -> q < inject_Z (z + 1) -> Qfloor q = z.
Proof.
  intros Hlo Hhi.
  pose proof (Qfloor_le q) as Hf.
  pose proof (Qlt_floor q) as Hg.
  assert (inject_Z z < inject_Z (Qfloor q + 1)) as H1 by lra.
  assert (inject_Z (Qfloor q) < inject_Z (z + 1)) as H2 by lra.
  rewrite <- Zlt_Qlt in H1, H2. lia.
Qed.

Lemma Qfloor_minus_Z (q : Q) (k : Z) :
  Qfloor (q - inject_Z k) = (Qfloor q - k)%Z.
Proof.
  pose proof (Qfloor_le q) as Hf.
  pose proof (Qlt_floor q) as Hg.
  apply Qfloor_unique.
  - unfold Z.sub. rewrite inject_Z_plus, inject_Z_opp. lra.
  - replace (Qfloor q - k + 1)%Z with ((Qfloor q + 1) + - k)%Z by lia.
    rewrite inject_Z_plus, inject_Z_opp. lra.
Qed.

Lemma Qfloor_div_Z (q : Q) (n : Z) :
  (0 < n)%Z -> Qfloor (q / inject_Z n) = (Qfloor q / n)%Z.
Proof.
  intros Hn.
  pose proof (Qfloor_le q) as Hf.
  pose proof (Qlt_floor q) as Hg.
  assert (inject_Z 0 < inject_Z n) as HnQ by (rewrite <- Zlt_Qlt; exact Hn).
  pose proof (Z.mul_div_le (Qfloor q) n Hn) as Hlo.
  pose proof (Z.mul_succ_div_gt (Qfloor q) n Hn) as Hhi.
  apply Qfloor_unique.
  - apply Qle_shift_div_l; [exact HnQ|].
    rewrite <- inject_Z_mult.
    apply Qle_trans with (inject_Z (Qfloor q)); [|exact Hf].
    rewrite <- Zle_Qle. lia.
  - apply Qlt_shift_div_r; [exact HnQ|].
    rewrite <- inject_Z_mult.
    apply Qlt_le_trans with (inject_Z (Qfloor q + 1)); [exact Hg|].
    rewrite <- Zle_Qle. lia.
Qed.

Lemma Qtrunc_nonneg (q : Q) : 0 <= q -> Qtrunc q = Qfloor q.
Proof.
  intros H. unfold Qtrunc.
  destruct (Qle_bool 0 q) eqn:E; [reflexivity|].
  apply Qle_bool_iff in H. congruence.
Qed.

Lemma Qdiv_nonneg (q : Q) (n : Z) : 0 <= q -> (0 < n)%Z -> 0 <= q / inject_Z n.
Proof.
  intros Hq Hn.
  apply Qle_shift_div_l.
  - change 0 with (inject_Z 0). rewrite <- Zlt_Qlt. exact Hn.
  - lra.
Qed.

(** On a non-negative dividend, [%] by a positive integer takes away the
    whole multiples of it. *)
Lemma Qrem_nonneg (q : Q) (n : Z) :
  0 <= q -> (0 < n)%Z ->
  Qrem q (inject_Z n) = q - inject_Z n * inject_Z (Qfloor q / n).
Proof.
  intros Hq Hn. unfold Qrem.
  rewrite Qtrunc_nonneg by (apply Qdiv_nonneg; assumption).
  rewrite Qfloor_div_Z by exact Hn. reflexivity.
Qed.

Lemma Qfloor_Qrem (q : Q) (n : Z) :
  0 <= q -> (0 < n)%Z -> Qfloor (Qrem q (inject_Z n)) = (Qfloor q mod n)%Z.
Proof.
  intros Hq Hn.
  rewrite Qrem_nonneg by assumption.
  rewrite <- inject_Z_mult, Qfloor_minus_Z.
  rewrite Z.mod_eq by lia. reflexivity.
Qed.

End Rounding.

(** ** Decimal strings *)

Section Decimal.

Lemma allDigits_app (s1 s2 : string) :
  allDigits (s1 ++ s2) = allDigits s1 && allDigits s2.
Proof.
  induction s1 as [|a s1 IH]; simpl; [reflexivity|].
  rewrite IH. apply andb_assoc.
Qed.

Lemma allDigits_zeros (n : nat) : allDigits (zeros n) = true.
Proof. induction n as [|n IH]; simpl; [reflexivity|exact IH]. Qed.

Lemma length_zeros (n : nat) : String.length (zeros n) = n.
Proof. induction n as [|n IH]; simpl; [reflexivity|now rewrite IH]. Qed.

Lemma length_app (s1 s2 : string) :
  String.length (s1 ++ s2) = (String.length s1 + String.length s2)%nat.
Proof. induction s1 as [|a s1 IH]; simpl; [reflexivity|now rewrite IH]. Qed.

Lemma length_padStart (n : nat) (s : string) :
  String.length (padStart n s) = Nat.max n (String.length s).
Proof. unfold padStart. rewrite length_app, length_zeros. lia. Qed.

Lemma allDigits_padStart (n : nat) (s : string) :
  allDigits s = true -> allDigits (padStart n s) = true.
Proof.
  intros H. unfold padStart. now rewrite allDigits_app, allDigits_zeros, H.
Qed.

Lemma allDigits_string_of_uint (d : Decimal.uint) :
  allDigits (NilEmpty.string_of_uint d) = true.
Proof. induction d; simpl; auto. Qed.

Lemma uint_of_zeros (n : nat) (s : string) (d : Decimal.uint) :
  NilEmpty.uint_of_string s = Some d ->
  exists d', NilEmpty.uint_of_string (zeros n ++ s) = Some d'
             /\ Z.of_uint d' = Z.of_uint d.
Proof.
  intros H. induction n as [|n [d' [IH1 IH2]]]; simpl.
  - exists d. split; [exact H|reflexivity].
  - exists (Decimal.D0 d'). rewrite IH1. split; [reflexivity|exact IH2].
Qed.

Lemma readDecimal_padStart (n : nat) (s : string) (z : Z) :
  readDecimal s = Some z -> readDecimal (padStart n s) = Some z.
Proof.
  unfold readDecimal, padStart. intros H.
  destruct (NilEmpty.uint_of_string s) as [d|] eqn:E; [|discriminate].
  destruct (uint_of_zeros (n - String.length s) s d E) as [d' [H1 H2]].
  rewrite H1. simpl in *. congruence.
Qed.

(** A non-negative integer prints as its decimal digits. *)
Lemma Z_toString_nonneg (z : Z) :
  (0 <= z)%Z ->
  allDigits (Z_toString z) = true /\ readDecimal (Z_toString z) = Some z.
Proof.
  intros Hz. unfold Z_toString, readDecimal.
  destruct z as [|p|p]; [split; reflexivity| |lia].
  simpl.
  assert (NilZero.string_of_uint (Pos.to_uint p)
          = NilEmpty.string_of_uint (Pos.to_uint p)) as ->.
  { pose proof (DecimalPos.Unsigned.to_uint_nonnil p) as Hnil.
    destruct (Pos.to_uint p); [congruence|reflexivity..]. }
  split; [apply allDigits_string_of_uint|].
  rewrite NilEmpty.usu. simpl. unfold Z.of_uint.
  now rewrite DecimalPos.Unsigned.of_to.
Qed.

Lemma Z_toString_short (w : nat) (z : Z) :
  (w <= 3)%nat -> (0 <= z < 10 ^ Z.of_nat w)%Z ->
  (String.length (Z_toString z) <= Nat.max 1 w)%nat.
Proof.
  intros Hw Hz.
  assert (forallb (fun n => String.length (Z_toString (Z.of_nat n)) <=? 1)%nat
            (seq 0 10) = true) as H1 by (vm_compute; reflexivity).
  assert (forallb (fun n => String.length (Z_toString (Z.of_nat n)) <=? 2)%nat
            (seq 0 100) = true) as H2 by (vm_compute; reflexivity).
  assert (forallb (fun n => String.length (Z_toString (Z.of_nat n)) <=? 3)%nat
            (seq 0 1000) = true) as H3 by (vm_compute; reflexivity).
  rewrite forallb_forall in H1, H2, H3.
  assert (z = Z.of_nat (Z.to_nat z)) as Hn by lia.
  rewrite Hn.
  destruct w as [|[|[|[|w]]]]; [| | | |lia].
  - replace (Z.to_nat z) with 0%nat by lia. vm_compute. lia.
  - apply Nat.leb_le, H1, in_seq. change (10 ^ Z.of_nat 1)%Z with 10%Z in Hz. lia.
  - apply Nat.leb_le, H2, in_seq. change (10 ^ Z.of_nat 2)%Z with 100%Z in Hz. lia.
  - apply Nat.leb_le, H3, in_seq. change (10 ^ Z.of_nat 3)%Z with 1000%Z in Hz. lia.
Qed.

(** A field of [w] digits holding a number below [10^w]. *)
Lemma padStart_field (w : nat) (z : Z) :
  (1 <= w <= 3)%nat -> (0 <= z < 10 ^ Z.of_nat w)%Z ->
  allDigits (padStart w (Z_toString z)) = true
  /\ readDecimal (padStart w (Z_toString z)) = Some z
  /\ String.length (padStart w (Z_toString z)) = w.
Proof.
  intros Hw Hz.
  destruct (Z_toString_nonneg z) as [Hd Hr]; [lia|].
  split; [now apply allDigits_padStart|].
  split; [now apply readDecimal_padStart|].
  rewrite length_padStart.
  pose proof (Z_toString_short w z) as Hs. lia.
Qed.

End Decimal.

(** ** Binary64 rounding *)

Section Binary64.

Import Double.
Local Open Scope Q_scope.

Lemma pow2_pos (e : Z) : 0 < pow2 e.
Proof. apply Qpower_0_lt. reflexivity. Qed.

Lemma pow2_add (a b : Z) : pow2 (a + b) == pow2 a * pow2 b.
Proof. apply Qpower_plus. discriminate. Qed.

Lemma pow2_le (a b : Z) : (a <= b)%Z -> pow2 a <= pow2 b.
Proof. intros H. apply Qpower_le_compat_l; [exact H|discriminate]. Qed.

Lemma pow2_Z (n : Z) : (0 <= n)%Z -> pow2 n == inject_Z (2 ^ n).
Proof. intros H. unfold pow2. now rewrite Zpower_Qpower. Qed.

Lemma pow2_opp (n : Z) : pow2 (- n) * pow2 n == 1.
Proof. rewrite <- pow2_add. now replace (- n + n)%Z with 0%Z by lia. Qed.

Lemma roundEven_Z (n : Z) : roundEven (inject_Z n) = n.
Proof.
  unfold roundEven. rewrite Qfloor_Z.
  assert (inject_Z n - inject_Z n == 0) as H by ring.
  rewrite H. reflexivity.
Qed.

Lemma roundEven_between (x : Q) :
  (Qfloor x <= roundEven x <= Qfloor x + 1)%Z.
Proof.
  unfold roundEven. destruct (Qcompare _ _); try destruct (Z.even _); lia.
Qed.

Lemma roundEven_mono (x y : Q) : x <= y -> (roundEven x <= roundEven y)%Z.
Proof.
  intros Hxy.
  pose proof (Qfloor_resp_le x y Hxy) as Hf.
  destruct (Z.eq_dec (Qfloor x) (Qfloor y)) as [E|NE].
  - unfold roundEven. rewrite <- E.
    destruct (Qcompare (x - inject_Z (Qfloor x)) (1 # 2)) eqn:Cx;
      destruct (Qcompare (y - inject_Z (Qfloor x)) (1 # 2)) eqn:Cy;
      try destruct (Z.even (Qfloor x)); try lia; exfalso;
      first [apply Qeq_alt in Cx | apply Qlt_alt in Cx | apply Qgt_alt in Cx];
      first [apply Qeq_alt in Cy | apply Qlt_alt in Cy | apply Qgt_alt in Cy];
      lra.
  - pose proof (roundEven_between x). pose proof (roundEven_between y). lia.
Qed.

Lemma roundEven_ge (n : Z) (x : Q) : inject_Z n <= x -> (n <= roundEven x)%Z.
Proof. intros H. rewrite <- (roundEven_Z n). now apply roundEven_mono. Qed.

Lemma roundEven_le (n : Z) (x : Q) : x <= inject_Z n -> (roundEven x <= n)%Z.
Proof. intros H. rewrite <- (roundEven_Z n). now apply roundEven_mono. Qed.

Lemma ulpExponent_mono (a b : Q) : a <= b -> (ulpExponent a <= ulpExponent b)%Z.
Proof.
  intros H. unfold ulpExponent.
  assert (Qfloor (a * pow2 1074) <= Qfloor (b * pow2 1074))%Z as Hf.
  { apply Qfloor_resp_le. apply Qmult_le_compat_r; [exact H|].
    apply Qlt_le_weak, pow2_pos. }
  pose proof (Z.log2_le_mono _ _ Hf). lia.
Qed.

(** Above the subnormal range a number is at least [2^52] units of its
    last place. *)
Lemma ulpExponent_lower (b : Q) :
  (-1074 < ulpExponent b)%Z -> pow2 (ulpExponent b + 52) <= b.
Proof.
  unfold ulpExponent. set (N := Qfloor (b * pow2 1074)). intros H.
  assert (Z.max (-1074) (Z.log2 N - 1126) = Z.log2 N - 1126)%Z as E by lia.
  rewrite E in *.
  assert (0 < N)%Z as HN.
  { destruct (Z.lt_trichotomy 0%Z N) as [?|[<-|Hneg]]; [assumption| |].
    - cbn in H. lia.
    - rewrite Z.log2_nonpos in H by lia. lia. }
  destruct (Z.log2_spec N HN) as [Hlow _].
  assert (inject_Z (2 ^ Z.log2 N) <= b * pow2 1074) as Hq.
  { apply Qle_trans with (inject_Z N).
    - rewrite <- Zle_Qle. exact Hlow.
    - apply Qfloor_le. }
  rewrite <- pow2_Z in Hq by apply Z.log2_nonneg.
  replace (Z.log2 N) with ((Z.log2 N - 1126 + 52) + 1074)%Z in Hq by lia.
  rewrite pow2_add in Hq.
  apply Qmult_le_r in Hq; [exact Hq|apply pow2_pos].
Qed.

(** A number is less than [2^53] units of its last place. *)
Lemma ulpExponent_upper (a : Q) : 0 <= a -> a < pow2 (ulpExponent a + 53).
Proof.
  intros Ha.
  set (e := ulpExponent a).
  assert (Z.log2 (Qfloor (a * pow2 1074)) <= e + 1126)%Z as He
    by (unfold e, ulpExponent; lia).
  assert (-1074 <= e)%Z as Hmin by (unfold e, ulpExponent; lia).
  set (N := Qfloor (a * pow2 1074)) in *.
  assert (0 <= N)%Z as HN.
  { change 0%Z with (Qfloor 0). apply Qfloor_resp_le.
    apply Qmult_le_0_compat; [exact Ha|apply Qlt_le_weak, pow2_pos]. }
  assert (N < 2 ^ (e + 1127))%Z as Hup.
  { destruct (Z.eq_dec N 0%Z) as [->|Hnz].
    - apply Z.pow_pos_nonneg; lia.
    - destruct (Z.log2_spec N) as [_ Hhi]; [lia|].
      eapply Z.lt_le_trans; [exact Hhi|].
      apply Z.pow_le_mono_r; lia. }
  assert (a * pow2 1074 < inject_Z (2 ^ (e + 1127))) as Hq.
  { apply Qlt_le_trans with (inject_Z (N + 1)).
    - unfold N. apply Qlt_floor.
    - rewrite <- Zle_Qle. lia. }
  rewrite <- pow2_Z in Hq by lia.
  replace (e + 1127)%Z with ((e + 53) + 1074)%Z in Hq by lia.
  rewrite pow2_add in Hq.
  apply Qmult_lt_r in Hq; [exact Hq|apply pow2_pos].
Qed.

Lemma scaled_le (q : Q) (e k : Z) :
  q <= pow2 (k + e) -> q / pow2 e <= pow2 k.
Proof.
  rewrite pow2_add. pose proof (pow2_pos e) as He. intros H.
  unfold Qdiv. apply Qmult_le_r with (z := pow2 e); [exact He|].
  eapply Qle_trans; [|exact H]. field_simplify; [apply Qle_refl|lra].
Qed.

Lemma scaled_ge (q : Q) (e k : Z) :
  pow2 (k + e) <= q -> pow2 k <= q / pow2 e.
Proof.
  rewrite pow2_add. pose proof (pow2_pos e) as He. intros H.
  unfold Qdiv. apply Qmult_le_r with (z := pow2 e); [exact He|].
  eapply Qle_trans; [exact H|]. field_simplify; [apply Qle_refl|lra].
Qed.

(** Rounding to the nearest double keeps the order. *)
Lemma nearest_mono (a b : Q) : 0 <= a -> a <= b -> nearest a <= nearest b.
Proof.
  intros Ha Hab. unfold nearest.
  pose proof (ulpExponent_mono a b Hab) as He.
  set (e1 := ulpExponent a) in *. set (e2 := ulpExponent b) in *.
  destruct (Z.eq_dec e1 e2) as [E|NE].
  - rewrite <- E. apply Qmult_le_compat_r; [|apply Qlt_le_weak, pow2_pos].
    rewrite <- Zle_Qle. apply roundEven_mono.
    unfold Qdiv. apply Qmult_le_compat_r; [exact Hab|].
    apply Qlt_le_weak, Qinv_lt_0_compat, pow2_pos.
  - assert (-1074 <= e1)%Z as Hmin by (unfold e1, ulpExponent; lia).
    apply Qle_trans with (pow2 (e2 + 52)).
    + apply Qle_trans with (pow2 (e1 + 53)); [|apply pow2_le; lia].
      rewrite (Z.add_comm e1 53), pow2_add.
      apply Qmult_le_compat_r; [|apply Qlt_le_weak, pow2_pos].
      rewrite (pow2_Z 53) by lia. rewrite <- Zle_Qle. apply roundEven_le.
      rewrite <- (pow2_Z 53) by lia. apply scaled_le.
      rewrite Z.add_comm. apply Qlt_le_weak. exact (ulpExponent_upper a Ha).
    + rewrite (Z.add_comm e2 52), pow2_add.
      apply Qmult_le_compat_r; [|apply Qlt_le_weak, pow2_pos].
      rewrite (pow2_Z 52) by lia. rewrite <- Zle_Qle. apply roundEven_ge.
      rewrite <- (pow2_Z 52) by lia. apply scaled_ge.
      rewrite Z.add_comm. apply ulpExponent_lower. lia.
Qed.

Lemma nearest_nonneg (q : Q) : 0 <= q -> 0 <= nearest q.
Proof.
  intros H. apply Qle_trans with (nearest 0); [|now apply nearest_mono; [lra|]].
  vm_compute. discriminate.
Qed.

Lemma Qabs_nonneg_eq (q : Q) : 0 <= q -> Qabs q = q.
Proof.
  destruct q as [n d]. unfold Qle. cbn. intros H.
  rewrite Z.mul_1_r in H. now rewrite Z.abs_eq.
Qed.

(** The binary64 value of a real that is not negative and not above
    [bound], when [bound] does not overflow. *)
Lemma round_nonneg (bound q : Q) :
  0 <= q -> q <= bound -> nearest bound <= maxValue ->
  round q = Finite (Qred (nearest q)).
Proof.
  intros H0 Hb Hmax. unfold round. rewrite (Qabs_nonneg_eq q H0).
  assert (Qle_bool (nearest q) maxValue = true) as ->.
  { apply Qle_bool_iff. eapply Qle_trans; [|exact Hmax].
    now apply nearest_mono. }
  unfold negative. apply Qle_bool_iff in H0. now rewrite H0.
Qed.

(** The remainder of a non-negative double by a positive integer [n]
    keeps a distance of [2^-j] from [n], as soon as every double from
    [2^(52-j)] on is a multiple of [2^-j]. *)
Lemma Qrem_gap (m e n j : Z) :
  (0 <= m < 2 ^ 53)%Z -> (0 < n)%Z -> (0 <= j)%Z ->
  pow2 (52 - j) <= inject_Z n - pow2 (- j) ->
  let s := inject_Z m * pow2 e in
  0 <= Qrem s (inject_Z n) <= inject_Z n - pow2 (- j).
Proof.
  intros Hm Hn Hj Hsmall s.
  assert (0 <= s) as Hs.
  { apply Qmult_le_0_compat; [|apply Qlt_le_weak, pow2_pos].
    change 0 with (inject_Z 0). rewrite <- Zle_Qle. lia. }
  rewrite Qrem_nonneg by assumption.
  set (k := (Qfloor s / n)%Z).
  pose proof (Qfloor_le s) as Hlo. pose proof (Qlt_floor s) as Hhi.
  assert (0 <= Qfloor s)%Z as Hfs
    by (change 0%Z with (Qfloor 0); now apply Qfloor_resp_le).
  assert (n * k <= Qfloor s < n * k + n)%Z as Hk.
  { unfold k. pose proof (Z.mul_div_le (Qfloor s) n Hn).
    pose proof (Z.mul_succ_div_gt (Qfloor s) n Hn). lia. }
  assert (0 <= k)%Z as Hk0 by (unfold k; apply Z.div_pos; lia).
  assert (inject_Z (n * k) <= s) as H1.
  { eapply Qle_trans; [|exact Hlo]. rewrite <- Zle_Qle. lia. }
  assert (s < inject_Z (n * k + n)) as H2.
  { eapply Qlt_le_trans; [exact Hhi|]. rewrite <- Zle_Qle. lia. }
  rewrite inject_Z_plus, inject_Z_mult in H2. rewrite inject_Z_mult in H1.
  split; [lra|].
  destruct (Z_le_gt_dec 0%Z (e + j)%Z) as [Hej|Hej].
  - (* the remainder is a multiple of 2^-j *)
    set (z := (m * 2 ^ (e + j) - n * k * 2 ^ j)%Z).
    assert ((s - inject_Z n * inject_Z k) * pow2 j == inject_Z z) as Hz.
    { unfold z, s. unfold Z.sub. rewrite inject_Z_plus, inject_Z_opp.
      rewrite !inject_Z_mult. rewrite <- !pow2_Z by lia.
      rewrite (pow2_add e j). ring. }
    assert (z < n * 2 ^ j)%Z as Hzlt.
    { rewrite Zlt_Qlt. rewrite <- Hz. rewrite inject_Z_mult, <- pow2_Z by lia.
      apply Qmult_lt_compat_r; [apply pow2_pos|lra]. }
    assert (inject_Z z <= inject_Z (n * 2 ^ j - 1)) as Hzle
      by (rewrite <- Zle_Qle; lia).
    rewrite <- Hz in Hzle. unfold Z.sub in Hzle.
    rewrite inject_Z_plus, inject_Z_mult, <- pow2_Z in Hzle by lia.
    change (inject_Z (- (1))) with (- (1)) in Hzle.
    pose proof (pow2_pos j) as Hpj. pose proof (pow2_opp j) as Hopp.
    apply Qmult_le_r with (z := pow2 j); [exact Hpj|].
    assert ((inject_Z n - pow2 (- j)) * pow2 j == inject_Z n * pow2 j + - (1)) as E.
    { transitivity (inject_Z n * pow2 j - pow2 (- j) * pow2 j); [ring|].
      rewrite Hopp. ring. }
    rewrite E. exact Hzle.
  - (* the number itself is small *)
    assert (s <= pow2 (52 - j)) as Hsm.
    { apply Qle_trans with (pow2 53 * pow2 e).
      - apply Qmult_le_compat_r; [|apply Qlt_le_weak, pow2_pos].
        rewrite (pow2_Z 53) by lia. rewrite <- Zle_Qle. lia.
      - rewrite <- pow2_add. apply pow2_le. lia. }
    assert (0 <= inject_Z n * inject_Z k) as Hnk.
    { rewrite <- inject_Z_mult. change 0 with (inject_Z 0).
      rewrite <- Zle_Qle. lia. }
    lra.
Qed.

End Binary64.

(** ** The rounding against the kernel's binary64 *)

(** On the divisions, products and differences listed in [Double], the
    operations of [Double] give what the kernel's floating-point
    operations give, the subnormal and the overflowing results included. *)
Lemma round_agrees_with_kernel_floats :
  forallb (fun p => Double.agree Double.div PrimFloat.div (fst p) (snd p))
    Double.quotients = true
  /\ forallb (fun p => Double.agree Double.mul PrimFloat.mul (fst p) (snd p))
       Double.products = true
  /\ forallb (fun p => Double.agree Double.sub PrimFloat.sub (fst p) (snd p))
       Double.differences = true.
Proof. repeat split; vm_compute; reflexivity. Qed.

(** ** Divisions that round to the right whole number *)

Section ExactFloor.

Import Double.
Local Open Scope Q_scope.

Lemma pow2_lt_inv (a b : Z) : pow2 a < pow2 b -> (a < b)%Z.
Proof.
  intros H. destruct (Z_lt_le_dec a b) as [|Hle]; [assumption|].
  pose proof (pow2_le b a Hle). lra.
Qed.

Lemma roundEven_comp (x y : Q) : x == y -> roundEven x = roundEven y.
Proof.
  intros E. unfold roundEven. rewrite (Qfloor_comp x y E).
  assert (x - inject_Z (Qfloor y) == y - inject_Z (Qfloor y)) as E'
    by (rewrite E; reflexivity).
  now rewrite (Qcompare_comp _ _ E' (1 # 2) (1 # 2) (Qeq_refl _)).
Qed.

Lemma ulpExponent_comp (x y : Q) : x == y -> ulpExponent x = ulpExponent y.
Proof.
  intros E. unfold ulpExponent.
  now rewrite (Qfloor_comp (x * pow2 1074) (y * pow2 1074)) by (rewrite E; reflexivity).
Qed.

Lemma nearest_comp (x y : Q) : x == y -> nearest x == nearest y.
Proof.
  intros E. unfold nearest. rewrite (ulpExponent_comp x y E).
  rewrite (roundEven_comp (x / pow2 (ulpExponent y)) (y / pow2 (ulpExponent y)))
    by (rewrite E; reflexivity).
  reflexivity.
Qed.

Lemma roundEven_below_half (k : Z) (x : Q) :
  x < inject_Z k - (1 # 2) -> (roundEven x <= k - 1)%Z.
Proof.
  intros H. pose proof (Qfloor_le x) as Hf.
  assert (inject_Z (Qfloor x) < inject_Z k) as Hlt by lra.
  rewrite <- Zlt_Qlt in Hlt.
  destruct (Z.eq_dec (Qfloor x) (k - 1)%Z) as [E|NE].
  - unfold roundEven. rewrite E.
    assert (x - inject_Z (k - 1) < 1 # 2) as Hc.
    { unfold Z.sub. rewrite inject_Z_plus. change (inject_Z (- (1))) with (- (1)). lra. }
    destruct (Qcompare (x - inject_Z (k - 1)) (1 # 2)) eqn:C; [exfalso|lia|exfalso];
      first [apply Qeq_alt in C | apply Qgt_alt in C]; lra.
  - pose proof (roundEven_between x). lia.
Qed.

(** A whole number below [2^53] is a double. *)
Lemma nearest_Z (z : Z) : (0 <= z < 2 ^ 53)%Z -> nearest (inject_Z z) == inject_Z z.
Proof.
  intros Hz. unfold nearest.
  set (e := ulpExponent (inject_Z z)).
  assert (-1074 <= e)%Z as Hmin by (unfold e, ulpExponent; lia).
  assert (e <= 0)%Z as Hmax.
  { destruct (Z.eq_dec e (-1074)%Z) as [->|Hne]; [lia|].
    pose proof (ulpExponent_lower (inject_Z z)) as Hl. fold e in Hl.
    assert (pow2 (e + 52) < pow2 53) as Hlt.
    { eapply Qle_lt_trans; [apply Hl; lia|].
      rewrite (pow2_Z 53) by lia. rewrite <- Zlt_Qlt. lia. }
    apply pow2_lt_inv in Hlt. lia. }
  assert (inject_Z z / pow2 e == inject_Z (z * 2 ^ (- e))) as E.
  { rewrite inject_Z_mult, <- pow2_Z by lia.
    pose proof (pow2_pos e). pose proof (pow2_opp e) as Ho.
    apply Qmult_inj_r with (z := pow2 e); [lra|].
    unfold Qdiv. rewrite <- !Qmult_assoc, Ho.
    rewrite (Qmult_comm (/ pow2 e)), Qmult_inv_r by lra. reflexivity. }
  rewrite (roundEven_comp _ _ E), roundEven_Z.
  rewrite inject_Z_mult, <- pow2_Z by lia.
  rewrite <- Qmult_assoc, pow2_opp. ring.
Qed.

(** The quotient of a double by a whole number does not round up to the
    next whole number. *)
Lemma nearest_below (m e n k : Z) (s : Q) :
  (0 <= m < 2 ^ 53)%Z -> (e <= 0)%Z -> (0 < n)%Z -> (k <= 2 ^ 53)%Z ->
  s == inject_Z m * pow2 e ->
  s < inject_Z n * inject_Z k ->
  nearest (s / inject_Z n) < inject_Z k.
Proof.
  intros Hm He Hn Hk Hs Hlt.
  pose proof (pow2_pos e) as HB.
  assert (0 < inject_Z n) as HN by (change 0 with (inject_Z 0); now rewrite <- Zlt_Qlt).
  assert (0 <= inject_Z m) as HM by (change 0 with (inject_Z 0); rewrite <- Zle_Qle; lia).
  assert (0 <= s) as Hs0 by (rewrite Hs; apply Qmult_le_0_compat; lra).
  set (x := s / inject_Z n).
  assert (x * inject_Z n == s) as Hx by (unfold x; field; lra).
  assert (0 <= x) as Hx0 by (apply Qdiv_nonneg; assumption).
  assert (x < inject_Z k) as Hxk.
  { apply Qmult_lt_r with (z := inject_Z n); [exact HN|]. rewrite Hx. lra. }
  assert (1 <= k)%Z as Hk1.
  { assert (inject_Z 0 < inject_Z k) as H0 by (change (inject_Z 0) with 0; lra).
    rewrite <- Zlt_Qlt in H0. lia. }
  unfold nearest. set (ex := ulpExponent x).
  assert (-1074 <= ex)%Z as Hmin by (unfold ex, ulpExponent; lia).
  pose proof (ulpExponent_upper x Hx0) as Hup. fold ex in Hup.
  pose proof (pow2_pos ex) as HA.
  destruct (Z.eq_dec ex (-1074)%Z) as [E|NE].
  - (* below the normal numbers *)
    apply Qle_lt_trans with (pow2 53 * pow2 ex).
    + apply Qmult_le_compat_r; [|lra].
      rewrite (pow2_Z 53) by lia. rewrite <- Zle_Qle. apply roundEven_le.
      rewrite <- (pow2_Z 53) by lia. apply scaled_le.
      rewrite Z.add_comm. lra.
    + rewrite <- pow2_add, E.
      apply Qlt_le_trans with 1; [vm_compute; reflexivity|].
      change 1 with (inject_Z 1). rewrite <- Zle_Qle. lia.
  - pose proof (ulpExponent_lower x) as Hlow. fold ex in Hlow.
    assert (pow2 (ex + 52) <= x) as Hl by (apply Hlow; lia). clear Hlow.
    assert (ex <= 0)%Z as Hex.
    { assert (pow2 (ex + 52) < pow2 53) as H1.
      { eapply Qle_lt_trans; [exact Hl|]. eapply Qlt_le_trans; [exact Hxk|].
        rewrite (pow2_Z 53) by lia. rewrite <- Zle_Qle. lia. }
      apply pow2_lt_inv in H1. lia. }
    set (K := (k * 2 ^ (- ex))%Z).
    pose proof (pow2_opp ex) as HoA. pose proof (pow2_opp e) as HoB.
    pose proof (pow2_pos (- ex)) as HIA. pose proof (pow2_pos (- e)) as HIB.
    assert (inject_Z K == inject_Z k * pow2 (- ex)) as HK
      by (unfold K; rewrite inject_Z_mult, <- pow2_Z by lia; reflexivity).
    (* the dividend keeps one unit of its own below n * k *)
    assert (s + pow2 e <= inject_Z n * inject_Z k) as Hgap.
    { assert (inject_Z m < inject_Z (n * k * 2 ^ (- e))) as Hi.
      { rewrite !inject_Z_mult, <- pow2_Z by lia.
        apply Qmult_lt_r with (z := pow2 e); [exact HB|].
        rewrite <- Hs, <- Qmult_assoc, HoB. lra. }
      rewrite <- Zlt_Qlt in Hi.
      assert (inject_Z (m + 1) <= inject_Z (n * k * 2 ^ (- e))) as Hi'
        by (rewrite <- Zle_Qle; lia).
      rewrite inject_Z_plus, !inject_Z_mult, <- pow2_Z in Hi' by lia.
      apply Qmult_le_compat_r with (z := pow2 e) in Hi'; [|lra].
      rewrite <- Qmult_assoc, HoB in Hi'.
      rewrite Hs. change (inject_Z 1) with 1 in Hi'. lra. }
    (* that unit is more than half a unit of the quotient, times n *)
    assert (inject_Z n * pow2 ex < 2 * pow2 e) as Hulp.
    { assert (pow2 (ex + 52) * inject_Z n <= s) as H1.
      { rewrite <- Hx. apply Qmult_le_compat_r; lra. }
      assert (s < pow2 53 * pow2 e) as H2.
      { rewrite Hs. apply Qmult_lt_compat_r; [exact HB|].
        rewrite (pow2_Z 53) by lia. rewrite <- Zlt_Qlt. lia. }
      rewrite pow2_add in H1.
      change (pow2 52) with (inject_Z (2 ^ 52)) in H1.
      change (pow2 53) with (inject_Z (2 ^ 53)) in H2.
      change (2 ^ 53)%Z with (2 * 2 ^ 52)%Z in H2. rewrite inject_Z_mult in H2.
      assert (0 < inject_Z (2 ^ 52)) as H52 by reflexivity.
      apply Qmult_lt_r with (z := inject_Z (2 ^ 52)); [exact H52|].
      change (inject_Z 2) with 2 in H2. lra. }
    assert (x / pow2 ex < inject_Z K - (1 # 2)) as Hhalf.
    { apply Qmult_lt_r with (z := pow2 ex * inject_Z n);
        [apply Qmult_lt_0_compat; lra|].
      assert (x / pow2 ex * (pow2 ex * inject_Z n) == s) as ->
        by (rewrite <- Hx; field; lra).
      assert ((inject_Z K - (1 # 2)) * (pow2 ex * inject_Z n)
              == inject_Z n * inject_Z k - (1 # 2) * (inject_Z n * pow2 ex)) as ->.
      { rewrite HK.
        transitivity (inject_Z n * inject_Z k * (pow2 (- ex) * pow2 ex)
                      - (1 # 2) * (inject_Z n * pow2 ex)); [ring|].
        rewrite HoA. ring. }
      lra. }
    apply roundEven_below_half in Hhalf.
    apply Qle_lt_trans with (inject_Z (K - 1) * pow2 ex).
    + apply Qmult_le_compat_r; [|lra]. rewrite <- Zle_Qle. exact Hhalf.
    + unfold Z.sub. rewrite inject_Z_plus, HK.
      change (inject_Z (- (1))) with (- (1)).
      assert ((inject_Z k * pow2 (- ex) + - (1)) * pow2 ex
              == inject_Z k * (pow2 (- ex) * pow2 ex) - pow2 ex) as -> by ring.
      rewrite HoA. lra.
Qed.

(** Dividing a double below [2^53] by a whole number and cutting the
    quotient gives the whole quotient: the rounding of the division does
    not show. *)
Lemma floor_div_exact (m e n : Z) (s : Q) :
  (0 <= m < 2 ^ 53)%Z -> (e <= 0)%Z -> (0 < n)%Z ->
  s == inject_Z m * pow2 e ->
  Qfloor (nearest (s / inject_Z n)) = (Qfloor s / n)%Z.
Proof.
  intros Hm He Hn Hs.
  pose proof (pow2_pos e) as HB.
  assert (0 < inject_Z n) as HN by (change 0 with (inject_Z 0); now rewrite <- Zlt_Qlt).
  assert (0 <= s) as Hs0.
  { rewrite Hs. apply Qmult_le_0_compat; [|lra].
    change 0 with (inject_Z 0). rewrite <- Zle_Qle. lia. }
  assert (s < inject_Z (2 ^ 53)) as Hs53.
  { rewrite Hs. apply Qlt_le_trans with (inject_Z (2 ^ 53) * pow2 e).
    - apply Qmult_lt_compat_r; [exact HB|]. rewrite <- Zlt_Qlt. lia.
    - assert (pow2 e <= pow2 0) as H1 by (apply pow2_le; lia).
      change (pow2 0) with 1 in H1.
      assert (0 < inject_Z (2 ^ 53)) by reflexivity.
      apply Qle_trans with (inject_Z (2 ^ 53) * 1);
        [apply Qmult_le_l; assumption|rewrite Qmult_1_r; apply Qle_refl]. }
  assert (0 <= Qfloor s < 2 ^ 53)%Z as HS.
  { split.
    - change 0%Z with (Qfloor 0). now apply Qfloor_resp_le.
    - rewrite Zlt_Qlt. eapply Qle_lt_trans; [apply Qfloor_le|exact Hs53]. }
  set (k := (Qfloor s / n)%Z).
  assert (0 <= k <= Qfloor s)%Z as Hk.
  { unfold k. split; [apply Z.div_pos; lia|].
    apply Z.div_le_upper_bound; [lia|]. nia. }
  pose proof (Qfloor_div_Z s n Hn) as Hq. fold k in Hq.
  pose proof (Qfloor_le (s / inject_Z n)) as Hlo.
  pose proof (Qlt_floor (s / inject_Z n)) as Hhi.
  rewrite Hq in Hlo, Hhi.
  apply Qfloor_unique.
  - rewrite <- (nearest_Z k) by lia.
    apply nearest_mono; [|exact Hlo].
    change 0 with (inject_Z 0). rewrite <- Zle_Qle. lia.
  - apply nearest_below with (m := m) (e := e); try assumption; [lia|].
    apply Qmult_lt_r with (z := / inject_Z n); [now apply Qinv_lt_0_compat|].
    assert (inject_Z n * inject_Z (k + 1) * / inject_Z n == inject_Z (k + 1)) as ->
      by (field; lra).
    exact Hhi.
Qed.

(** The remainder of a double by a whole number is a double with the
    same unit. *)
Lemma Qrem_double (m e n : Z) :
  (0 <= m)%Z -> (e <= 0)%Z -> (0 < n)%Z ->
  exists m' : Z,
    (0 <= m' <= m)%Z /\
    Qrem (inject_Z m * pow2 e) (inject_Z n) == inject_Z m' * pow2 e.
Proof.
  intros Hm He Hn.
  pose proof (pow2_pos e) as HB. pose proof (pow2_opp e) as HoB.
  set (s := inject_Z m * pow2 e).
  assert (0 <= s) as Hs0.
  { apply Qmult_le_0_compat; [|lra].
    change 0 with (inject_Z 0). rewrite <- Zle_Qle. lia. }
  rewrite Qrem_nonneg by assumption.
  set (k := (Qfloor s / n)%Z).
  assert (0 <= Qfloor s)%Z as HS
    by (change 0%Z with (Qfloor 0); now apply Qfloor_resp_le).
  assert (0 <= k)%Z as Hk0 by (unfold k; apply Z.div_pos; lia).
  assert (n * k <= Qfloor s)%Z as Hk by (unfold k; apply Z.mul_div_le; lia).
  exists (m - n * k * 2 ^ (- e))%Z.
  assert (inject_Z (m - n * k * 2 ^ (- e)) * pow2 e
          == s - inject_Z n * inject_Z k) as E.
  { unfold Z.sub. rewrite inject_Z_plus, inject_Z_opp, !inject_Z_mult.
    rewrite <- pow2_Z by lia. unfold s.
    transitivity (inject_Z m * pow2 e
                  - inject_Z n * inject_Z k * (pow2 (- e) * pow2 e)); [ring|].
    rewrite HoB. ring. }
  split; [|now rewrite E].
  assert (0 <= s - inject_Z n * inject_Z k) as Hr.
  { pose proof (Qfloor_le s) as Hf.
    assert (inject_Z (n * k) <= inject_Z (Qfloor s)) as H1 by (rewrite <- Zle_Qle; lia).
    rewrite inject_Z_mult in H1. lra. }
  rewrite <- E in Hr.
  assert (0 <= inject_Z (m - n * k * 2 ^ (- e))) as Hr'.
  { destruct (Qlt_le_dec (inject_Z (m - n * k * 2 ^ (- e))) 0) as [Hneg|]; [|assumption].
    exfalso. apply Qmult_lt_compat_r with (z := pow2 e) in Hneg; [|exact HB]. lra. }
  change 0 with (inject_Z 0) in Hr'. rewrite <- Zle_Qle in Hr'.
  split; [exact Hr'|].
  assert (0 <= n * k * 2 ^ (- e))%Z; [|lia].
  apply Z.mul_nonneg_nonneg; [nia|]. apply Z.pow_nonneg. lia.
Qed.

End ExactFloor.
(** ** Subtitle timestamps *)

Section NumberFields.

Import Double.
Local Open Scope Q_scope.

Lemma round_comp (x y : Q) : x == y -> round x = round y.
Proof.
  intros E. unfold round, negative.
  assert (Qabs x == Qabs y) as Ea by (now rewrite E).
  pose proof (nearest_comp _ _ Ea) as En.
  assert (Qle_bool 0 x = Qle_bool 0 y) as ->.
  { destruct (Qle_bool 0 y) eqn:Hy.
    - apply Qle_bool_iff. apply Qle_bool_iff in Hy. now rewrite E.
    - destruct (Qle_bool 0 x) eqn:Hx; [|reflexivity].
      apply Qle_bool_iff in Hx. rewrite E in Hx. apply Qle_bool_iff in Hx. congruence. }
  assert (Qle_bool (nearest (Qabs x)) maxValue = Qle_bool (nearest (Qabs y)) maxValue) as ->.
  { destruct (Qle_bool (nearest (Qabs y)) maxValue) eqn:Hy.
    - apply Qle_bool_iff. apply Qle_bool_iff in Hy. now rewrite En.
    - destruct (Qle_bool (nearest (Qabs x)) maxValue) eqn:Hx; [|reflexivity].
      apply Qle_bool_iff in Hx. rewrite En in Hx. apply Qle_bool_iff in Hx. congruence. }
  destruct (Qle_bool _ _); [|reflexivity].
  f_equal. apply Qred_complete.
  destruct (negb _); now rewrite En.
Qed.

(** [Math.floor] of a rounded result that is not negative and not above
    [2^53]. *)
Lemma floor_round (q : Q) :
  0 <= q -> q <= inject_Z (2 ^ 53) ->
  floor (round q) = Finite (inject_Z (Qfloor (nearest q))).
Proof.
  intros H0 H1.
  rewrite (round_nonneg (inject_Z (2 ^ 53)) q H0 H1) by (vm_compute; discriminate).
  cbn. now rewrite (Qfloor_comp _ _ (Qred_correct (nearest q))).
Qed.

Lemma Number_toString_Z (env : Env) (z : Z) :
  (Z.abs z < 2 ^ 53)%Z -> Number_toString env (Finite (inject_Z z)) = Z_toString z.
Proof.
  intros Hz. unfold Number_toString, isSafeInteger. rewrite Qfloor_Z.
  assert (Qeq_bool (inject_Z z) (inject_Z z) = true) as ->
    by (apply Qeq_bool_iff; reflexivity).
  apply Z.ltb_lt in Hz. now rewrite Hz.
Qed.

End NumberFields.

Section FormatTime.

Import Double.
Local Open Scope Q_scope.

(** A double that is not negative and below [2^53]. *)
Variables m e : Z.
Hypothesis mantissa : (0 <= m < 2 ^ 53)%Z.
Hypothesis exponent : (e <= 0)%Z.

Let seconds : Q := inject_Z m * pow2 e.
Let S := Qfloor seconds.
Let T := Qfloor (seconds * 1000).

Lemma seconds_nonneg : 0 <= seconds.
Proof.
  apply Qmult_le_0_compat; [|apply Qlt_le_weak, pow2_pos].
  change 0 with (inject_Z 0). rewrite <- Zle_Qle. lia.
Qed.

Lemma seconds_bounded : seconds < inject_Z (2 ^ 53).
Proof.
  pose proof (pow2_pos e) as HB.
  apply Qlt_le_trans with (inject_Z (2 ^ 53) * pow2 e).
  - apply Qmult_lt_compat_r; [exact HB|]. rewrite <- Zlt_Qlt. lia.
  - assert (pow2 e <= pow2 0) as H1 by (apply pow2_le; lia).
    change (pow2 0) with 1 in H1.
    assert (0 < inject_Z (2 ^ 53)) by reflexivity.
    apply Qle_trans with (inject_Z (2 ^ 53) * 1);
      [apply Qmult_le_l; assumption|rewrite Qmult_1_r; apply Qle_refl].
Qed.

Lemma whole_seconds_bounded : (0 <= S < 2 ^ 53)%Z.
Proof.
  split.
  - exact (Qfloor_resp_le 0 seconds seconds_nonneg).
  - rewrite Zlt_Qlt. eapply Qle_lt_trans; [apply Qfloor_le|exact seconds_bounded].
Qed.

Lemma whole_seconds_of_millis : S = (T / 1000)%Z.
Proof.
  unfold S, T.
  rewrite <- (Qfloor_div_Z (seconds * 1000) 1000) by lia.
  apply Qfloor_comp. change (inject_Z 1000) with 1000. field.
Qed.

Lemma Qrem_bounded (n : Z) :
  (0 < n)%Z -> 0 <= Qrem seconds (inject_Z n) < inject_Z n.
Proof.
  intros Hn. pose proof seconds_nonneg as Hs.
  rewrite Qrem_nonneg by assumption.
  pose proof (Qfloor_le seconds) as Hlo. pose proof (Qlt_floor seconds) as Hhi.
  fold S in Hlo, Hhi. fold S. pose proof whole_seconds_bounded as HS.
  pose proof (Z.mul_div_le S n Hn). pose proof (Z.mul_succ_div_gt S n Hn).
  assert (inject_Z (n * (S / n)) <= inject_Z S) as H1 by (rewrite <- Zle_Qle; lia).
  assert (inject_Z (S + 1) <= inject_Z (n * (S / n) + n)) as H2 by (rewrite <- Zle_Qle; lia).
  rewrite !inject_Z_plus, inject_Z_mult in H2. rewrite inject_Z_mult in H1.
  rewrite inject_Z_plus in Hhi.
  set (P := inject_Z n * inject_Z (S / n)) in *.
  split; lra.
Qed.

(** [Math.floor(seconds / 3600)]. *)
Lemma hours_value :
  floor (div (Finite seconds) (Finite 3600)) = Finite (inject_Z (S / 3600)).
Proof.
  pose proof seconds_nonneg as Hs. pose proof seconds_bounded as Hb.
  unfold div. change (isZero 3600) with false. cbv iota.
  change 3600 with (inject_Z 3600).
  rewrite floor_round.
  - now rewrite (floor_div_exact m e 3600 seconds) by (try lia; reflexivity).
  - apply Qdiv_nonneg; [exact Hs|lia].
  - apply Qle_shift_div_r; [reflexivity|].
    change (inject_Z 3600) with 3600.
    assert (0 < inject_Z (2 ^ 53)) by reflexivity. lra.
Qed.

(** [Math.floor((seconds % 3600) / 60)]. *)
Lemma minutes_value :
  floor (div (rem (Finite seconds) (Finite 3600)) (Finite 60))
  = Finite (inject_Z ((S / 60) mod 60)).
Proof.
  pose proof seconds_nonneg as Hs.
  destruct (Qrem_bounded 3600) as [Hr0 Hr1]; [lia|].
  destruct (Qrem_double m e 3600) as (m' & Hm' & Em'); [lia..|].
  fold seconds in Em'.
  unfold rem, div. change (isZero 3600) with false. change (isZero 60) with false.
  cbv iota.
  rewrite (round_comp _ (Qrem seconds (inject_Z 3600) / inject_Z 60))
    by (rewrite Qred_correct; reflexivity).
  rewrite floor_round.
  - rewrite (floor_div_exact m' e 60 _) by (try lia; exact Em').
    rewrite Qfloor_Qrem by (try lia; exact Hs). fold S.
    do 2 f_equal. pose proof whole_seconds_bounded.
    Z.to_euclidean_division_equations. lia.
  - apply Qdiv_nonneg; [exact Hr0|lia].
  - apply Qle_shift_div_r; [reflexivity|].
    apply Qle_trans with (inject_Z 3600);
      [apply Qlt_le_weak; exact Hr1|vm_compute; discriminate].
Qed.

(** [Math.floor(seconds % 60)]. *)
Lemma secs_value :
  floor (rem (Finite seconds) (Finite 60)) = Finite (inject_Z (S mod 60)).
Proof.
  unfold rem. change (isZero 60) with false. cbn.
  rewrite (Qfloor_comp _ _ (Qred_correct _)).
  change 60 with (inject_Z 60).
  now rewrite Qfloor_Qrem by (try lia; exact seconds_nonneg).
Qed.

(** [Math.floor((seconds % 1) * 1000)]: the product is rounded before it
    is cut, which can lift it onto the next whole number. *)
Lemma ms_value :
  exists ms : Z,
    floor (mul (rem (Finite seconds) (Finite 1)) (Finite 1000)) = Finite (inject_Z ms)
    /\ (T mod 1000 <= ms <= T mod 1000 + 1)%Z /\ (ms < 1000)%Z.
Proof.
  pose proof seconds_nonneg as Hs.
  destruct (Qrem_gap m e 1 53) as [Hr0 Hr1]; [lia..|vm_compute; discriminate|].
  fold seconds in Hr0, Hr1.
  set (r := Qrem seconds (inject_Z 1)) in *.
  unfold rem, mul. change (isZero 1) with false. cbv iota.
  change 1 with (inject_Z 1) at 1. fold r.
  rewrite (round_comp _ (r * 1000)) by (rewrite Qred_correct; reflexivity).
  assert (r * 1000 <= (inject_Z 1 - pow2 (- (53))) * 1000) as Hup
    by (apply Qmult_le_compat_r; [exact Hr1|discriminate]).
  assert (0 <= r * 1000) as H0 by (apply Qmult_le_0_compat; [exact Hr0|discriminate]).
  rewrite floor_round;
    [|exact H0
     |eapply Qle_trans; [exact Hup|vm_compute; discriminate]].
  exists (Qfloor (nearest (r * 1000))).
  split; [reflexivity|].
  assert (Qfloor (r * 1000) = T mod 1000)%Z as Ht.
  { unfold r. rewrite Qrem_nonneg by (try lia; exact Hs).
    fold S. rewrite Z.div_1_r.
    assert ((seconds - inject_Z 1 * inject_Z S) * 1000
            == seconds * 1000 - inject_Z (1000 * S)) as ->.
    { rewrite inject_Z_mult. change (inject_Z 1000) with 1000.
      change (inject_Z 1) with 1. ring. }
    rewrite Qfloor_minus_Z. fold T.
    rewrite whole_seconds_of_millis, Z.mod_eq by lia. reflexivity. }
  rewrite <- Ht.
  set (t := Qfloor (r * 1000)).
  pose proof (Qfloor_le (r * 1000)) as Hlo. pose proof (Qlt_floor (r * 1000)) as Hhi.
  fold t in Hlo, Hhi.
  assert (0 <= t)%Z as Ht0 by (change 0%Z with (Qfloor 0); now apply Qfloor_resp_le).
  assert (t < 1000)%Z as Ht1.
  { rewrite Zlt_Qlt. eapply Qle_lt_trans; [exact Hlo|].
    eapply Qle_lt_trans; [exact Hup|]. vm_compute. reflexivity. }
  assert (inject_Z t <= nearest (r * 1000)) as Hn0.
  { rewrite <- (nearest_Z t) by lia. apply nearest_mono; [|exact Hlo].
    change 0 with (inject_Z 0). rewrite <- Zle_Qle. lia. }
  assert (nearest (r * 1000) <= inject_Z (t + 1)) as Hn1.
  { rewrite <- (nearest_Z (t + 1)) by lia.
    apply nearest_mono; [exact H0|]. apply Qlt_le_weak. exact Hhi. }
  assert (nearest (r * 1000) < inject_Z 1000) as Hn2.
  { eapply Qle_lt_trans; [apply nearest_mono; [exact H0|exact Hup]|].
    vm_compute. reflexivity. }
  pose proof (Qfloor_le (nearest (r * 1000))) as Hf.
  pose proof (Qfloor_resp_le _ _ Hn0) as Hg. rewrite Qfloor_Z in Hg.
  pose proof (Qfloor_resp_le _ _ Hn1) as Hh. rewrite Qfloor_Z in Hh.
  assert (inject_Z (Qfloor (nearest (r * 1000))) < inject_Z 1000) as Hi by lra.
  rewrite <- Zlt_Qlt in Hi. lia.
Qed.

End FormatTime.




(** The rounding of the product shows at ordinary inputs: the double
    written 1.001 lies below 1.001 and prints ,000, and the double written
    0.624 lies below 0.624 and prints ,624. *)
Lemma formatTime_rounds_milliseconds (env : Env) :
  formatTime env (Double.ofDecimal (1001 # 1000)) = "00:00:01,000"
  /\ formatTime env (Double.ofDecimal (624 # 1000)) = "00:00:00,624"
  /\ Double.ofDecimal (624 # 1000) = Finite (5620492334958379 # 9007199254740992)
  /\ Qfloor ((5620492334958379 # 9007199254740992) * 1000) = 623%Z.
Proof. repeat split; vm_compute; reflexivity. Qed.


(** ** Running the steps *)

Section Runs.

Lemma onProgress_run (cb : Q -> M unit) (percents : list (option Q)) (w : world) :
  (forall p w', cb p w' = (Returned tt, w', [Progress p])) ->
  onProgress cb percents w
  = (Returned tt, w,
     map (fun percent =>
            Progress (Math_min (70 + num_or percent 0 * (2 # 10)) 90)%Q)
       percents).
Proof.
  intros Hcb. induction percents as [|percent rest IH]; simpl; [reflexivity|].
  unfold bind. now rewrite Hcb, IH.
Qed.

Lemma encoded_app (t1 t2 : list event) :
  encoded (t1 ++ t2) = (encoded t1 ++ encoded t2)%list.
Proof.
  induction t1 as [|e t1 IH]; simpl; [reflexivity|].
  destruct e; simpl; now rewrite ?IH.
Qed.

Lemma unlinked_app (t1 t2 : list event) :
  unlinked (t1 ++ t2) = (unlinked t1 ++ unlinked t2)%list.
Proof.
  induction t1 as [|e t1 IH]; simpl; [reflexivity|].
  destruct e; simpl; now rewrite ?IH.
Qed.

Lemma synthesized_app (t1 t2 : list event) :
  synthesized (t1 ++ t2) = (synthesized t1 ++ synthesized t2)%list.
Proof.
  induction t1 as [|e t1 IH]; simpl; [reflexivity|].
  destruct e; simpl; now rewrite ?IH.
Qed.

Lemma progressValues_app (t1 t2 : list event) :
  progressValues (t1 ++ t2) = (progressValues t1 ++ progressValues t2)%list.
Proof.
  induction t1 as [|e t1 IH]; simpl; [reflexivity|].
  destruct e; simpl; now rewrite ?IH.
Qed.

Lemma encoded_progress (f : option Q -> Q) (l : list (option Q)) :
  encoded (map (fun p => Progress (f p)) l) = [].
Proof. induction l; simpl; auto. Qed.

Lemma unlinked_progress (f : option Q -> Q) (l : list (option Q)) :
  unlinked (map (fun p => Progress (f p)) l) = [].
Proof. induction l; simpl; auto. Qed.

(** The builder takes the sizes the engine falls back on. *)
Lemma acceptsSize_defaults :
  acceptsSize "1920x1080" = true /\ acceptsSize "800x600" = true.
Proof. split; reflexivity. Qed.

(** What [configureOutput] does: it throws on a size the builder does not
    take, and appends the codecs, the size and the frame rate otherwise. *)
Lemma configureOutput_run (format : ExportFormat) (options : ExportOptions)
    (cmd : command) (w : world) :
  configureOutput format options cmd w
  = if acceptsSize (sizeOf format options)
    then (Returned (cmd ++ codecs format
                      ++ [Size (sizeOf format options); Fps (fpsOf format options)])%list,
          w, [])
    else (Threw (ErrorObj ("Invalid size specified: " ++ sizeOf format options)),
          w, []).
Proof.
  unfold configureOutput, size, sizeOf, fpsOf, codecs, bind, ret, throw.
  destruct format;
    match goal with
    | |- context [acceptsSize ?s] => destruct (acceptsSize s)
    end; cbn; rewrite <- ?app_assoc; reflexivity.
Qed.

End Runs.

(** Unfold the straight-line services down to the steps of the monad. *)
Ltac unfold_steps :=
  unfold Queue.processVideoHandler, Queue.exportVideoHandler;
  unfold processVideo, processVideo_try, processVideo_catch, exportVideo,
    runCommand, addSubtitles, findById, findByIdAndUpdate, save, uploadToS3,
    unlinkQuietly, createWriteStream, Queue.job_progress;
  unfold tryCatch, bind, await, gets, emit, throw, ret, modify, never.

(** Run the unfolded steps: split on every awaited call of [env] and on
    what the command builder makes of the size. *)
Ltac crunch env :=
  repeat (cbn;
          first
            [ rewrite onProgress_run by reflexivity
            | rewrite configureOutput_run
            | rewrite (proj1 acceptsSize_defaults)
            | rewrite (proj2 acceptsSize_defaults)
            | match goal with
              | H : db ?w !! ?id = _ |- context [db ?w !! ?id] => rewrite H
              | H : acceptsSize ?s = _ |- context [acceptsSize ?s] => rewrite H
              | |- context [rejects env ?s] => destruct (rejects env s) eqn:?
              | |- context [acceptsSize ?s] => destruct (acceptsSize s) eqn:?
              end ]);
  cbn.

(** ** The lanes *)

(** C4: the transform lane is built with 3 attempts and an exponential
    backoff of base 2000 ms, the voice lane with 3 attempts and base
    1000 ms, the export lane with 2 attempts and base 5000 ms; under the
    exponential schedule the delay before attempt [k] is [base * 2^(k-1)]. *)
Theorem lane_retry_policies :
  let transform := Queue.defaultJobOptions Queue.processVideoQueue in
  let voice := Queue.defaultJobOptions Queue.audioGenerationQueue in
  let export := Queue.defaultJobOptions Queue.exportQueue in
  (Queue.attempts transform = 3%Z
   /\ Queue.backoff transform = Queue.mkBackoff Queue.exponential 2000)
  /\ (Queue.attempts voice = 3%Z
      /\ Queue.backoff voice = Queue.mkBackoff Queue.exponential 1000)
  /\ (Queue.attempts export = 2%Z
      /\ Queue.backoff export = Queue.mkBackoff Queue.exponential 5000)
  /\ (forall k : Z,
        Queue.backoffDelay (Queue.backoff transform) k = (2000 * 2 ^ (k - 1))%Z
        /\ Queue.backoffDelay (Queue.backoff voice) k = (1000 * 2 ^ (k - 1))%Z
        /\ Queue.backoffDelay (Queue.backoff export) k = (5000 * 2 ^ (k - 1))%Z)
  /\ map (Queue.backoffDelay (Queue.backoff transform)) [1; 2; 3]%Z
     = [2000; 4000; 8000]%Z
  /\ map (Queue.backoffDelay (Queue.backoff voice)) [1; 2; 3]%Z
     = [1000; 2000; 4000]%Z
  /\ map (Queue.backoffDelay (Queue.backoff export)) [1; 2]%Z
     = [5000; 10000]%Z.
Proof.
  cbv zeta. repeat split.
Qed.

(** ** The filter graph *)

Section FilterGraph.

Variable env : Env.

(** Each effect of a type the loop knows pushes one filter, with or
    without coordinates: the guard [if (effect.coordinates)] holds of
    every effect of a fetched Recording. *)
Lemma effectFilter_drawn (index : nat) (effect : VisualEffect) :
  drawn effect = true -> length (effectFilter env index effect) = 1%nat.
Proof. unfold drawn, effectFilter. now destruct (type effect). Qed.

Lemma effectFilter_not_drawn (index : nat) (effect : VisualEffect) :
  drawn effect = false -> effectFilter env index effect = [].
Proof. unfold drawn, effectFilter. now destruct (type effect). Qed.

(** The loop appends, effect after effect, what each one contributes under
    its own index. *)
Lemma forEachEffect_concat (effects : list VisualEffect) :
  forall (index : nat) (filters : list string),
    forEachEffect env index effects filters
    = (filters
       ++ concat (imap (fun i e => effectFilter env (index + i) e) effects))%list.
Proof.
  induction effects as [|effect rest IH]; intros index filters; simpl.
  - now rewrite app_nil_r.
  - rewrite IH, <- app_assoc, Nat.add_0_r. do 2 f_equal.
    f_equal. apply imap_ext. intros i e _. simpl. f_equal. lia.
Qed.

Lemma forEachEffect_length (effects : list VisualEffect) :
  forall (index : nat) (filters : list string),
    length (forEachEffect env index effects filters)
    = (length filters + length (List.filter drawn effects))%nat.
Proof.
  induction effects as [|effect rest IH]; intros index filters; simpl; [lia|].
  rewrite IH, List.length_app.
  destruct (drawn effect) eqn:E.
  - rewrite (effectFilter_drawn index effect E). simpl. lia.
  - rewrite (effectFilter_not_drawn index effect E). simpl. lia.
Qed.

(** The arithmetic of the zoom filter is that of binary64: 100 * 1.1 is
    110.00000000000001 and 10 - (100 * (1.1 - 1)) / 2 is 4.999999999999996;
    with whole results the filter prints them. *)
Lemma zoom_arithmetic_is_binary64 :
  let scale' := Double.ofDecimal (11 # 10) in
  let boxed :=
    mkCoordinates (Some (Finite 10)) (Some (Finite 20)) (Some (Finite 100))
      (Some (Finite 50)) in
  Double.mul (Finite 100) scale' = Finite (7740561859543041 # 70368744177664)
  /\ Double.sub (Finite 10)
       (Double.div (Double.mul (Finite 100) (Double.sub scale' (Finite 1)))
          (Finite 2))
     = Finite (5629499534213115 # 1125899906842624)
  /\ effectFilter env 0
       (mkVisualEffect zoom (Finite 0) (Finite 5) boxed
          (Some (mkEffectProperties (Some (Finite 2)))))
     = [ "[0:v]crop=100:50:10:20,scale=200:100[zoomed0];"
           ++ "[0:v][zoomed0]overlay=-40:-5:enable='between(t,0,5)'[v0]" ].
Proof. repeat split; vm_compute; reflexivity. Qed.

End FilterGraph.

(** C6, on the code: an effect whose coordinates were never set is not
    skipped. Every blur, zoom and highlight effect pushes exactly one
    filter, so the filter list has one entry per such effect, in array
    order and under the effect's own index; for a blur without coordinates
    that entry crops and overlays at [undefined], and an export of a
    Recording with this one effect hands the encoder a command that
    carries it as its filter graph. *)
Theorem effects_without_coordinates_not_skipped (env : Env) :
  let bare := mkVisualEffect blur (Finite 0) (Finite 5) noCoordinates None in
  let unset :=
    "[0:v]crop=undefined:undefined:undefined:undefined,boxblur=10:1[blurred0];"
      ++ "[0:v][blurred0]overlay=undefined:undefined:enable='between(t,0,5)'[v0]" in
  (forall index effect,
      drawn effect = true -> length (effectFilter env index effect) = 1%nat)
  /\ (forall effects,
         forEachEffect env 0 effects [] = concat (imap (effectFilter env) effects)
         /\ length (forEachEffect env 0 effects [])
            = length (List.filter drawn effects))
  /\ effectFilter env 0 bare = [unset]
  /\ (forall id w recording,
         db w !! id = Some recording ->
         visualEffects recording = [bare] ->
         subtitles recording = [] ->
         rejects env AtFindById = None ->
         rejects env AtHttpGet = None ->
         rejects env AtPipe = None ->
         encoded (trace (exportVideo env id mp4 emptyOptions Queue.job_progress w))
         = [[Input (tempPath env TmpVideo "mp4"); ComplexFilter unset;
             VideoCodec "libx264"; AudioCodec "aac"; Size "1920x1080"; Fps 30;
             Output (tempPath env TmpOutput "mp4")]]).
Proof.
  intros bare unset.
  split; [exact (effectFilter_drawn env)|].
  split; [|split].
  - intros effects. split.
    + rewrite forEachEffect_concat. reflexivity.
    + now rewrite forEachEffect_length.
  - reflexivity.
  - intros id w recording Hr Hv Hs H1 H2 H3.
    unfold_steps. unfold applyVisualEffects.
    rewrite H1. cbn. rewrite Hr. cbn. rewrite H2. cbn. rewrite H3, Hs, Hv. cbn.
    crunch env; rewrite ?encoded_app, ?encoded_progress; reflexivity.
Qed.

(** The effect on the sample Recording, with every awaited call
    succeeding. *)
Lemma effects_without_coordinates_not_skipped_witness :
  let bare := mkVisualEffect blur (Finite 0) (Finite 5) noCoordinates None in
  encoded (trace (exportVideo Sample.calm "rec1" mp4 emptyOptions Queue.job_progress
                    (mkWorld {[ "rec1" :=
                                  mkRecording "https://cdn/raw.mp4" None None []
                                    [bare] [] completed 100 None ]} ∅)))
  = [[Input "/tmp/v.mp4";
      ComplexFilter
        ("[0:v]crop=undefined:undefined:undefined:undefined,boxblur=10:1[blurred0];"
           ++ "[0:v][blurred0]overlay=undefined:undefined:enable='between(t,0,5)'[v0]");
      VideoCodec "libx264"; AudioCodec "aac"; Size "1920x1080"; Fps 30;
      Output "/tmp/o.mp4"]].
Proof.
  intros bare.
  destruct (effects_without_coordinates_not_skipped Sample.calm) as (_ & _ & _ & H).
  set (recording :=
         mkRecording "https://cdn/raw.mp4" None None [] [bare] [] completed 100 None).
  assert (db (mkWorld {[ "rec1" := recording ]} ∅) !! "rec1" = Some recording)
    as Hr by (vm_compute; reflexivity).
  exact (H "rec1" _ recording Hr eq_refl eq_refl eq_refl eq_refl eq_refl).
Defined.

(** ** The encode command *)

Section ExportCommand.

Variable env : Env.

Lemma applyVisualEffects_nil (recording : Recording) (cmd : command) :
  visualEffects recording = [] -> applyVisualEffects env recording cmd = cmd.
Proof. intros H. unfold applyVisualEffects. now rewrite H. Qed.

Lemma applyVisualEffects_app (recording : Recording) (cmd : command) :
  applyVisualEffects env recording cmd
  = (cmd ++ match forEachEffect env 0 (visualEffects recording) [] with
            | [] => []
            | f :: fs => [ComplexFilter (join ";" (f :: fs))]
            end)%list.
Proof.
  unfold applyVisualEffects.
  destruct (visualEffects recording) as [|effect rest];
    [now rewrite app_nil_r|].
  destruct (forEachEffect env 0 (effect :: rest) []);
    [now rewrite app_nil_r|reflexivity].
Qed.

Lemma exportVideo_encoded (id : string) (format : ExportFormat)
    (options : ExportOptions) (w : world) (recording : Recording) :
  db w !! id = Some recording ->
  forall c,
    In c (encoded (trace (exportVideo env id format options Queue.job_progress w))) ->
    c = builtCommand env recording format options.
Proof.
  intros Hr c. unfold builtCommand.
  unfold exportVideo. unfold tryCatch at 1. unfold bind at 1.
  unfold findById at 1. unfold_steps.
  destruct (rejects env AtFindById) eqn:?; cbn; [tauto|].
  rewrite Hr. cbn.
  destruct (subtitles recording);
    crunch env; rewrite ?encoded_app, ?encoded_progress; cbn;
    rewrite <- ?app_assoc; cbn; intuition.
Qed.

Lemma filterCalls_app (c1 c2 : command) :
  filterCalls (c1 ++ c2)%list = (filterCalls c1 ++ filterCalls c2)%list.
Proof. apply List.filter_app. Qed.

Lemma filterCalls_built (recording : Recording) (format : ExportFormat)
    (options : ExportOptions) :
  filterCalls (builtCommand env recording format options)
  = (match forEachEffect env 0 (visualEffects recording) [] with
     | [] => []
     | f :: fs => [ComplexFilter (join ";" (f :: fs))]
     end
     ++ match subtitles recording with
        | [] => []
        | _ :: _ =>
            [AddOption "-vf" ("subtitles=" ++ tempPath env TmpSubtitles "srt")]
        end)%list.
Proof.
  unfold builtCommand. rewrite applyVisualEffects_app.
  rewrite !filterCalls_app.
  destruct (forEachEffect env 0 (visualEffects recording) []);
    destruct format, (subtitles recording); reflexivity.
Qed.

End ExportCommand.
(** C8: for a Recording without visual effects and without subtitles, an
    mp4 export with empty options hands the encoder a command with no
    complex filter and no subtitle option: the source as input, libx264
    video, aac audio, size 1920x1080, 30 frames per second, and the output
    file. The command is issued once the Recording is fetched and the
    source downloaded. *)
Theorem plain_mp4_export_command (env : Env) (id : string) (w : world)
    (recording : Recording) :
  db w !! id = Some recording ->
  visualEffects recording = [] ->
  subtitles recording = [] ->
  encoded (trace (exportVideo env id mp4 emptyOptions Queue.job_progress w))
  = match rejects env AtFindById, rejects env AtHttpGet, rejects env AtPipe with
    | None, None, None =>
        [[Input (tempPath env TmpVideo "mp4"); VideoCodec "libx264";
          AudioCodec "aac"; Size "1920x1080"; Fps 30;
          Output (tempPath env TmpOutput "mp4")]]
    | _, _, _ => []
    end.
Proof.
  intros Hr He Hs.
  pose proof (applyVisualEffects_nil env recording) as Hc.
  unfold_steps.
  destruct (rejects env AtFindById) eqn:?; cbn; [reflexivity|].
  rewrite Hr. cbn. rewrite Hs, Hc by exact He.
  crunch env; rewrite ?encoded_app, ?encoded_progress; reflexivity.
Qed.

(** The theorem on the sample Recording, with every awaited call
    succeeding. *)
Lemma plain_mp4_export_command_witness :
  encoded (trace (exportVideo Sample.calm "rec1" mp4 emptyOptions
                    Queue.job_progress Sample.store))
  = [[Input "/tmp/v.mp4"; VideoCodec "libx264"; AudioCodec "aac";
      Size "1920x1080"; Fps 30; Output "/tmp/o.mp4"]].
Proof.
  exact (plain_mp4_export_command Sample.calm "rec1" Sample.store Sample.demo
           eq_refl eq_refl eq_refl).
Defined.

(** C10: two option values with the same [resolution] and [frameRate] give
    the same run of the export, command included, whatever their
    [includeSubtitles], [includeAudio], [quality] and [watermark]; the only
    filters a command ever carries are the graph of the Recording's visual
    effects and, exactly when the Recording has subtitles, the subtitle
    option: none comes from the options. *)
Theorem exportVideo_ignores_options (env : Env) (id : string)
    (format : ExportFormat) (o1 o2 : ExportOptions) (w : world) :
  resolution o1 = resolution o2 ->
  frameRate o1 = frameRate o2 ->
  exportVideo env id format o1 Queue.job_progress w
  = exportVideo env id format o2 Queue.job_progress w
  /\ (forall recording c,
         db w !! id = Some recording ->
         In c (encoded (trace (exportVideo env id format o1 Queue.job_progress w))) ->
         filterCalls c
         = (match forEachEffect env 0 (visualEffects recording) [] with
            | [] => []
            | f :: fs => [ComplexFilter (join ";" (f :: fs))]
            end
            ++ match subtitles recording with
               | [] => []
               | _ :: _ =>
                   [AddOption "-vf"
                      ("subtitles=" ++ tempPath env TmpSubtitles "srt")]
               end)%list).
Proof.
  intros Hres Hfps. split.
  - unfold exportVideo, configureOutput. rewrite Hres, Hfps. reflexivity.
  - intros recording c Hr Hc.
    rewrite (exportVideo_encoded env id format o1 w recording Hr c Hc).
    apply filterCalls_built.
Qed.

(** The theorem on two option values that differ in every field the
    command does not read. *)
Lemma exportVideo_ignores_options_witness :
  let quiet :=
    mkExportOptions (Some "1280x720") (Some 24%Q) (Some "low") (Some false)
      (Some false) None None None in
  let loud :=
    mkExportOptions (Some "1280x720") (Some 24%Q) (Some "high") (Some true)
      (Some true) (Some 1%Q) (Some 9%Q)
      (Some (mkWatermark (Some true) (Some "DEMO") (Some "top-left")
               (Some (7 # 10)%Q))) in
  exportVideo Sample.calm "rec1" webm quiet Queue.job_progress Sample.store
  = exportVideo Sample.calm "rec1" webm loud Queue.job_progress Sample.store.
Proof.
  intros quiet loud.
  exact (proj1 (exportVideo_ignores_options Sample.calm "rec1" webm quiet loud
                  Sample.store eq_refl eq_refl)).
Defined.

(** ** The transform operation *)

Section Transform.

Variable env : Env.
Variables (id url : string) (ui : list UIEvent) (w : world).

Let attempt := processVideo_try env id url ui Queue.job_progress w.
Let run := processVideo env id url ui Queue.job_progress w.

Let tempVideoPath := tempPath env TmpVideo "mp4".
Let thumbnailPath := tempPath env TmpThumbnail "jpg".

(** The [try] block never gets to its end: past the thumbnail upload it
    waits for an encoder command that was not started. *)
Lemma processVideo_try_never_returns (a : ProcessResult) :
  result attempt <> Returned a.
Proof.
  subst attempt. unfold_steps.
  destruct (rejects env AtFindById) eqn:?.
  - crunch env; discriminate.
  - cbn. destruct (db w !! id) eqn:Hr; cbn; crunch env; discriminate.
Qed.

(** Nor does it write to the entity store. *)
Lemma processVideo_try_store : db (final attempt) = db w.
Proof.
  subst attempt. unfold_steps.
  destruct (rejects env AtFindById) eqn:?.
  - crunch env; reflexivity.
  - cbn. destruct (db w !! id) eqn:Hr; cbn; crunch env; reflexivity.
Qed.

(** The whole trace of an attempt in which nothing rejects, and the state
    it is left in. *)
Lemma processVideo_stalls (recording : Recording) :
  db w !! id = Some recording ->
  (forall s,
      In s [AtFindById; AtHttpGet; AtPipe; AtScreenshots; AtReadThumbnail;
            AtUploadThumbnail] ->
      rejects env s = None) ->
  run
  = (Pending,
     mkWorld (db w) ({[ thumbnailPath ]} ∪ ({[ tempVideoPath ]} ∪ disk w)),
     [ FindById id; Progress 20;
       HttpGet url; CreateWriteStream tempVideoPath; Progress 40;
       Screenshots tempVideoPath thumbnailPath; Progress 60;
       ReadFile thumbnailPath;
       S3Upload ("thumbnails/" ++ id ++ "/"
                   ++ Z_toString (Date_now env AtUploadThumbnail) ++ ".jpg")
         "image/jpeg";
       LogInfo "File uploaded to S3"; Progress 80 ]).
Proof.
  intros Hr Hno.
  subst run tempVideoPath thumbnailPath. unfold_steps.
  rewrite !Hno by (cbn; tauto).
  cbn. rewrite Hr. cbn. reflexivity.
Qed.

(** An attempt stays pending only from there. *)
Lemma processVideo_pending :
  result run = Pending ->
  (exists recording, db w !! id = Some recording)
  /\ forall s,
      In s [AtFindById; AtHttpGet; AtPipe; AtScreenshots; AtReadThumbnail;
            AtUploadThumbnail] ->
      rejects env s = None.
Proof.
  subst run. unfold_steps.
  destruct (rejects env AtFindById) eqn:?.
  - crunch env; discriminate.
  - cbn. destruct (db w !! id) eqn:Hr; cbn; crunch env; try discriminate.
    intros _. split; [eauto|].
    intros s [<-|[<-|[<-|[<-|[<-|[<-|[]]]]]]]; assumption.
Qed.

(** The values reported are the first few of 20, 40, 60, 80. *)
Lemma processVideo_progress :
  exists k : nat, progressValues (trace run) = firstn k [20; 40; 60; 80]%Q.
Proof.
  subst run. unfold_steps.
  destruct (rejects env AtFindById) eqn:?.
  - crunch env; exists 0%nat; reflexivity.
  - cbn. destruct (db w !! id) eqn:Hr; cbn; crunch env;
      first [ exists 0%nat; reflexivity | exists 1%nat; reflexivity
            | exists 2%nat; reflexivity | exists 3%nat; reflexivity
            | exists 4%nat; reflexivity ].
Qed.

(** No path of the transform comes to a deletion. *)
Lemma processVideo_unlinked : unlinked (trace run) = [].
Proof.
  subst run. unfold_steps.
  destruct (rejects env AtFindById) eqn:?.
  - crunch env; reflexivity.
  - cbn. destruct (db w !! id) eqn:Hr; cbn; crunch env; reflexivity.
Qed.

(** The [catch] block passes on what the [try] block threw, and nothing
    else makes the transform throw. *)
Lemma processVideo_rethrows (error : thrown) :
  result run = Threw error <-> result attempt = Threw error.
Proof.
  subst run attempt. unfold_steps.
  destruct (rejects env AtFindById) eqn:?.
  - crunch env; (split; intros [= <-]; reflexivity).
  - cbn. destruct (db w !! id) eqn:Hr; cbn;
      crunch env; try (split; intros; discriminate);
      (split; intros [= <-]; reflexivity).
Qed.

(** What the [catch] block does before it rethrows. *)
Lemma processVideo_catches (error : thrown) :
  result attempt = Threw error ->
  In (FindByIdAndUpdate id failed (errorMessageOf error)) (trace run)
  /\ db (final run)
     = match rejects env AtFindByIdAndUpdate with
       | None => alter (setFailed (errorMessageOf error)) id (db w)
       | Some _ => db w
       end.
Proof.
  subst run attempt. unfold_steps.
  destruct (rejects env AtFindById) eqn:?.
  - crunch env; (intros [= <-]; repeat split; cbn; tauto).
  - cbn. destruct (db w !! id) eqn:Hr; cbn;
      crunch env; try (intros; discriminate);
      (intros [= <-]; repeat split; cbn; tauto).
Qed.

(** So the transform never returns either. *)
Lemma processVideo_never_returns (a : ProcessResult) : result run <> Returned a.
Proof.
  intros Ha. apply (processVideo_try_never_returns a).
  revert Ha. subst run attempt. unfold processVideo, tryCatch, processVideo_catch.
  destruct (processVideo_try env id url ui Queue.job_progress w)
    as [[[a'|error|] w'] t']; cbn; [trivial| |discriminate].
  unfold bind, throw, emit.
  destruct (tryCatch _ _ w') as [[[[]|e|] w2] t2]; cbn; discriminate.
Qed.

(** The store after an attempt that did not throw. *)
Lemma processVideo_quiet_store :
  (forall error, result run <> Threw error) -> db (final run) = db w.
Proof.
  subst run. unfold_steps.
  destruct (rejects env AtFindById) eqn:?.
  - crunch env; intros H; try reflexivity; exfalso; eapply H; reflexivity.
  - cbn. destruct (db w !! id) eqn:Hr; cbn;
      crunch env; intros H; try reflexivity; exfalso; eapply H; reflexivity.
Qed.

End Transform.

(** C2, on the code: no transform attempt is successful. The audio
    extraction awaits the 'end' or 'error' event of an encoder command that
    is built and never run, so an attempt reports at most 20, 40, 60, 80,
    never 90 or 100, and never returns. When the Recording exists and no
    awaited call rejects, the attempt reports 20 after the Recording
    lookup, 40 after the download, 60 after the thumbnail generation and 80
    after the thumbnail upload, and then stays pending, with the store
    untouched and the downloaded source and the thumbnail on the disk. *)
Theorem processVideo_never_completes (env : Env) (id url : string)
    (ui : list UIEvent) (w : world) :
  let run := processVideo env id url ui Queue.job_progress w in
  (forall a, result run <> Returned a)
  /\ (exists k : nat, progressValues (trace run) = firstn k [20; 40; 60; 80]%Q)
  /\ (forall recording,
         db w !! id = Some recording ->
         (forall s,
             In s [AtFindById; AtHttpGet; AtPipe; AtScreenshots; AtReadThumbnail;
                   AtUploadThumbnail] ->
             rejects env s = None) ->
         result run = Pending
         /\ progressValues (trace run) = [20; 40; 60; 80]%Q
         /\ trace run
            = [ FindById id; Progress 20;
                HttpGet url; CreateWriteStream (tempPath env TmpVideo "mp4");
                Progress 40;
                Screenshots (tempPath env TmpVideo "mp4")
                  (tempPath env TmpThumbnail "jpg");
                Progress 60;
                ReadFile (tempPath env TmpThumbnail "jpg");
                S3Upload ("thumbnails/" ++ id ++ "/"
                            ++ Z_toString (Date_now env AtUploadThumbnail) ++ ".jpg")
                  "image/jpeg";
                LogInfo "File uploaded to S3"; Progress 80 ]
         /\ db (final run) = db w
         /\ tempPath env TmpVideo "mp4" ∈ disk (final run)
         /\ tempPath env TmpThumbnail "jpg" ∈ disk (final run)).
Proof.
  cbv zeta. split; [|split].
  - apply processVideo_never_returns.
  - apply processVideo_progress.
  - intros recording Hr Hno.
    rewrite (processVideo_stalls env id url ui w recording Hr Hno). cbn.
    repeat split; set_solver.
Qed.

(** The attempt on the sample Recording, with every awaited call
    succeeding. *)
Lemma processVideo_never_completes_witness :
  let run :=
    processVideo Sample.calm "rec1" "https://cdn/raw.mp4" [] Queue.job_progress
      Sample.store in
  result run = Pending /\ progressValues (trace run) = [20; 40; 60; 80]%Q.
Proof.
  intros run.
  assert (db Sample.store !! "rec1" = Some Sample.demo) as Hr
    by (vm_compute; reflexivity).
  destruct (proj2 (proj2 (processVideo_never_completes Sample.calm "rec1"
                            "https://cdn/raw.mp4" [] Sample.store))
              Sample.demo Hr (fun s _ => eq_refl)) as (H1 & H2 & _).
  split; assumption.
Defined.

(** C7, as the code has it: whatever error a step of the transform throws,
    the transform issues the update of the Recording to [failed] with the
    error's message ('Unknown error' for a thrown value that is no Error)
    and then throws that same error to the worker, in every case, and it
    throws nothing that a step did not throw. The Recording carries the
    failure when it exists and the update succeeds; a rejected update is
    swallowed and leaves the store as it was. *)
Theorem processVideo_failure_handling (env : Env) (id url : string)
    (ui : list UIEvent) (w : world) (error : thrown) :
  let attempt := processVideo_try env id url ui Queue.job_progress w in
  let run := processVideo env id url ui Queue.job_progress w in
  (result run = Threw error <-> result attempt = Threw error)
  /\ (result attempt = Threw error ->
      In (FindByIdAndUpdate id failed (errorMessageOf error)) (trace run)
      /\ (rejects env AtFindByIdAndUpdate = None ->
          (exists r, db w !! id = Some r) ->
          failureRecorded id error (final run))
      /\ (rejects env AtFindByIdAndUpdate <> None -> db (final run) = db w)).
Proof.
  cbv zeta. split; [apply processVideo_rethrows|].
  intros Hfail.
  destruct (processVideo_catches env id url ui w error Hfail) as (Hissued & Hdb).
  split; [exact Hissued|]. split.
  - intros Hok [r Hr]. rewrite Hok in Hdb.
    exists (setFailed (errorMessageOf error) r).
    rewrite Hdb, lookup_alter_eq, Hr. repeat split.
  - intros Hrej. destruct (rejects env AtFindByIdAndUpdate); [exact Hdb|tauto].
Qed.

(** The theorem on the sample Recording when the thumbnail cannot be
    generated: the step's error reaches the worker and is on the
    Recording. *)
Lemma processVideo_failure_handling_witness :
  let error := ErrorObj "ffmpeg exited with code 1" in
  let env := Sample.failing AtScreenshots error Sample.calm in
  let run :=
    processVideo env "rec1" "https://cdn/raw.mp4" [] Queue.job_progress
      Sample.store in
  result run = Threw error /\ failureRecorded "rec1" error (final run).
Proof.
  intros error env run.
  destruct (processVideo_failure_handling env "rec1" "https://cdn/raw.mp4" []
              Sample.store error) as (Hthrows & Hcatch).
  assert (result (processVideo_try env "rec1" "https://cdn/raw.mp4" []
                    Queue.job_progress Sample.store) = Threw error) as Htry
    by (vm_compute; reflexivity).
  split; [apply Hthrows; exact Htry|].
  destruct (Hcatch Htry) as (_ & Hrec & _).
  apply Hrec; [reflexivity|]. exists Sample.demo. vm_compute. reflexivity.
Defined.

(** C7 as stated fails: when the update of the Recording is itself
    rejected, the error is rethrown but the Recording does not carry the
    failure. *)
Lemma processVideo_failure_not_recorded :
  let error := ErrorObj "ECONNRESET" in
  let env :=
    Sample.failing AtFindByIdAndUpdate (ErrorObj "store unreachable")
      (Sample.failing AtHttpGet error Sample.calm) in
  let run :=
    processVideo env "rec1" "https://cdn/raw.mp4" [] Queue.job_progress
      Sample.store in
  result run = Threw error /\ ~ failureRecorded "rec1" error (final run).
Proof.
  cbv zeta. split; [reflexivity|].
  intros (r & Hr & Hstatus & _).
  vm_compute in Hr. injection Hr as <-. discriminate Hstatus.
Qed.
(** ** Temporary files *)

Section ExportCleanup.

Variable env : Env.
Variables (id : string) (format : ExportFormat) (options : ExportOptions).
Variable w : world.

Let run := exportVideo env id format options Queue.job_progress w.

Lemma exportVideo_unlinked :
  unlinked (trace run)
  = match result run with
    | Returned _ =>
        [tempPath env TmpVideo "mp4"; tempPath env TmpOutput (formatName format)]
    | _ => []
    end.
Proof.
  subst run. unfold_steps.
  destruct (rejects env AtFindById) eqn:?; cbn; [reflexivity|].
  destruct (db w !! id) as [recording|] eqn:Hr; cbn; [|reflexivity].
  destruct (subtitles recording);
    crunch env; rewrite ?unlinked_app, ?unlinked_progress; reflexivity.
Qed.

(** An export settles: it returns or it throws. *)
Lemma exportVideo_settles : result run <> Pending.
Proof.
  subst run. unfold_steps.
  destruct (rejects env AtFindById) eqn:?; cbn; [discriminate|].
  destruct (db w !! id) as [recording|] eqn:Hr; cbn; [|discriminate].
  destruct (subtitles recording); crunch env; discriminate.
Qed.

(** After an export that returns, the new files on the disk are the
    subtitle file and what could not be deleted. *)
Lemma exportVideo_leftovers (b : ExportResult) (p : string) :
  result run = Returned b ->
  p ∈ disk (final run) ->
  p ∈ disk w
  \/ (p = tempPath env TmpVideo "mp4" /\ rejects env AtUnlinkVideo <> None)
  \/ (p = tempPath env TmpOutput (formatName format)
      /\ rejects env AtUnlinkOutput <> None)
  \/ p = tempPath env TmpSubtitles "srt".
Proof.
  subst run. unfold_steps.
  destruct (rejects env AtFindById) eqn:?; cbn; [discriminate|].
  destruct (db w !! id) as [recording|] eqn:Hr; cbn; [|discriminate].
  destruct (subtitles recording);
    crunch env; try (intros; discriminate); intros _ Hp;
      unfold removeFile, createFile in Hp; cbn in Hp;
      rewrite ?elem_of_difference, ?elem_of_union, ?elem_of_singleton in Hp;
      intuition congruence.
Qed.

(** Only the awaited calls, a missing Recording and a size the command
    builder does not take can make it fail; rejected deletions cannot. *)
Lemma exportVideo_returns (recording : Recording) :
  (forall s, isUnlinkSite s = false -> rejects env s = None) ->
  db w !! id = Some recording ->
  acceptsSize (sizeOf format options) = true ->
  exists a, result run = Returned a.
Proof.
  intros Hno Hr Hsize. subst run. unfold_steps.
  repeat match goal with
         | |- context [rejects env ?s] =>
             rewrite (Hno s) by reflexivity
         end.
  cbn. rewrite Hr. cbn.
  destruct (subtitles recording); crunch env; eexists; reflexivity.
Qed.

End ExportCleanup.

(** C9, as the code has it: the deletion step belongs to the successful
    exit path only. No path of the transform comes to a deletion. An
    export that returns has tried to delete the downloaded source and the
    output artifact, in this order, and what it leaves behind is the
    subtitle file and what could not be deleted; rejected deletions are
    swallowed, they never make the export fail. An export that throws has
    attempted no deletion at all. *)
Theorem cleanup_on_success_only (env : Env) (id url : string)
    (ui : list UIEvent) (format : ExportFormat) (options : ExportOptions)
    (w : world) :
  let transform := processVideo env id url ui Queue.job_progress w in
  let export := exportVideo env id format options Queue.job_progress w in
  unlinked (trace transform) = []
  /\ unlinked (trace export)
     = match result export with
       | Returned _ =>
           [tempPath env TmpVideo "mp4"; tempPath env TmpOutput (formatName format)]
       | _ => []
       end
  /\ (forall b p,
         result export = Returned b ->
         p ∈ disk (final export) ->
         p ∈ disk w
         \/ (p = tempPath env TmpVideo "mp4"
             /\ rejects env AtUnlinkVideo <> None)
         \/ (p = tempPath env TmpOutput (formatName format)
             /\ rejects env AtUnlinkOutput <> None)
         \/ p = tempPath env TmpSubtitles "srt")
  /\ ((forall s, isUnlinkSite s = false -> rejects env s = None) ->
      (exists recording, db w !! id = Some recording) ->
      acceptsSize (sizeOf format options) = true ->
      exists b, result export = Returned b).
Proof.
  cbv zeta. split; [apply processVideo_unlinked|].
  split; [apply exportVideo_unlinked|].
  split; [intros b p; apply exportVideo_leftovers|].
  intros Hno [recording Hr] Hsize.
  exact (exportVideo_returns env id format options w recording Hno Hr Hsize).
Qed.

(** The theorem on the sample Recording when every deletion is rejected:
    the export still returns, with both deletions tried. *)
Lemma cleanup_on_success_only_witness :
  let env :=
    Sample.failing AtUnlinkVideo (ErrorObj "EBUSY")
      (Sample.failing AtUnlinkOutput (ErrorObj "EBUSY") Sample.calm) in
  let export :=
    exportVideo env "rec1" gif emptyOptions Queue.job_progress Sample.store in
  (exists b, result export = Returned b)
  /\ unlinked (trace export) = ["/tmp/v.mp4"; "/tmp/o.gif"].
Proof.
  intros env export.
  destruct (cleanup_on_success_only env "rec1" "https://cdn/raw.mp4" [] gif
              emptyOptions Sample.store) as (_ & Hun & _ & Hret).
  assert (exists b, result export = Returned b) as Hb.
  { apply Hret.
    - intros s Hs. destruct s; try discriminate Hs; reflexivity.
    - exists Sample.demo. vm_compute. reflexivity.
    - reflexivity. }
  split; [exact Hb|].
  destruct Hb as [b Hb]. fold export in Hun. rewrite Hb in Hun. exact Hun.
Defined.

(** C9 as stated fails: when the thumbnail cannot be generated the
    transform throws, the downloaded source is on the disk, and no deletion
    has been attempted. *)
Lemma temp_files_left_on_error :
  let env :=
    Sample.failing AtScreenshots (ErrorObj "ffmpeg exited with code 1")
      Sample.calm in
  let run :=
    processVideo env "rec1" "https://cdn/raw.mp4" [] Queue.job_progress
      Sample.store in
  result run = Threw (ErrorObj "ffmpeg exited with code 1")
  /\ unlinked (trace run) = []
  /\ ~ deletionAttempted Sample.store run.
Proof.
  cbv zeta. split; [reflexivity|]. split; [reflexivity|].
  intros H. apply (H "/tmp/v.mp4").
  - apply (bool_decide_unpack _). vm_compute. exact I.
  - apply not_elem_of_empty.
Qed.
(** ** Voice synthesis *)

Section Voice.

Variable env : Env.
Variable id : string.

Lemma synthesizeLoop_run (total : nat) (todo : list Segment) :
  forall (i : nat) (visited : list Segment) (urls : list string) (w : world),
    let r := synthesizeLoop env id Queue.job_progress total i todo visited urls w in
    final r = w
    /\ match result r with
       | Returned (vs, us) =>
           vs = (visited
                 ++ map (fun seg => withAudioUrl (Some (narratedBy env id seg)) seg)
                      todo)%list
           /\ us = (urls ++ map (narratedBy env id) todo)%list
           /\ trace r
              = concat (imap (fun k seg => iterationTrace id total (i + k) seg) todo)
       | Threw _ =>
           exists k, (k < length todo)%nat
                     /\ synthesized (trace r) = map segmentText (take (S k) todo)
                     /\ progressValues (trace r)
                        = map (loopProgress total) (seq i (S k))
       | Pending => False
       end.
Proof.
  induction todo as [|segment rest IH]; intros i visited urls w.
  - cbn. rewrite !app_nil_r. auto.
  - specialize (IH (S i)
                  (visited
                   ++ [withAudioUrl (Some (narratedBy env id segment)) segment])%list
                  (urls ++ [narratedBy env id segment])%list w).
    cbn -[synthesizeLoop] in IH. cbn [synthesizeLoop].
    unfold uploadToS3, Queue.job_progress, tryCatch, bind, await, emit, ret, throw.
    destruct (rejects env (AtSynthesize i)) eqn:Hs.
    + cbn. split; [reflexivity|]. exists 0%nat. cbn. repeat split. lia.
    + destruct (rejects env (AtUploadSegment i)) eqn:Hu.
      * cbn. split; [reflexivity|]. exists 0%nat. cbn. repeat split. lia.
      * cbn -[synthesizeLoop].
        fold (segmentKey id segment). fold (narratedBy env id segment).
        destruct (synthesizeLoop env id _ total (S i) rest _ _ w) as [[o w2] t2].
        cbn in IH |- *. destruct IH as [Hw IH]. split; [exact Hw|].
        destruct o as [[vs us]|e|]; [| |exact IH].
        -- destruct IH as (Hvs & Hus & Ht).
           rewrite Hvs, Hus, Ht, <- !app_assoc. cbn.
           repeat split. unfold iterationTrace at 1, loopProgress at 1.
           rewrite Nat.add_0_r. cbn. do 4 f_equal.
           f_equal. apply imap_ext. intros k seg _. cbn.
           replace (i + S k)%nat with (S (i + k)) by lia. reflexivity.
        -- destruct IH as (k & Hk & Hsyn & Hprog).
           exists (S k). split; [cbn; lia|].
           cbn -[take Z.of_nat]. rewrite Hsyn, Hprog. split; reflexivity.
Qed.

Lemma synthesized_iterations (total : nat) (l : list Segment) :
  forall g : nat -> nat,
    synthesized (concat (imap (fun k seg => iterationTrace id total (g k) seg) l))
    = map segmentText l.
Proof.
  induction l as [|seg l IH]; intros g; cbn; [reflexivity|].
  f_equal. apply (IH (g ∘ S)).
Qed.

Lemma progressValues_iterations (total : nat) (l : list Segment) :
  forall i : nat,
    progressValues
      (concat (imap (fun k seg => iterationTrace id total (i + k) seg) l))
    = map (loopProgress total) (seq i (length l)).
Proof.
  induction l as [|seg l IH]; intros i; cbn -[loopProgress]; [reflexivity|].
  rewrite Nat.add_0_r. f_equal. rewrite <- (IH (S i)).
  do 2 f_equal. apply imap_ext. intros k seg' _. cbn -[loopProgress].
  now replace (i + S k)%nat with (S (i + k)) by lia.
Qed.

Variable segs : list Segment.
Variable w : world.

Let run := generateAudio env id segs Queue.job_progress w.

(** The adapter is called for the segments in input order, none skipped,
    up to the point where the attempt stops. *)
Lemma generateAudio_prefix :
  exists k, synthesized (trace run) = map segmentText (take k segs).
Proof.
  subst run. unfold generateAudio, findById, save.
  unfold tryCatch, bind, await, gets, emit, throw, ret, modify.
  destruct (rejects env AtFindById) eqn:?; cbn; [exists 0%nat; reflexivity|].
  destruct (db w !! id) as [recording|] eqn:Hr; cbn;
    [|exists 0%nat; reflexivity].
  pose proof (synthesizeLoop_run (length segs) segs 0 [] [] w) as Hloop.
  cbv zeta in Hloop.
  destruct (synthesizeLoop env id _ (length segs) 0 segs [] [] w) as [[o w2] t2].
  cbn in Hloop. destruct Hloop as [-> Hloop].
  destruct o as [[vs us]|e|]; cbn; [| |contradiction].
  - destruct Hloop as (_ & _ & ->).
    exists (length segs). rewrite firstn_all.
    destruct (rejects env AtSave); cbn;
      rewrite !synthesized_app, (synthesized_iterations _ _ (fun k => k));
      cbn; rewrite ?app_nil_r; reflexivity.
  - destruct Hloop as (k & _ & Hsyn & _). exists (S k).
    now rewrite synthesized_app, Hsyn, app_nil_r.
Qed.

(** The whole trace of a successful attempt, and what it stores. *)
Lemma generateAudio_success (a : AudioResult) :
  result run = Returned a ->
  trace run
  = (FindById id :: concat (imap (iterationTrace id (length segs)) segs)
       ++ [Progress 90; Save id; Progress 100])%list
  /\ exists recording,
       db w !! id = Some recording
       /\ db (final run)
          = <[ id := setSegments
                       (map (fun seg =>
                               withAudioUrl (Some (narratedBy env id seg)) seg)
                          segs)
                       recording ]> (db w).
Proof.
  subst run. unfold generateAudio, findById, save.
  unfold tryCatch, bind, await, gets, emit, throw, ret, modify.
  destruct (rejects env AtFindById) eqn:?; cbn; [discriminate|].
  destruct (db w !! id) as [recording|] eqn:Hr; cbn; [|discriminate].
  pose proof (synthesizeLoop_run (length segs) segs 0 [] [] w) as Hloop.
  cbv zeta in Hloop.
  destruct (synthesizeLoop env id _ (length segs) 0 segs [] [] w) as [[o w2] t2].
  cbn in Hloop. destruct Hloop as [-> Hloop].
  destruct o as [[vs us]|e|]; cbn; [|discriminate..].
  destruct Hloop as (-> & _ & ->).
  destruct (rejects env AtSave); cbn; [discriminate|].
  intros _. split.
  - reflexivity.
  - exists recording. split; reflexivity.
Qed.

End Voice.




(** ** Progress over a whole job *)

(** The transform lane never reports a smaller value after a larger one. *)
Lemma transform_progress_nondecreasing (env : Env)
    (data : Queue.ProcessVideoData) (w : world) :
  nondecreasing (progressValues (trace (Queue.processVideoHandler env data w))).
Proof.
  unfold_steps.
  destruct (rejects env AtFindById) eqn:?.
  - crunch env; auto.
  - cbn. destruct (db w !! Queue.pvRecordingId data) eqn:Hr; cbn;
      crunch env; repeat split; try lra; auto.
Qed.

(** In the voice lane, whenever the Recording is found and there is at
    least one segment, the worker's first report of 10 is followed by the
    engine's report of 0 for the first segment. *)
Lemma voice_progress_starts_10_then_0 (env : Env) (id : string)
    (segs : list Segment) (w : world) (recording : Recording) :
  segs <> [] ->
  rejects env AtFindById = None ->
  db w !! id = Some recording ->
  exists rest,
    progressValues
      (trace (Queue.generateAudioHandler env (Queue.mkGenerateAudioData id segs) w))
    = 10%Q :: loopProgress (length segs) 0 :: rest.
Proof.
  intros Hne Hfind Hr.
  destruct segs as [|segment others]; [congruence|].
  unfold Queue.generateAudioHandler, generateAudio, findById, save, uploadToS3,
    Queue.job_progress.
  cbn [synthesizeLoop Queue.gaRecordingId Queue.gaSegments].
  unfold uploadToS3, Queue.job_progress.
  unfold tryCatch, bind, await, gets, emit, throw, ret, modify.
  rewrite Hfind. cbn -[synthesizeLoop loopProgress]. rewrite Hr.
  cbn -[synthesizeLoop loopProgress].
  destruct (rejects env (AtSynthesize 0)); cbn -[synthesizeLoop loopProgress];
    [eexists; reflexivity|].
  destruct (rejects env (AtUploadSegment 0)); cbn -[synthesizeLoop loopProgress];
    [eexists; reflexivity|].
  destruct (synthesizeLoop env id _ _ 1 others _ _ w) as [[[[vs us]|e|] w2] t2];
    cbn -[loopProgress]; [|eexists; reflexivity..].
  destruct (rejects env AtSave); cbn -[loopProgress]; eexists; reflexivity.
Qed.

Lemma voice_progress_not_monotone (env : Env) (id : string)
    (segs : list Segment) (w : world) (recording : Recording) :
  segs <> [] ->
  rejects env AtFindById = None ->
  db w !! id = Some recording ->
  ~ nondecreasing
      (progressValues
         (trace (Queue.generateAudioHandler env
                   (Queue.mkGenerateAudioData id segs) w))).
Proof.
  intros Hne Hfind Hr.
  destruct (voice_progress_starts_10_then_0 env id segs w recording Hne Hfind Hr)
    as [rest ->].
  intros [H _].
  assert (loopProgress (length segs) 0 == 0)%Q as H0.
  { unfold loopProgress, Qdiv. cbn [Z.of_nat inject_Z].
    now rewrite !Qmult_0_l. }
  rewrite H0 in H. vm_compute in H. apply H. reflexivity.
Qed.

(** C1 on a voice job with a single segment: the values reported are 10,
    then 0, then 90 and 100, so the second report is smaller than the
    first. *)
Theorem voice_progress_regresses :
  let run :=
    Queue.generateAudioHandler Sample.calm
      (Queue.mkGenerateAudioData "rec1" [Sample.hello]) Sample.store in
  (exists a, result run = Returned a)
  /\ progressValues (trace run) = [10%Q; loopProgress 1 0; 90%Q; 100%Q]
  /\ (loopProgress 1 0 == 0)%Q
  /\ ~ nondecreasing (progressValues (trace run)).
Proof.
  cbv zeta. split; [eexists; reflexivity|].
  split; [reflexivity|]. split; [reflexivity|].
  intros [H _]. vm_compute in H. apply H. reflexivity.
Qed.

(** * Further properties of the engine and the workers *)

(** ** Progress of the voice and export lanes *)

Section Monotone.

Local Open Scope Q_scope.

Lemma nondecreasing_app_bound (m : Q) (l1 l2 : list Q) :
  nondecreasing l1 -> nondecreasing l2 ->
  Forall (fun a => a <= m) l1 -> Forall (fun b => m <= b) l2 ->
  nondecreasing (l1 ++ l2).
Proof.
  intros H1 H2 Hlo Hhi. induction l1 as [|a l1 IH]; [exact H2|].
  inversion Hlo as [|? ? Ha Hlo']; subst.
  destruct l1 as [|b l1].
  - cbn. destruct l2 as [|c l2]; [exact I|]. split; [|exact H2].
    inversion Hhi; subst. lra.
  - destruct H1 as [Hab H1]. cbn. split; [exact Hab|]. apply IH; assumption.
Qed.

Lemma nondecreasing_map_seq (f : nat -> Q) (k : nat) :
  forall i, (forall j, f j <= f (S j)) -> nondecreasing (map f (seq i k)).
Proof.
  induction k as [|k IH]; intros i Hf; [exact I|].
  cbn. destruct k as [|k]; [exact I|]. split; [apply Hf|apply (IH (S i) Hf)].
Qed.

Lemma loopProgress_nonneg (total index : nat) : 0 <= loopProgress total index.
Proof.
  unfold loopProgress, Qdiv.
  apply Qmult_le_0_compat; [|lra].
  apply Qmult_le_0_compat.
  - change 0 with (inject_Z 0). rewrite <- Zle_Qle. lia.
  - apply Qinv_le_0_compat. change 0 with (inject_Z 0). rewrite <- Zle_Qle. lia.
Qed.

Lemma loopProgress_step (total index : nat) :
  loopProgress total index <= loopProgress total (S index).
Proof.
  unfold loopProgress, Qdiv.
  apply Qmult_le_compat_r; [|lra].
  apply Qmult_le_compat_r.
  - rewrite <- Zle_Qle. lia.
  - apply Qinv_le_0_compat. change 0 with (inject_Z 0). rewrite <- Zle_Qle. lia.
Qed.

Lemma loopProgress_below_80 (total index : nat) :
  (index <= total)%nat -> loopProgress total index <= 80.
Proof.
  intros Hle. unfold loopProgress.
  destruct total as [|total].
  - replace index with 0%nat by lia. vm_compute. discriminate.
  - assert (inject_Z (Z.of_nat index) / inject_Z (Z.of_nat (S total)) <= 1) as H.
    { apply Qle_shift_div_r.
      - change 0 with (inject_Z 0). rewrite <- Zlt_Qlt. lia.
      - rewrite Qmult_1_l. rewrite <- Zle_Qle. lia. }
    lra.
Qed.

Lemma progressValues_band (l : list (option Q)) :
  progressValues
    (map (fun percent => Progress (Math_min (70 + num_or percent 0 * (2 # 10)) 90)) l)
  = map encoderBand l.
Proof. induction l as [|p l IH]; cbn; [reflexivity|now rewrite IH]. Qed.

Lemma encoderBand_at_most_90 (percent : option Q) : encoderBand percent <= 90.
Proof. apply Q.le_min_r. Qed.

Lemma encoderBand_at_least_70 (percent : option Q) :
  0 <= num_or percent 0 -> 70 <= encoderBand percent.
Proof. intros H. apply Q.min_glb; lra. Qed.

Lemma encoderBand_monotone (p q : option Q) :
  num_or p 0 <= num_or q 0 -> encoderBand p <= encoderBand q.
Proof. intros H. apply Q.min_le_compat_r. lra. Qed.

Lemma encoderBand_sorted (l : list (option Q)) :
  nondecreasing (map (fun p => num_or p 0) l) ->
  Forall (fun p => 0 <= num_or p 0) l ->
  nondecreasing (70 :: map encoderBand l).
Proof.
  intros Hs Hp.
  assert (nondecreasing (map encoderBand l)) as Hb.
  { clear Hp. induction l as [|p l IH]; [exact I|].
    destruct l as [|q l]; [exact I|].
    destruct Hs as [Hpq Hs]. split; [now apply encoderBand_monotone|].
    apply IH. exact Hs. }
  destruct l as [|p l]; [exact I|]. split; [|exact Hb].
  inversion Hp; subst. now apply encoderBand_at_least_70.
Qed.

End Monotone.

Section VoiceProgress.

Variable env : Env.
Variable id : string.
Variable segs : list Segment.
Variable w : world.

Let run := generateAudio env id segs Queue.job_progress w.

(** The loop reports for a prefix of the indices; 90 and 100 follow only
    when the loop has visited every segment. *)
Lemma generateAudio_progress_shape :
  exists (k : nat) (tail : list Q),
    (k <= length segs)%nat
    /\ progressValues (trace run)
       = (map (loopProgress (length segs)) (seq 0 k) ++ tail)%list
    /\ (tail = [] \/ tail = [90%Q] \/ tail = [90%Q; 100%Q]).
Proof.
  subst run. unfold generateAudio, findById, save.
  unfold tryCatch, bind, await, gets, emit, throw, ret, modify.
  destruct (rejects env AtFindById) eqn:?; cbn;
    [exists 0%nat, []; repeat split; auto; lia|].
  destruct (db w !! id) as [recording|] eqn:Hr; cbn;
    [|exists 0%nat, []; repeat split; auto; lia].
  pose proof (synthesizeLoop_run env id (length segs) segs 0 [] [] w) as Hloop.
  cbv zeta in Hloop.
  destruct (synthesizeLoop env id _ (length segs) 0 segs [] [] w) as [[o w2] t2].
  cbn in Hloop. destruct Hloop as [-> Hloop].
  destruct o as [[vs us]|e|]; cbn; [| |contradiction].
  - destruct Hloop as (_ & _ & ->).
    pose proof (progressValues_iterations id (length segs) segs 0) as Hp.
    cbn in Hp.
    destruct (rejects env AtSave); cbn.
    + exists (length segs), [90%Q]. split; [lia|]. split; [|auto].
      rewrite !progressValues_app, Hp. cbn. now rewrite app_nil_r.
    + exists (length segs), [90%Q; 100%Q]. split; [lia|]. split; [|auto].
      rewrite !progressValues_app, Hp. reflexivity.
  - destruct Hloop as (k & Hk & _ & Hprog). exists (S k), [].
    split; [lia|]. split; [|auto].
    now rewrite progressValues_app, Hprog.
Qed.

End VoiceProgress.

(** X1: on every path of an attempt, successful or not, the values that
    [generateAudio] itself passes to its progress callback never go down
    and lie between 0 and 100. *)
Theorem generateAudio_progress_monotone (env : Env) (id : string)
    (segs : list Segment) (w : world) :
  let reported :=
    progressValues (trace (generateAudio env id segs Queue.job_progress w)) in
  nondecreasing reported
  /\ Forall (fun p => 0 <= p /\ p <= 100)%Q reported.
Proof.
  cbv zeta.
  destruct (generateAudio_progress_shape env id segs w)
    as (k & tail & Hk & -> & Htail).
  assert (Forall (fun a => a <= 80)%Q (map (loopProgress (length segs)) (seq 0 k)))
    as Hlow.
  { apply List.Forall_forall. intros p Hp. apply in_map_iff in Hp.
    destruct Hp as (j & <- & Hj). apply in_seq in Hj.
    apply loopProgress_below_80. lia. }
  split.
  - apply (nondecreasing_app_bound 80).
    + apply nondecreasing_map_seq. intros j. apply loopProgress_step.
    + destruct Htail as [-> | [-> | ->]]; cbn; auto. split; [lra|exact I].
    + exact Hlow.
    + destruct Htail as [-> | [-> | ->]]; repeat constructor; lra.
  - apply List.Forall_app. split.
    + apply List.Forall_forall. intros p Hp. split.
      * apply in_map_iff in Hp. destruct Hp as (j & <- & _).
        apply loopProgress_nonneg.
      * rewrite List.Forall_forall in Hlow. specialize (Hlow p Hp). lra.
    + destruct Htail as [-> | [-> | ->]]; repeat constructor; lra.
Qed.

(** The values an export job has reported when its attempt ends form one
    of six sequences. *)
Lemma export_progress_shape (env : Env) (data : Queue.ExportVideoData) (w : world) :
  In (progressValues (trace (Queue.exportVideoHandler env data w)))
    (exportReports env).
Proof.
  unfold exportReports. cbv zeta. unfold_steps.
  destruct (rejects env AtFindById) eqn:?; cbn; [auto|].
  destruct (db w !! Queue.evRecordingId data) as [recording|] eqn:Hr; cbn;
    [|auto].
  destruct (subtitles recording); crunch env;
    rewrite ?progressValues_app, ?progressValues_band; cbn;
    rewrite ?app_nil_r; auto 10.
Qed.



(** X3: no export job ever reports more than 100, and when the encoder's
    percent values (undefined counting as 0) are not negative and never go
    down, the values reported by the job never go down either, on every
    path of the attempt. *)
Theorem export_progress_monotone (env : Env) (data : Queue.ExportVideoData)
    (w : world) :
  let reported := progressValues (trace (Queue.exportVideoHandler env data w)) in
  Forall (fun p => p <= 100)%Q reported
  /\ (nondecreasing (map (fun p => num_or p 0) (encoderPercent env)) ->
      Forall (fun p => 0 <= num_or p 0)%Q (encoderPercent env) ->
      nondecreasing reported).
Proof.
  cbv zeta.
  pose proof (export_progress_shape env data w) as Hshape.
  unfold exportReports in Hshape. cbv zeta in Hshape.
  set (band := map encoderBand (encoderPercent env)) in *.
  assert (Forall (fun p => p <= 90)%Q band) as H90.
  { apply List.Forall_forall. intros p Hp. apply in_map_iff in Hp.
    destruct Hp as (x & <- & _). apply encoderBand_at_most_90. }
  assert (Forall (fun p => p <= 100)%Q band) as H100.
  { eapply List.Forall_impl; [|exact H90]. cbn. intros; lra. }
  split.
  - destruct Hshape as [<-|[<-|[<-|[<-|[<-|[<-|[]]]]]]];
      repeat first [ exact H100 | apply List.Forall_app; split
                   | constructor; [lra|] | constructor ].
  - intros Hs Hp. pose proof (encoderBand_sorted _ Hs Hp) as Hband.
    fold band in Hband.
    assert (nondecreasing (10 :: 10 :: 30 :: 50 :: 70 :: band)%Q) as Hbase
      by (cbn; repeat (split; [lra|]); exact Hband).
    assert (Forall (fun p => p <= 90)%Q (10 :: 10 :: 30 :: 50 :: 70 :: band)%Q)
      as Hbase90 by (repeat (constructor; [lra|]); exact H90).
    destruct Hshape as [<-|[<-|[<-|[<-|[<-|[<-|[]]]]]]].
    + exact I.
    + cbn. split; [lra|exact I].
    + cbn. repeat (split; [lra|]). exact I.
    + exact Hbase.
    + apply (nondecreasing_app_bound 90); auto. exact I. repeat constructor; lra.
    + apply (nondecreasing_app_bound 90); auto. cbn; split; [lra|exact I].
      repeat constructor; lra.
Qed.

(** The theorem with an encoder that reports 25, 50 and 100 percent. *)
Lemma export_progress_monotone_witness :
  let env :=
    mkEnv "/tmp" (fun _ => None) (uuidv4 Sample.calm) (Date_now Sample.calm)
      (s3Location Sample.calm) [Some 25%Q; Some 50%Q; Some 100%Q] 4096
      (fractionToString Sample.calm) in
  nondecreasing
    (progressValues
       (trace (Queue.exportVideoHandler env
                 (Queue.mkExportVideoData "rec1" gif emptyOptions) Sample.store))).
Proof.
  intros env.
  apply (proj2 (export_progress_monotone env
                  (Queue.mkExportVideoData "rec1" gif emptyOptions) Sample.store)).
  - cbn. repeat split; vm_compute; discriminate.
  - repeat constructor; vm_compute; discriminate.
Defined.

(** ** What the operations do to the store and the disk *)

Lemma generateAudio_world (env : Env) (id : string)
    (segs : list Segment) (w : world) :
  let run := generateAudio env id segs Queue.job_progress w in
  disk (final run) = disk w
  /\ forall e, result run = Threw e -> final run = w.
Proof.
  cbv zeta. unfold generateAudio, findById, save.
  unfold tryCatch, bind, await, gets, emit, throw, ret, modify.
  destruct (rejects env AtFindById) eqn:?; cbn; [auto|].
  destruct (db w !! id) as [recording|] eqn:Hr; cbn; [|auto].
  pose proof (synthesizeLoop_run env id (length segs) segs 0 [] [] w) as Hloop.
  cbv zeta in Hloop.
  destruct (synthesizeLoop env id _ (length segs) 0 segs [] [] w) as [[o w2] t2].
  cbn in Hloop. destruct Hloop as [-> Hloop].
  destruct o as [[vs us]|e|]; cbn; [|auto|contradiction].
  destruct (rejects env AtSave); cbn; [auto|].
  split; [reflexivity|discriminate].
Qed.

(** A voice job settles: it returns or it throws. *)
Lemma generateAudio_settles (env : Env) (id : string)
    (segs : list Segment) (w : world) :
  result (generateAudio env id segs Queue.job_progress w) <> Pending.
Proof.
  unfold generateAudio, findById, save.
  unfold tryCatch, bind, await, gets, emit, throw, ret, modify.
  destruct (rejects env AtFindById) eqn:?; cbn; [discriminate|].
  destruct (db w !! id) as [recording|] eqn:Hr; cbn; [|discriminate].
  pose proof (synthesizeLoop_run env id (length segs) segs 0 [] [] w) as Hloop.
  cbv zeta in Hloop.
  destruct (synthesizeLoop env id _ (length segs) 0 segs [] [] w) as [[o w2] t2].
  cbn in Hloop. destruct Hloop as [-> Hloop].
  destruct o as [[vs us]|e|]; cbn; [|discriminate|contradiction].
  destruct (rejects env AtSave); cbn; discriminate.
Qed.

(** X4: a voice job that fails leaves the store and the disk exactly as
    they were: nothing is written before every segment has its clip; and
    no voice job, failed or not, touches the disk. *)
Theorem generateAudio_failure_writes_nothing (env : Env) (id : string)
    (segs : list Segment) (w : world) :
  let run := generateAudio env id segs Queue.job_progress w in
  disk (final run) = disk w
  /\ forall e, result run = Threw e -> final run = w.
Proof. exact (generateAudio_world env id segs w). Qed.

(** The theorem on a job whose second segment cannot be synthesized. *)
Lemma generateAudio_failure_writes_nothing_witness :
  let env := Sample.failing (AtSynthesize 1) (ErrorObj "429") Sample.calm in
  final (generateAudio env "rec1" [Sample.hello; Sample.narrated]
           Queue.job_progress Sample.store)
  = Sample.store.
Proof.
  intros env.
  exact (proj2 (generateAudio_failure_writes_nothing env "rec1"
                  [Sample.hello; Sample.narrated] Sample.store)
           (ErrorObj "429") eq_refl).
Defined.

(** X5: an export never writes to the entity store, on any path. *)
Theorem exportVideo_never_writes_store (env : Env) (id : string)
    (format : ExportFormat) (options : ExportOptions) (w : world) :
  db (final (exportVideo env id format options Queue.job_progress w)) = db w.
Proof.
  unfold_steps.
  destruct (rejects env AtFindById) eqn:?; cbn; [reflexivity|].
  destruct (db w !! id) as [recording|] eqn:Hr; cbn; [|reflexivity].
  destruct (subtitles recording); crunch env; reflexivity.
Qed.

(** X6: a transform never stores a result. Its only write to the store is
    the failure record on the Recording of its id, made when the attempt
    throws and the update is not rejected; an attempt that stays pending
    writes nothing. So the thumbnail URL, the audio URL and the progress of
    the Recording stay as they were, and its status stays as it was or
    becomes [failed]: no transform sets it to [completed]. *)
Theorem processVideo_writes_only_failure (env : Env) (id url : string)
    (ui : list UIEvent) (w : world) :
  let run := processVideo env id url ui Queue.job_progress w in
  (forall error,
      result run = Threw error ->
      db (final run)
      = match rejects env AtFindByIdAndUpdate with
        | None => alter (setFailed (errorMessageOf error)) id (db w)
        | Some _ => db w
        end)
  /\ (result run = Pending -> db (final run) = db w)
  /\ (forall after,
         db (final run) !! id = Some after ->
         exists before,
           db w !! id = Some before
           /\ thumbnailUrl after = thumbnailUrl before
           /\ audioUrl after = audioUrl before
           /\ processingProgress after = processingProgress before
           /\ (processingStatus after = processingStatus before
               \/ processingStatus after = failed)).
Proof.
  cbv zeta.
  assert (forall error,
             result (processVideo env id url ui Queue.job_progress w) = Threw error ->
             db (final (processVideo env id url ui Queue.job_progress w))
             = match rejects env AtFindByIdAndUpdate with
               | None => alter (setFailed (errorMessageOf error)) id (db w)
               | Some _ => db w
               end) as Hthrown.
  { intros error Hres.
    apply (processVideo_catches env id url ui w error).
    now apply processVideo_rethrows. }
  assert (result (processVideo env id url ui Queue.job_progress w) = Pending ->
          db (final (processVideo env id url ui Queue.job_progress w)) = db w)
    as Hpending.
  { intros Hres. apply processVideo_quiet_store. intros error. congruence. }
  split; [exact Hthrown|]. split; [exact Hpending|].
  intros after Hafter.
  destruct (result (processVideo env id url ui Queue.job_progress w))
    as [a|error|] eqn:Hres.
  - exfalso. exact (processVideo_never_returns env id url ui w a Hres).
  - rewrite (Hthrown error eq_refl) in Hafter.
    destruct (rejects env AtFindByIdAndUpdate).
    + exists after. repeat split; auto.
    + rewrite lookup_alter_eq in Hafter.
      destruct (db w !! id) as [before|]; [|discriminate Hafter].
      injection Hafter as <-. exists before. cbn. repeat split; auto.
  - rewrite (Hpending eq_refl) in Hafter. exists after. repeat split; auto.
Qed.

(** The sample Recording after an attempt in which nothing rejects: it is
    still being processed. *)
Lemma processVideo_writes_only_failure_witness :
  let run :=
    processVideo Sample.calm "rec1" "https://cdn/raw.mp4" [] Queue.job_progress
      Sample.store in
  result run = Pending /\ db (final run) = db Sample.store.
Proof.
  intros run.
  assert (result run = Pending) as Hres by (vm_compute; reflexivity).
  split; [exact Hres|].
  exact (proj1 (proj2 (processVideo_writes_only_failure Sample.calm "rec1"
                         "https://cdn/raw.mp4" [] Sample.store)) Hres).
Defined.

(** X7: a transform or a voice job, whatever happens to it, leaves every
    Recording other than its own as it was. *)
Theorem jobs_touch_only_their_recording (env : Env) (id other : string)
    (w : world) :
  other <> id ->
  (forall url ui,
      db (final (processVideo env id url ui Queue.job_progress w)) !! other
      = db w !! other)
  /\ (forall segs,
         db (final (generateAudio env id segs Queue.job_progress w)) !! other
         = db w !! other).
Proof.
  intros Hne. split.
  - intros url ui. unfold_steps.
    destruct (rejects env AtFindById) eqn:?.
    + crunch env; rewrite ?lookup_alter_ne by congruence; reflexivity.
    + cbn. destruct (db w !! id) eqn:Hr; cbn;
        crunch env;
        rewrite ?lookup_alter_ne, ?lookup_insert_ne by congruence; reflexivity.
  - intros segs.
    destruct (result (generateAudio env id segs Queue.job_progress w))
      as [a|e|] eqn:Hres.
    + destruct (generateAudio_success env id segs w a Hres)
        as (_ & recording & _ & ->).
      now rewrite lookup_insert_ne by congruence.
    + now rewrite (proj2 (generateAudio_world env id segs w) e Hres).
    + exfalso. exact (generateAudio_settles env id segs w Hres).
Qed.

(** The theorem on two Recordings, one of them being transformed. *)
Lemma jobs_touch_only_their_recording_witness :
  let w := mkWorld {[ "rec1" := Sample.demo; "rec2" := Sample.demo ]} ∅ in
  db (final (processVideo Sample.calm "rec1" "https://cdn/raw.mp4" []
               Queue.job_progress w)) !! "rec2"
  = db w !! "rec2".
Proof.
  intros w.
  assert ("rec2" <> "rec1") as Hne by discriminate.
  exact (proj1 (jobs_touch_only_their_recording Sample.calm "rec1" "rec2" w Hne)
           "https://cdn/raw.mp4" []).
Defined.

(** ** Errors of the transform *)

(** X8: the error a failed transform rethrows is [Recording not found],
    or [Failed to upload file to S3] whatever made an upload fail, or the
    value one of its other awaited calls was rejected with; a rejected
    deletion of a temporary file never surfaces. *)
Theorem processVideo_error_provenance (env : Env) (id url : string)
    (ui : list UIEvent) (w : world) (error : thrown) :
  result (processVideo env id url ui Queue.job_progress w) = Threw error ->
  error = ErrorObj "Recording not found"
  \/ error = ErrorObj "Failed to upload file to S3"
  \/ exists s, In s transformAwaits /\ rejects env s = Some error.
Proof.
  unfold transformAwaits. unfold_steps.
  destruct (rejects env AtFindById) eqn:?.
  - crunch env; intros [= <-]; right; right; exists AtFindById; cbn; auto.
  - cbn. destruct (db w !! id) eqn:Hr; cbn.
    + crunch env; try (intros; discriminate); intros [= <-];
        first [ right; left; reflexivity
              | right; right; eexists; split; [|eassumption]; cbn; tauto ].
    + crunch env; intros [= <-]; left; reflexivity.
Qed.

(** The theorem when S3 refuses the thumbnail with [AccessDenied]: the
    cause is replaced. *)
Lemma processVideo_error_provenance_witness :
  let env := Sample.failing AtUploadThumbnail (ErrorObj "AccessDenied") Sample.calm in
  result (processVideo env "rec1" "https://cdn/raw.mp4" [] Queue.job_progress
            Sample.store)
  = Threw (ErrorObj "Failed to upload file to S3")
  /\ (ErrorObj "Failed to upload file to S3" = ErrorObj "Recording not found"
      \/ ErrorObj "Failed to upload file to S3" = ErrorObj "Failed to upload file to S3"
      \/ exists s, In s transformAwaits
                   /\ rejects env s = Some (ErrorObj "Failed to upload file to S3")).
Proof.
  intros env. split; [reflexivity|].
  exact (processVideo_error_provenance env "rec1" "https://cdn/raw.mp4" []
           Sample.store (ErrorObj "Failed to upload file to S3") eq_refl).
Defined.

(** ** Encode profiles *)

Lemma export_profile (env : Env) (id : string) (format : ExportFormat)
    (options : ExportOptions) (w : world) (c : command) :
  In c (encoded (trace (exportVideo env id format options Queue.job_progress w))) ->
  match format with
  | mp4 => In (VideoCodec "libx264") c /\ In (AudioCodec "aac") c
  | gif => In (VideoCodec "gif") c /\ forall codec, ~ In (AudioCodec codec) c
  | webm => In (VideoCodec "libvpx-vp9") c /\ In (AudioCodec "libvorbis") c
  end
  /\ In (Size (str_or (resolution options)
                 (match format with gif => "800x600" | _ => "1920x1080" end))) c
  /\ In (Fps (num_or (frameRate options)
                (match format with gif => 15 | _ => 30 end))) c.
Proof.
  intros Hc.
  destruct (db w !! id) as [recording|] eqn:Hr.
  - rewrite (exportVideo_encoded env id format options w recording Hr c Hc).
    unfold builtCommand, configureOutput.
    set (pre := applyVisualEffects env recording _).
    destruct format; rewrite ?in_app_iff; cbn; repeat split; auto 10.
    intros codec. rewrite !in_app_iff. cbn.
    assert (~ In (AudioCodec codec) pre) as Hpre.
    { subst pre. unfold applyVisualEffects.
      destruct (visualEffects recording); [cbn; intuition discriminate|].
      destruct (forEachEffect _ _ _ _); cbn; rewrite ?in_app_iff; cbn;
        intuition discriminate. }
    destruct (subtitles recording); cbn; intuition discriminate.
  - exfalso. revert Hc. unfold_steps.
    destruct (rejects env AtFindById); cbn; rewrite ?Hr; cbn; tauto.
Qed.

(** X9: every command that an export hands to the encoder carries the
    codecs of its format (libx264 and aac for mp4, libvpx-vp9 and
    libvorbis for webm, gif and no audio codec at all for gif) whatever
    the options say, and the size and frame rate of the options or else
    the defaults of the format: 1920x1080 at 30, and 800x600 at 15 for
    gif. *)
Theorem export_encode_profile (env : Env) (id : string) (format : ExportFormat)
    (options : ExportOptions) (w : world) (c : command) :
  In c (encoded (trace (exportVideo env id format options Queue.job_progress w))) ->
  match format with
  | mp4 => In (VideoCodec "libx264") c /\ In (AudioCodec "aac") c
  | gif => In (VideoCodec "gif") c /\ forall codec, ~ In (AudioCodec codec) c
  | webm => In (VideoCodec "libvpx-vp9") c /\ In (AudioCodec "libvorbis") c
  end
  /\ In (Size (str_or (resolution options)
                 (match format with gif => "800x600" | _ => "1920x1080" end))) c
  /\ In (Fps (num_or (frameRate options)
                (match format with gif => 15 | _ => 30 end))) c.
Proof. exact (export_profile env id format options w c). Qed.

(** The theorem on a gif export of the sample Recording that asks for
    audio. *)
Lemma export_encode_profile_witness :
  let options :=
    mkExportOptions None None None None (Some true) None None None in
  let c := [Input "/tmp/v.mp4"; VideoCodec "gif"; Size "800x600"; Fps 15;
            Output "/tmp/o.gif"] in
  In c (encoded (trace (exportVideo Sample.calm "rec1" gif options
                          Queue.job_progress Sample.store)))
  /\ forall codec, ~ In (AudioCodec codec) c.
Proof.
  intros options c.
  assert (In c (encoded (trace (exportVideo Sample.calm "rec1" gif options
                                  Queue.job_progress Sample.store)))) as Hc
    by (left; reflexivity).
  split; [exact Hc|].
  exact (proj2 (proj1 (export_encode_profile Sample.calm "rec1" gif options
                         Sample.store c Hc))).
Defined.

(** X10: a frame rate of 0 and an empty resolution string count as
    missing: the export runs exactly as if the options had neither. *)
Theorem export_falsy_options (env : Env) (id : string) (format : ExportFormat)
    (zero : Q) (quality' : option string) (subs audio : option bool)
    (cs ce : option Q) (wm : option Watermark) (w : world) :
  (zero == 0)%Q ->
  exportVideo env id format
    (mkExportOptions (Some EmptyString) (Some zero) quality' subs audio cs ce wm)
    Queue.job_progress w
  = exportVideo env id format
      (mkExportOptions None None quality' subs audio cs ce wm)
      Queue.job_progress w.
Proof.
  intros Hz. unfold exportVideo, configureOutput. cbn.
  apply Qeq_bool_iff in Hz. rewrite Hz. reflexivity.
Qed.

Lemma export_falsy_options_witness :
  exportVideo Sample.calm "rec1" gif
    (mkExportOptions (Some EmptyString) (Some (0 # 7)) None None None None None None)
    Queue.job_progress Sample.store
  = exportVideo Sample.calm "rec1" gif emptyOptions Queue.job_progress Sample.store.
Proof.
  assert (0 # 7 == 0)%Q as Hz by reflexivity.
  exact (export_falsy_options Sample.calm "rec1" gif (0 # 7) None None None None
           None None Sample.store Hz).
Defined.

(** ** The subtitle file *)

Section Paths.

Lemma lastChar_app (s t : string) :
  t <> EmptyString -> lastChar (s ++ t) = lastChar t.
Proof.
  intros Ht. induction s as [|c s IH]; [reflexivity|].
  change (lastChar (String c (s ++ t)) = lastChar t).
  cbn [lastChar]. rewrite IH. destruct t as [|d t]; [congruence|].
  cbn. now destruct (lastChar t).
Qed.

Lemma lastChar_tempPath (env : Env) (f : tempFile) (ext : string) :
  ext <> EmptyString -> lastChar (tempPath env f ext) = lastChar ext.
Proof.
  intros Hext. unfold tempPath, path_join.
  rewrite lastChar_app by discriminate.
  rewrite (lastChar_app "/") by (destruct (uuidv4 env f); discriminate).
  rewrite lastChar_app by discriminate.
  now rewrite (lastChar_app ".").
Qed.

(** The subtitle file never has the name of the source or of the output. *)
Lemma subtitlePath_distinct (env : Env) (f : tempFile) (format : ExportFormat) :
  tempPath env TmpSubtitles "srt" <> tempPath env f "mp4"
  /\ tempPath env TmpSubtitles "srt" <> tempPath env f (formatName format).
Proof.
  split; intros H; apply (f_equal lastChar) in H;
    rewrite !lastChar_tempPath in H by (try destruct format; discriminate);
    destruct format; discriminate.
Qed.

End Paths.

(** X11: an export of a Recording with subtitles that returns has left its
    subtitle file on the disk and has never tried to delete it, whatever
    names the temporary files were given. *)
Theorem exportVideo_leaves_subtitle_file (env : Env) (id : string)
    (format : ExportFormat) (options : ExportOptions) (w : world)
    (recording : Recording) (a : ExportResult) :
  let run := exportVideo env id format options Queue.job_progress w in
  db w !! id = Some recording ->
  subtitles recording <> [] ->
  result run = Returned a ->
  tempPath env TmpSubtitles "srt" ∈ disk (final run)
  /\ ~ In (tempPath env TmpSubtitles "srt") (unlinked (trace run)).
Proof.
  cbv zeta. intros Hr Hsubs Hok.
  destruct (subtitlePath_distinct env TmpVideo format) as [Hv _].
  destruct (subtitlePath_distinct env TmpOutput format) as [_ Ho].
  split.
  - revert Hok. unfold_steps.
    destruct (rejects env AtFindById) eqn:?; cbn; [discriminate|].
    rewrite Hr. cbn.
    destruct (subtitles recording) as [|sub subs]; [congruence|].
    crunch env; try discriminate; intros _;
      unfold removeFile, createFile; cbn;
      rewrite ?elem_of_difference, ?elem_of_union, ?elem_of_singleton;
      intuition congruence.
  - pose proof (exportVideo_unlinked env id format options w) as Hun.
    cbv zeta in Hun. rewrite Hok in Hun. rewrite Hun. cbn. intuition congruence.
Qed.

(** The theorem on a Recording with one cue. *)
Lemma exportVideo_leaves_subtitle_file_witness :
  let recording :=
    mkRecording "https://cdn/raw.mp4" None None [] []
      [mkSubtitle "Hi" (Finite 0) (Finite 2)] completed 100 None in
  let run :=
    exportVideo Sample.calm "rec1" mp4 emptyOptions Queue.job_progress
      (mkWorld {[ "rec1" := recording ]} ∅) in
  "/tmp/s.srt" ∈ disk (final run) /\ ~ In "/tmp/s.srt" (unlinked (trace run)).
Proof.
  intros recording run.
  assert (subtitles recording <> []) as Hsubs by discriminate.
  exact (exportVideo_leaves_subtitle_file Sample.calm "rec1" mp4 emptyOptions
           (mkWorld {[ "rec1" := recording ]} ∅) recording
           (mkExportResult "rec1" mp4
              "https://bucket/exports/rec1/1700000000000.mp4" 4096 completed)
           eq_refl Hsubs eq_refl).
Defined.

(** ** The result of a voice job *)

Lemma imap_relabel (env : Env) (id : string) (l : list Segment) :
  forall (pre : list string),
    imap (fun index seg =>
            withAudioUrl
              ((pre ++ map (narratedBy env id) l)%list !! (length pre + index)%nat)
              seg)
      (map (fun seg => withAudioUrl (Some (narratedBy env id seg)) seg) l)
    = map (fun seg => withAudioUrl (Some (narratedBy env id seg)) seg) l.
Proof.
  induction l as [|seg l IH]; intros pre; [reflexivity|].
  cbn [map imap]. f_equal.
  - rewrite Nat.add_0_r, lookup_app_r by lia.
    rewrite Nat.sub_diag. reflexivity.
  - specialize (IH (pre ++ [narratedBy env id seg])%list).
    rewrite <- app_assoc in IH. cbn in IH. rewrite <- IH at 2.
    apply imap_ext. intros i s _. cbn. rewrite List.length_app. cbn.
    do 2 f_equal. lia.
Qed.

(** X12: a voice job that returns gives back the segments it was given, in
    the same order and number, each with the URL of its own clip, and has
    stored the same segments on the Recording. *)
Theorem generateAudio_result (env : Env) (id : string) (segs : list Segment)
    (w : world) (a : AudioResult) :
  let run := generateAudio env id segs Queue.job_progress w in
  let narrated :=
    map (fun seg => withAudioUrl (Some (narratedBy env id seg)) seg) segs in
  result run = Returned a ->
  a = mkAudioResult id narrated completed
  /\ Forall (fun seg => lacksClip seg = false) (audioSegments a)
  /\ exists recording,
       db w !! id = Some recording
       /\ db (final run) !! id = Some (setSegments narrated recording).
Proof.
  cbv zeta. intros Hok.
  assert (a = mkAudioResult id
                (map (fun seg => withAudioUrl (Some (narratedBy env id seg)) seg) segs)
                completed) as ->.
  { revert Hok. unfold generateAudio, findById, save.
    unfold tryCatch, bind, await, gets, emit, throw, ret, modify.
    destruct (rejects env AtFindById) eqn:?; cbn; [discriminate|].
    destruct (db w !! id) as [recording|] eqn:Hr; cbn; [|discriminate].
    pose proof (synthesizeLoop_run env id (length segs) segs 0 [] [] w) as Hloop.
    cbv zeta in Hloop.
    destruct (synthesizeLoop env id _ (length segs) 0 segs [] [] w) as [[o w2] t2].
    cbn in Hloop. destruct Hloop as [-> Hloop].
    destruct o as [[vs us]|e|]; cbn; [|discriminate..].
    destruct Hloop as (-> & -> & _).
    destruct (rejects env AtSave); cbn; [discriminate|].
    intros [= <-]. f_equal.
    exact (imap_relabel env id segs []). }
  split; [reflexivity|]. split.
  - cbn. apply List.Forall_forall. intros seg Hin. apply in_map_iff in Hin.
    destruct Hin as (s & <- & _). reflexivity.
  - destruct (generateAudio_success env id segs w _ Hok) as (_ & recording & Hr & ->).
    exists recording. split; [exact Hr|]. apply lookup_insert_eq.
Qed.

(** The theorem on two segments. *)
Lemma generateAudio_result_witness :
  let run :=
    generateAudio Sample.calm "rec1" [Sample.hello; Sample.narrated]
      Queue.job_progress Sample.store in
  exists a,
    result run = Returned a
    /\ map segmentAudioUrl (audioSegments a)
       = [Some "https://bucket/segments/rec1/s1.mp3";
          Some "https://bucket/segments/rec1/s2.mp3"].
Proof.
  intros run.
  assert (exists a, result run = Returned a) as [a Ha] by (eexists; reflexivity).
  exists a. split; [exact Ha|].
  rewrite (proj1 (generateAudio_result Sample.calm "rec1"
                    [Sample.hello; Sample.narrated] Sample.store a Ha)).
  reflexivity.
Defined.

(** ** The workers around the engine *)

Section Workers.

Variable env : Env.
Variable w : world.

Lemma processVideoHandler_run (d : Queue.ProcessVideoData) :
  let run := processVideo env (Queue.pvRecordingId d) (Queue.pvVideoUrl d)
               (Queue.pvUiEvents d) Queue.job_progress w in
  let job := Queue.processVideoHandler env d w in
  result job = result run /\ final job = final run
  /\ trace job
     = (LogInfo "Processing video for recording" :: Progress 10
          :: trace run ++ closing "Video processing" (result run))%list.
Proof.
  cbv zeta.
  unfold Queue.processVideoHandler, tryCatch, bind, emit, Queue.job_progress,
    ret, throw, closing.
  cbn -[processVideo].
  destruct (processVideo env _ _ _ _ w) as [[[a|err|] w'] t];
    cbn; rewrite ?app_nil_r; repeat split; reflexivity.
Qed.

Lemma generateAudioHandler_run (d : Queue.GenerateAudioData) :
  let run := generateAudio env (Queue.gaRecordingId d) (Queue.gaSegments d)
               Queue.job_progress w in
  let job := Queue.generateAudioHandler env d w in
  result job = result run /\ final job = final run
  /\ trace job
     = (LogInfo "Generating audio for recording" :: Progress 10
          :: trace run ++ closing "Audio generation" (result run))%list.
Proof.
  cbv zeta.
  unfold Queue.generateAudioHandler, tryCatch, bind, emit, Queue.job_progress,
    ret, throw, closing.
  cbn -[generateAudio].
  destruct (generateAudio env _ _ _ w) as [[[a|err|] w'] t];
    cbn; rewrite ?app_nil_r; repeat split; reflexivity.
Qed.

Lemma exportVideoHandler_run (d : Queue.ExportVideoData) :
  let run := exportVideo env (Queue.evRecordingId d) (Queue.evFormat d)
               (Queue.evOptions d) Queue.job_progress w in
  let job := Queue.exportVideoHandler env d w in
  result job = result run /\ final job = final run
  /\ trace job
     = (LogInfo "Exporting video for recording" :: Progress 10
          :: trace run ++ closing "Video export" (result run))%list.
Proof.
  cbv zeta.
  unfold Queue.exportVideoHandler, tryCatch, bind, emit, Queue.job_progress,
    ret, throw, closing.
  cbn -[exportVideo].
  destruct (exportVideo env _ _ _ _ w) as [[[a|err|] w'] t];
    cbn; rewrite ?app_nil_r; repeat split; reflexivity.
Qed.

Lemma readers_closing {A} (lane : string) (o : outcome A) (t : list event) :
  progressValues (t ++ closing lane o) = progressValues t
  /\ encoded (t ++ closing lane o) = encoded t
  /\ unlinked (t ++ closing lane o) = unlinked t
  /\ synthesized (t ++ closing lane o) = synthesized t.
Proof.
  rewrite progressValues_app, encoded_app, unlinked_app, synthesized_app.
  destruct o; cbn; rewrite !app_nil_r; repeat split; reflexivity.
Qed.

End Workers.

(** X13: a worker is transparent: the job returns what its engine function
    returns and fails with the very error the engine function threw, the
    store and the disk end as the engine function left them, and the
    worker itself reports the value 10 once, first, and runs no encoder
    command, no synthesis and no deletion of its own. *)
Theorem workers_are_transparent (env : Env) (w : world) :
  (forall d : Queue.ProcessVideoData,
      let run := processVideo env (Queue.pvRecordingId d) (Queue.pvVideoUrl d)
                   (Queue.pvUiEvents d) Queue.job_progress w in
      let job := Queue.processVideoHandler env d w in
      result job = result run /\ final job = final run
      /\ progressValues (trace job) = (10 :: progressValues (trace run))%Q
      /\ unlinked (trace job) = unlinked (trace run))
  /\ (forall d : Queue.GenerateAudioData,
         let run := generateAudio env (Queue.gaRecordingId d) (Queue.gaSegments d)
                      Queue.job_progress w in
         let job := Queue.generateAudioHandler env d w in
         result job = result run /\ final job = final run
         /\ progressValues (trace job) = (10 :: progressValues (trace run))%Q
         /\ synthesized (trace job) = synthesized (trace run))
  /\ (forall d : Queue.ExportVideoData,
         let run := exportVideo env (Queue.evRecordingId d) (Queue.evFormat d)
                      (Queue.evOptions d) Queue.job_progress w in
         let job := Queue.exportVideoHandler env d w in
         result job = result run /\ final job = final run
         /\ progressValues (trace job) = (10 :: progressValues (trace run))%Q
         /\ encoded (trace job) = encoded (trace run)
         /\ unlinked (trace job) = unlinked (trace run)).
Proof.
  split; [|split]; intros d; cbv zeta.
  - destruct (processVideoHandler_run env w d) as (Hr & Hf & Ht).
    rewrite Hr, Hf, Ht. cbn [progressValues unlinked].
    destruct (readers_closing "Video processing"
                (result (processVideo env (Queue.pvRecordingId d)
                           (Queue.pvVideoUrl d) (Queue.pvUiEvents d)
                           Queue.job_progress w))
                (trace (processVideo env (Queue.pvRecordingId d)
                          (Queue.pvVideoUrl d) (Queue.pvUiEvents d)
                          Queue.job_progress w))) as (-> & _ & -> & _).
    repeat split; reflexivity.
  - destruct (generateAudioHandler_run env w d) as (Hr & Hf & Ht).
    rewrite Hr, Hf, Ht. cbn [progressValues synthesized].
    destruct (readers_closing "Audio generation"
                (result (generateAudio env (Queue.gaRecordingId d)
                           (Queue.gaSegments d) Queue.job_progress w))
                (trace (generateAudio env (Queue.gaRecordingId d)
                          (Queue.gaSegments d) Queue.job_progress w)))
      as (-> & _ & _ & ->).
    repeat split; reflexivity.
  - destruct (exportVideoHandler_run env w d) as (Hr & Hf & Ht).
    rewrite Hr, Hf, Ht. cbn [progressValues encoded unlinked].
    destruct (readers_closing "Video export"
                (result (exportVideo env (Queue.evRecordingId d)
                           (Queue.evFormat d) (Queue.evOptions d)
                           Queue.job_progress w))
                (trace (exportVideo env (Queue.evRecordingId d)
                          (Queue.evFormat d) (Queue.evOptions d)
                          Queue.job_progress w))) as (-> & -> & -> & _).
    repeat split; reflexivity.
Qed.

(** ** Object keys *)

Section Keys.

Import Storage.

Lemma split_nonempty (sep : ascii) (s : string) : split sep s <> [].
Proof.
  destruct s as [|c s]; cbn; [discriminate|].
  destruct (Ascii.eqb c sep); [discriminate|].
  destruct (split sep s); discriminate.
Qed.

Lemma split_slashFree_app (a rest : string) :
  slashFree a = true ->
  split "/" (a ++ String "/" rest) = a :: split "/" rest.
Proof.
  induction a as [|c a IH]; intros Ha; [reflexivity|].
  cbn in Ha. apply andb_prop in Ha. destruct Ha as [Hc Ha].
  change (split "/" (String c (a ++ String "/" rest)) = String c a :: split "/" rest).
  cbn [split]. apply negb_true_iff in Hc. rewrite Hc, (IH Ha). reflexivity.
Qed.

Lemma join_split (s : string) : join "/" (split "/" s) = s.
Proof.
  unfold join. induction s as [|c s IH]; [reflexivity|].
  cbn [split]. destruct (Ascii.eqb_spec c "/") as [->|Hc].
  - pose proof (split_nonempty "/" s) as Hne.
    destruct (split "/" s) as [|piece pieces]; [congruence|].
    cbn [String.concat] in *. rewrite IH. reflexivity.
  - destruct (split "/" s) as [|piece pieces] eqn:E;
      [exfalso; exact (split_nonempty _ _ E)|].
    cbn [String.concat] in *. destruct pieces; cbn; now rewrite <- IH.
Qed.

Lemma slashFree_app (a b : string) :
  slashFree (a ++ b) = slashFree a && slashFree b.
Proof.
  induction a as [|c a IH]; [reflexivity|].
  change (slashFree (String c (a ++ b)) = slashFree (String c a) && slashFree b).
  cbn [slashFree]. rewrite IH. apply andb_assoc.
Qed.

Lemma string_app_assoc (a b c : string) : (a ++ b) ++ c = a ++ b ++ c.
Proof.
  induction a as [|x a IH]; [reflexivity|].
  change (String x ((a ++ b) ++ c) = String x (a ++ b ++ c)). now rewrite IH.
Qed.

Lemma length_split (s : string) : length (split "/" s) = S (slashes s).
Proof.
  unfold slashes. induction s as [|c s IH]; [reflexivity|].
  cbn [split list_ascii_of_string List.filter].
  rewrite (Ascii.eqb_sym "/" c).
  destruct (Ascii.eqb c "/").
  - cbn. now rewrite IH.
  - pose proof (split_nonempty "/" s). destruct (split "/" s); [congruence|].
    cbn in *. exact IH.
Qed.

End Keys.

(** X14: whatever comes after the third ['/'] of a URL is its key: scheme and
    host are dropped, the rest is kept as it is. A URL with fewer than
    three ['/'] has the empty key, and the URL that [copyS3Object] builds
    for a key gives that key back when the bucket name has no ['/']. *)
Theorem keyOfUrl_after_third_slash :
  (forall scheme empty host key : string,
      Storage.slashFree scheme = true ->
      Storage.slashFree empty = true ->
      Storage.slashFree host = true ->
      Storage.keyOfUrl
        (scheme ++ String "/" (empty ++ String "/" (host ++ String "/" key)))
      = key)
  /\ (forall bucketName key : string,
         Storage.slashFree bucketName = true ->
         Storage.keyOfUrl (Storage.objectUrl bucketName key) = key)
  /\ (forall url : string,
         (Storage.slashes url < 3)%nat ->
         Storage.keyOfUrl url = EmptyString).
Proof.
  assert (forall scheme empty host key : string,
             Storage.slashFree scheme = true ->
             Storage.slashFree empty = true ->
             Storage.slashFree host = true ->
             Storage.keyOfUrl
               (scheme ++ String "/" (empty ++ String "/" (host ++ String "/" key)))
             = key) as Hgen.
  { intros scheme empty host key Hs He Hh. unfold Storage.keyOfUrl.
    rewrite !split_slashFree_app by assumption. cbn [drop].
    apply join_split. }
  split; [exact Hgen|]. split.
  - intros bucketName key Hb. unfold Storage.objectUrl.
    change ("https://" ++ bucketName ++ ".s3.amazonaws.com/" ++ key)
      with ("https:" ++ String "/" (EmptyString ++ String "/"
              (bucketName ++ ".s3.amazonaws.com" ++ String "/" key))).
    rewrite <- (string_app_assoc bucketName ".s3.amazonaws.com").
    apply Hgen; [reflexivity|reflexivity|].
    rewrite slashFree_app, Hb. reflexivity.
  - intros url Hfew. unfold Storage.keyOfUrl.
    pose proof (length_split url) as Hlen. unfold Storage.slashes in Hfew.
    unfold Storage.slashes in Hlen.
    destruct (Storage.split "/" url) as [|a [|b [|c [|d rest]]]]; cbn in *;
      try reflexivity; lia.
Qed.

(** The theorem on an object URL and on a path-style URL. *)
Lemma keyOfUrl_after_third_slash_witness :
  Storage.keyOfUrl "https://smartdemo-studio.s3.amazonaws.com/thumbnails/rec1/17.jpg"
  = "thumbnails/rec1/17.jpg"
  /\ Storage.keyOfUrl "https://s3.amazonaws.com/smartdemo-studio/audio/rec1/17.wav"
     = "smartdemo-studio/audio/rec1/17.wav".
Proof.
  split.
  - exact (proj1 (proj2 keyOfUrl_after_third_slash) "smartdemo-studio"
             "thumbnails/rec1/17.jpg" eq_refl).
  - exact (proj1 keyOfUrl_after_third_slash "https:" EmptyString "s3.amazonaws.com"
             "smartdemo-studio/audio/rec1/17.wav" eq_refl eq_refl eq_refl).
Defined.

(** ** Export time estimates *)

(** X15: for a duration that is not negative the estimate is not negative, it
    grows with the duration, and mp4 is estimated at most as long as webm,
    webm at most as long as gif; the gif estimate is the duration rounded
    up to whole seconds. *)
Theorem estimated_export_time (d1 d2 : Q) :
  (0 <= d1)%Q -> (d1 <= d2)%Q ->
  (forall format,
      (0 <= Server.getEstimatedExportTime format d1
         <= Server.getEstimatedExportTime format d2)%Z)
  /\ (Server.getEstimatedExportTime mp4 d1
      <= Server.getEstimatedExportTime webm d1
      <= Server.getEstimatedExportTime gif d1)%Z
  /\ Server.getEstimatedExportTime gif d1 = Qceiling d1.
Proof.
  intros H0 Hle. unfold Server.getEstimatedExportTime.
  split; [|split].
  - intros format.
    destruct format; (split;
      [ change 0%Z with (Qceiling 0); apply Qceiling_resp_le; lra
      | apply Qceiling_resp_le; lra ]).
  - split; apply Qceiling_resp_le; lra.
  - apply Qceiling_comp. field.
Qed.

Lemma estimated_export_time_witness :
  (Server.getEstimatedExportTime mp4 90 <= Server.getEstimatedExportTime webm 90
   <= Server.getEstimatedExportTime gif 90)%Z
  /\ Server.getEstimatedExportTime gif 90 = 90%Z.
Proof.
  assert (0 <= 90)%Q as H0 by (vm_compute; discriminate).
  assert (90 <= 120)%Q as H1 by (vm_compute; discriminate).
  destruct (estimated_export_time 90 120 H0 H1) as (_ & Horder & Hgif).
  split; [exact Horder|exact Hgif].
Defined.

(** ** The request layer *)

Ltac unfold_routes :=
  unfold Server.postExportVideo, Server.putScript, Server.deleteRecording,
    Server.postSubtitles;
  unfold Server.findPopulated, Server.populated, Server.saveDocument,
    Server.add, Server.deleteIfSet, Server.deleteFromS3;
  unfold Server.tryCatch, Server.bind, Server.await, Server.gets, Server.log,
    Server.throw, Server.ret, Server.modify.

Section Routes.

Import Server.

Variable sv : Services.
Variable s : state.

Lemma postExportVideo_run (req : ExportRequest) :
  let run := postExportVideo sv req s in
  exists response,
    reply run = Returned response
    /\ documents (after run) = documents s
    /\ projects (after run) = projects s
    /\ objects (after run) = objects s
    /\ ((status response <> 200%nat /\ jobs (after run) = jobs s)
        \/ (status response = 200%nat
            /\ exists value d p,
                 validateExportVideo (exportBody req) = inr value
                 /\ documents s !! valueRecordingId value = Some d
                 /\ projects s !! project d = Some p
                 /\ hasAccess p (exportUserId req) = true
                 /\ processingStatus (recording d) = completed
                 /\ jobs (after run)
                    = (jobs s
                       ++ [mkJob Queue.exportQueue "export-video"
                             (ExportVideo
                                (Queue.mkExportVideoData (valueRecordingId value)
                                   (valueFormat value)
                                   (orDefault (valueOptions value) emptyOptions))
                                (exportUserId req))])%list)).
Proof.
  cbv zeta. unfold_routes.
  destruct (validateExportVideo (exportBody req)) as [key|value] eqn:Hv;
    cbn; [eexists; repeat split; left; split; [discriminate|reflexivity]|].
  destruct (refuses sv FindRecording) eqn:?; cbn;
    [eexists; repeat split; left; split; [discriminate|reflexivity]|].
  destruct (documents s !! valueRecordingId value) as [d|] eqn:Hd; cbn;
    [|eexists; repeat split; left; split; [discriminate|reflexivity]].
  destruct (projects s !! project d) as [p|] eqn:Hp; cbn;
    [|eexists; repeat split; left; split; [discriminate|reflexivity]].
  destruct (hasAccess p (exportUserId req)) eqn:Ha; cbn;
    [|eexists; repeat split; left; split; [discriminate|reflexivity]].
  destruct (processingStatus (recording d)) eqn:Hst; cbn;
    try (eexists; repeat split; left; split; [discriminate|reflexivity]).
  destruct (refuses sv QueueAdd) eqn:?; cbn;
    [eexists; repeat split; left; split; [discriminate|reflexivity]|].
  eexists. repeat split. right. split; [reflexivity|].
  exists value, d, p. repeat split; assumption.
Qed.

Lemma oneOf_In (allowed : list string) (v : string) :
  oneOf allowed v = true -> In v allowed.
Proof.
  unfold oneOf. intros H. apply existsb_exists in H.
  destruct H as (x & Hx & Heq). apply String.eqb_eq in Heq. now subst.
Qed.

(** Options that pass validation have every defaulted key filled with a
    value of its list. *)
Lemma validateOptions_filled (raw : RawOptions) (o : ExportOptions) :
  validateOptions raw = inr o ->
  exists r f,
    resolution o = Some r /\ In r ["720p"; "1080p"; "4k"]
    /\ frameRate o = Some f /\ numberOneOf [15; 24; 30; 60]%Q f = true
    /\ quality o = Some (orDefault (rawQuality raw) "high")
    /\ includeSubtitles o = Some (orDefault (rawIncludeSubtitles raw) true)
    /\ includeAudio o = Some (orDefault (rawIncludeAudio raw) true).
Proof.
  unfold validateOptions, andThen, check.
  destruct (oneOf _ (orDefault (rawResolution raw) "1080p")) eqn:Hr; [|discriminate].
  destruct (numberOneOf _ (orDefault (rawFrameRate raw) 30%Q)) eqn:Hf; [|discriminate].
  destruct (oneOf _ (orDefault (rawQuality raw) "high")); [|discriminate].
  destruct (optionalMin 0 (rawStartTime raw)); [|discriminate].
  destruct (optionalMin 0 (rawEndTime raw)); [|discriminate].
  destruct (rawWatermark raw) as [rw|];
    [destruct (validateWatermark rw); [discriminate|]|];
    (destruct (noExtraKeys _ _); [discriminate|]);
    intros [= <-]; cbn; eexists _, _;
    (split; [reflexivity|]); (split; [exact (oneOf_In _ _ Hr)|]);
    (split; [reflexivity|]); (split; [exact Hf|]); repeat split.
Qed.

Lemma validateExportVideo_options (b : ExportBody) (value : ExportValue) :
  validateExportVideo b = inr value ->
  match bodyOptions b with
  | None => valueOptions value = None
  | Some raw => exists o, validateOptions raw = inr o /\ valueOptions value = Some o
  end.
Proof.
  unfold validateExportVideo, andThen.
  destruct (requiredString _ _); [discriminate|].
  destruct (bodyFormat b) as [f|]; [|discriminate].
  destruct (parseFormat f); [|discriminate].
  destruct (bodyOptions b) as [raw|].
  - destruct (validateOptions raw) as [|o]; [discriminate|].
    destruct (noExtraKeys _ _); [discriminate|].
    intros [= <-]. exists o. split; reflexivity.
  - destruct (noExtraKeys _ _); [discriminate|]. now intros [= <-].
Qed.

Lemma numberOneOf_nonzero (f : Q) :
  numberOneOf [15; 24; 30; 60]%Q f = true -> Qeq_bool f 0 = false.
Proof.
  unfold numberOneOf. cbn. rewrite !orb_true_iff. rewrite !Qeq_bool_iff.
  intros H. destruct (Qeq_bool f 0) eqn:E; [|reflexivity].
  apply Qeq_bool_iff in E. rewrite E in H.
  destruct H as [H|[H|[H|[H|H]]]]; discriminate.
Qed.

End Routes.

(** X16: the export route answers every request, changes nothing but the
    list of jobs, and submits a job, the one it answers 200 for, only when
    the body is valid, the Recording exists, the requester owns its
    project or collaborates on it, and the Recording is processed. *)
Theorem export_route_gate (sv : Server.Services) (req : Server.ExportRequest)
    (s : Server.state) :
  let run := Server.postExportVideo sv req s in
  exists response,
    Server.reply run = Returned response
    /\ Server.documents (Server.after run) = Server.documents s
    /\ Server.projects (Server.after run) = Server.projects s
    /\ Server.objects (Server.after run) = Server.objects s
    /\ ((Server.status response <> 200%nat
         /\ Server.jobs (Server.after run) = Server.jobs s)
        \/ (Server.status response = 200%nat
            /\ exists value d p,
                 Server.validateExportVideo (Server.exportBody req) = inr value
                 /\ Server.documents s !! Server.valueRecordingId value = Some d
                 /\ Server.projects s !! Server.project d = Some p
                 /\ Server.hasAccess p (Server.exportUserId req) = true
                 /\ processingStatus (Server.recording d) = completed
                 /\ Server.jobs (Server.after run)
                    = (Server.jobs s
                       ++ [Server.mkJob Queue.exportQueue "export-video"
                             (Server.ExportVideo
                                (Queue.mkExportVideoData
                                   (Server.valueRecordingId value)
                                   (Server.valueFormat value)
                                   (Server.orDefault (Server.valueOptions value)
                                      emptyOptions))
                                (Server.exportUserId req))])%list)).
Proof. exact (postExportVideo_run sv s req). Qed.

(** An export that asks for a size the command builder does not take
    throws before any command is handed to the encoder. *)
Lemma exportVideo_invalid_size (env : Env) (id : string) (format : ExportFormat)
    (options : ExportOptions) (w : world) :
  acceptsSize (sizeOf format options) = false ->
  let run := exportVideo env id format options Queue.job_progress w in
  encoded (trace run) = []
  /\ (forall a, result run <> Returned a)
  /\ (forall recording,
         db w !! id = Some recording ->
         rejects env AtFindById = None ->
         rejects env AtHttpGet = None ->
         rejects env AtPipe = None ->
         result run
         = Threw (ErrorObj ("Invalid size specified: " ++ sizeOf format options))
         /\ progressValues (trace run) = [10; 30; 50]%Q).
Proof.
  intros Hsize. cbv zeta. unfold_steps.
  destruct (rejects env AtFindById) eqn:?; cbn.
  { repeat split; intros; discriminate. }
  destruct (db w !! id) as [recording|] eqn:Hr; cbn.
  2:{ repeat split; intros; congruence. }
  crunch env; (split; [reflexivity|]); (split; [discriminate|]);
    intros recording' _ _ H2 H3; try discriminate; split; reflexivity.
Qed.

(** X17: from the request to the encoder. When the export route answers
    200 it has submitted one job. If the request carried options, the job
    asks for one of the labels 720p, 1080p and 4k as its size (a label is
    passed on as it is, the defaults of the engine never apply), the
    command builder takes none of them, and so a worker runs no command
    for that job: the job never returns, and once the Recording is fetched
    and the source downloaded it fails with [Invalid size specified]. If
    the request carried no options, every command a worker runs for the
    job has the size and the frame rate that are the defaults of the
    engine for the format. *)
Theorem export_request_to_command (sv : Server.Services)
    (req : Server.ExportRequest) (s : Server.state) (response : Server.Response) :
  let run := Server.postExportVideo sv req s in
  Server.reply run = Returned response ->
  Server.status response = 200%nat ->
  exists data userId,
    Server.jobs (Server.after run)
    = (Server.jobs s
       ++ [Server.mkJob Queue.exportQueue "export-video"
             (Server.ExportVideo data userId)])%list
    /\ match Server.bodyOptions (Server.exportBody req) with
       | Some _ =>
           exists r f,
             resolution (Queue.evOptions data) = Some r
             /\ In r ["720p"; "1080p"; "4k"]
             /\ frameRate (Queue.evOptions data) = Some f
             /\ Server.numberOneOf [15; 24; 30; 60]%Q f = true
             /\ acceptsSize r = false
             /\ forall (env : Env) (w : world),
                  let job := Queue.exportVideoHandler env data w in
                  encoded (trace job) = []
                  /\ (forall a, result job <> Returned a)
                  /\ (forall recording,
                         db w !! Queue.evRecordingId data = Some recording ->
                         rejects env AtFindById = None ->
                         rejects env AtHttpGet = None ->
                         rejects env AtPipe = None ->
                         result job
                         = Threw (ErrorObj ("Invalid size specified: " ++ r)))
       | None =>
           forall (env : Env) (w : world) (c : command),
             In c (encoded (trace (Queue.exportVideoHandler env data w))) ->
             In (Size (match Queue.evFormat data with
                       | gif => "800x600"
                       | _ => "1920x1080"
                       end)) c
             /\ In (Fps (match Queue.evFormat data with
                         | gif => 15
                         | _ => 30
                         end)) c
       end.
Proof.
  cbv zeta. intros Hreply Hstatus.
  destruct (postExportVideo_run sv s req) as (response' & Hreply' & _ & _ & _ & Hjobs).
  cbv zeta in Hreply'. rewrite Hreply in Hreply'. injection Hreply' as <-.
  destruct Hjobs as [[Hno _]|[_ (value & d & p & Hv & _ & _ & _ & _ & Hjobs)]];
    [congruence|].
  eexists _, _. split; [exact Hjobs|].
  cbn [Queue.evFormat Queue.evOptions Queue.evRecordingId].
  pose proof (validateExportVideo_options _ _ Hv) as Ho.
  destruct (Server.bodyOptions (Server.exportBody req)) as [raw|].
  - destruct Ho as (o & Hraw & Ho). rewrite Ho. cbn [Server.orDefault].
    destruct (validateOptions_filled raw o Hraw) as (r & f & Hr & Hin & Hf & Hone & _).
    exists r, f.
    assert (acceptsSize r = false) as Hbad
      by (destruct Hin as [<-|[<-|[<-|[]]]]; reflexivity).
    assert (sizeOf (Server.valueFormat value) o = r) as Hsize.
    { unfold sizeOf. rewrite Hr.
      destruct Hin as [<-|[<-|[<-|[]]]]; reflexivity. }
    repeat (split; [assumption|]).
    intros env w.
    destruct (exportVideoHandler_run env w
                (Queue.mkExportVideoData (Server.valueRecordingId value)
                   (Server.valueFormat value) o)) as (Hres & _ & Ht).
    cbn [Queue.evFormat Queue.evOptions Queue.evRecordingId] in Hres, Ht.
    rewrite Hres, Ht. cbn [encoded].
    rewrite (proj1 (proj2 (readers_closing _ _ _))).
    destruct (exportVideo_invalid_size env (Server.valueRecordingId value)
                (Server.valueFormat value) o w) as (Hnone & Hnever & Hthrows);
      [now rewrite Hsize|].
    rewrite Hsize in Hthrows.
    split; [exact Hnone|]. split; [exact Hnever|].
    intros recording Hrec H1 H2 H3.
    exact (proj1 (Hthrows recording Hrec H1 H2 H3)).
  - rewrite Ho. cbn [Server.orDefault].
    intros env w c Hc.
    destruct (exportVideoHandler_run env w
                (Queue.mkExportVideoData (Server.valueRecordingId value)
                   (Server.valueFormat value) emptyOptions)) as (_ & _ & Ht).
    rewrite Ht in Hc. cbn [encoded] in Hc.
    rewrite (proj1 (proj2 (readers_closing _ _ _))) in Hc.
    apply export_profile in Hc. destruct Hc as (_ & Hsize & Hfps).
    cbn in Hsize, Hfps. split; assumption.
Qed.

(** The theorem on a request for a 4k mp4 at 60 frames per second: the job
    it submits fails in the worker, and no command is run. *)
Lemma export_request_to_command_witness :
  let raw :=
    Server.mkRawOptions (Some "4k") (Some 60%Q) None None None None None None [] in
  let req :=
    Server.mkExportRequest "bob"
      (Server.mkExportBody (Some "rec1") (Some "mp4") (Some raw) []) in
  let run := Server.postExportVideo Server.quiet req Server.studio in
  exists data userId,
    Server.jobs (Server.after run)
    = ([] ++ [Server.mkJob Queue.exportQueue "export-video"
                (Server.ExportVideo data userId)])%list
    /\ exists r,
         In r ["720p"; "1080p"; "4k"]
         /\ resolution (Queue.evOptions data) = Some r
         /\ encoded (trace (Queue.exportVideoHandler Sample.calm data Sample.store))
            = []
         /\ (db Sample.store !! Queue.evRecordingId data = Some Sample.demo ->
             result (Queue.exportVideoHandler Sample.calm data Sample.store)
             = Threw (ErrorObj ("Invalid size specified: " ++ r))).
Proof.
  intros raw req run.
  assert (Server.reply run
          = Returned (Server.mkResponse 200 (Server.ExportCreated "job-1" mp4 54)))
    as Hreply by (vm_compute; reflexivity).
  destruct (export_request_to_command Server.quiet req Server.studio _
              Hreply eq_refl) as (data & userId & Hjobs & Hjob).
  exists data, userId. split; [exact Hjobs|].
  cbn in Hjob. destruct Hjob as (r & f & Hr & Hin & _ & _ & _ & Hworker).
  exists r. split; [exact Hin|]. split; [exact Hr|].
  destruct (Hworker Sample.calm Sample.store) as (Hnone & _ & Hthrows).
  split; [exact Hnone|].
  intros Hrec. exact (Hthrows Sample.demo Hrec eq_refl eq_refl eq_refl).
Defined.

(** ** The script route *)

Section Script.

Import Server.

Lemma validateSegments_lack_clips (raws : list RawSegment) :
  forall (index : nat) (segs : list Segment),
    validateSegments index raws = inr segs ->
    Forall (fun seg => lacksClip seg = true) segs
    /\ length segs = length raws.
Proof.
  induction raws as [|raw raws IH]; intros index segs; cbn [validateSegments].
  - intros [= <-]. split; [constructor|reflexivity].
  - unfold andThen at 1.
    destruct (validateSegment _ raw) as [key|seg] eqn:Hseg; [discriminate|].
    unfold andThen at 1.
    destruct (validateSegments (S index) raws) as [key|rest] eqn:Hrest;
      [discriminate|].
    intros [= <-]. destruct (IH _ rest Hrest) as [Hall Hlen].
    split; [|cbn; now rewrite Hlen].
    constructor; [|exact Hall].
    revert Hseg. unfold validateSegment, andThen.
    destruct (requiredString (rawId raw) _); [discriminate|].
    destruct (requiredString (rawSegmentText raw) _); [discriminate|].
    destruct (requiredNumber (rawSegmentStart raw) _); [discriminate|].
    destruct (requiredNumber (rawSegmentEnd raw) _); [discriminate|].
    destruct (rawVoiceSettings raw) as [rv|];
      [destruct (validateVoiceSettings _ rv); [discriminate|]|];
      (destruct (noExtraKeys _ _); [discriminate|]);
      intros [= <-]; reflexivity.
Qed.

Lemma validateScript_lacks_clips (b : ScriptBody) (segs : list Segment) :
  validateScript b = inr segs ->
  Forall (fun seg => lacksClip seg = true) segs.
Proof.
  unfold validateScript, andThen.
  destruct (bodySegments b) as [raws|]; [|discriminate].
  destruct (validateSegments 0 raws) as [|segs'] eqn:Hs; [discriminate|].
  destruct (noExtraKeys _ _); [discriminate|].
  intros [= <-]. exact (proj1 (validateSegments_lack_clips raws 0 segs' Hs)).
Qed.

End Script.

(** X18: when the script route answers 200 the requester owns the project
    or is one of its editors, the Recording has the segments of the
    request, none of which has a clip (the clips of the segments they
    replace are gone), and the route has submitted one job named
    generate-audio to the queue named video processing, where no
    registered processor takes jobs of that name: the voice worker
    listens on the queue named audio generation. *)
Theorem script_job_has_no_worker (sv : Server.Services) (userId id : string)
    (b : Server.ScriptBody) (s : Server.state) (response : Server.Response) :
  let run := Server.putScript sv userId id b s in
  Server.reply run = Returned response ->
  Server.status response = 200%nat ->
  exists segs d p job,
    Server.validateScript b = inr segs
    /\ Server.documents s !! id = Some d
    /\ Server.projects s !! Server.project d = Some p
    /\ Server.hasEditAccess p userId = true
    /\ Forall (fun seg => lacksClip seg = true) segs
    /\ Server.documents (Server.after run)
       = <[ id := Server.withSegments segs d ]> (Server.documents s)
    /\ Server.jobs (Server.after run) = (Server.jobs s ++ [job])%list
    /\ job = Server.mkJob Queue.processVideoQueue "generate-audio"
               (Server.GenerateAudio (Queue.mkGenerateAudioData id segs))
    /\ Queue.name (Server.queue job) = "video processing"
    /\ (forall processor,
           In processor Server.processors -> Server.handles processor job = false)
    /\ exists listener,
         In listener Server.processors
         /\ Server.processorName listener = Server.jobName job
         /\ Queue.name (Server.processorQueue listener) = "audio generation".
Proof.
  cbv zeta. unfold_routes.
  destruct (Server.validateScript b) as [key|segs] eqn:Hv; cbn;
    [intros [= <-]; discriminate|].
  destruct (Server.refuses sv Server.FindRecording) eqn:?; cbn;
    [intros [= <-]; discriminate|].
  destruct (Server.documents s !! id) as [d|] eqn:Hd; cbn;
    [|intros [= <-]; discriminate].
  destruct (Server.projects s !! Server.project d) as [p|] eqn:Hp; cbn;
    [|intros [= <-]; discriminate].
  destruct (Server.hasEditAccess p userId) eqn:Ha; cbn;
    [|intros [= <-]; discriminate].
  destruct (Server.refuses sv Server.SaveRecording) eqn:?; cbn;
    [intros [= <-]; discriminate|].
  destruct (Server.refuses sv Server.QueueAdd) eqn:?; cbn;
    [intros [= <-]; discriminate|].
  intros _ _. eexists segs, d, p, _.
  repeat (split; [first [reflexivity | assumption
                        | exact (validateScript_lacks_clips b segs Hv)]|]).
  split.
  - intros processor [<-|[<-|[<-|[]]]]; reflexivity.
  - eexists. split; [right; left; reflexivity|]. split; reflexivity.
Qed.

(** The theorem on bob, an editor, rewriting the one narrated segment. *)
Lemma script_job_has_no_worker_witness :
  let b :=
    Server.mkScriptBody
      (Some [Server.mkRawSegment (Some "s1") (Some "Hello again")
               (Some (Finite 0)) (Some (Finite 2)) None []]) [] in
  let run := Server.putScript Server.quiet "bob" "rec1" b Server.studio in
  exists job,
    Server.jobs (Server.after run) = ([] ++ [job])%list
    /\ forall processor,
         In processor Server.processors -> Server.handles processor job = false.
Proof.
  intros b run.
  assert (exists response,
             Server.reply run = Returned response
             /\ Server.status response = 200%nat) as (response & Hreply & Hstatus)
    by (eexists; split; vm_compute; reflexivity).
  destruct (script_job_has_no_worker Server.quiet "bob" "rec1" b Server.studio
              response Hreply Hstatus)
    as (segs & d & p & job & _ & _ & _ & _ & _ & _ & Hjobs & _ & _ & Hnone & _).
  exists job. split; [exact Hjobs|exact Hnone].
Defined.


(** ** The delete route *)

Section Delete.

Import Server.

Variable sv : Services.

Lemma deleteFromS3_objects (url : string) (s0 : state) :
  let r := deleteFromS3 sv url s0 in
  reply r <> Pending
  /\ documents (after r) = documents s0 /\ projects (after r) = projects s0
  /\ jobs (after r) = jobs s0
  /\ objects (after r) ⊆ objects s0.
Proof.
  cbv zeta. unfold deleteFromS3, tryCatch, bind, await, modify, log, throw.
  destruct (refuses sv (DeleteObject (Storage.keyOfUrl url))); cbn;
    repeat split;
    first [reflexivity | discriminate | apply subseteq_difference_l; reflexivity].
Qed.

Lemma deleteIfSet_objects (url : option string) (s0 : state) :
  let r := deleteIfSet sv url s0 in
  reply r <> Pending
  /\ documents (after r) = documents s0 /\ projects (after r) = projects s0
  /\ jobs (after r) = jobs s0
  /\ objects (after r) ⊆ objects s0.
Proof.
  destruct url as [[|c u]|];
    try (cbn; repeat split; first [reflexivity | discriminate]).
  exact (deleteFromS3_objects (String c u) s0).
Qed.

(** Deleting the files never fails, and touches only the object store. *)
Lemma deleteFiles_run (d : Document) (s0 : state) :
  let r := deleteFiles sv d s0 in
  reply r = Returned tt
  /\ documents (after r) = documents s0 /\ projects (after r) = projects s0
  /\ jobs (after r) = jobs s0
  /\ objects (after r) ⊆ objects s0.
Proof.
  cbv zeta. unfold deleteFiles, tryCatch, bind, log.
  destruct (deleteIfSet_objects (Some (originalVideoUrl (recording d))) s0)
    as (Hn1 & Hd1 & Hp1 & Hj1 & Ho1).
  destruct (deleteIfSet sv (Some (originalVideoUrl (recording d))) s0)
    as [[[[]|e1|] s1] t1]; cbn in Hn1, Hd1, Hp1, Hj1, Ho1 |- *;
    [|tauto|congruence].
  destruct (deleteIfSet_objects (processedVideoUrl d) s1)
    as (Hn2 & Hd2 & Hp2 & Hj2 & Ho2).
  destruct (deleteIfSet sv (processedVideoUrl d) s1)
    as [[[[]|e2|] s2] t2]; cbn in Hn2, Hd2, Hp2, Hj2, Ho2 |- *;
    [|repeat split; first [congruence | etransitivity; eassumption]
     |congruence].
  destruct (deleteIfSet_objects (audioUrl (recording d)) s2)
    as (Hn3 & Hd3 & Hp3 & Hj3 & Ho3).
  destruct (deleteIfSet sv (audioUrl (recording d)) s2)
    as [[[[]|e3|] s3] t3]; cbn in Hn3, Hd3, Hp3, Hj3, Ho3 |- *;
    [|repeat split;
      first [congruence
            | etransitivity; [exact Ho3|etransitivity; eassumption]]
     |congruence].
  destruct (deleteIfSet_objects (thumbnailUrl (recording d)) s3)
    as (Hn4 & Hd4 & Hp4 & Hj4 & Ho4).
  destruct (deleteIfSet sv (thumbnailUrl (recording d)) s3)
    as [[[[]|e4|] s4] t4]; cbn in Hn4, Hd4, Hp4, Hj4, Ho4 |- *;
    [| |congruence];
    (repeat split;
     first [congruence
           | etransitivity;
             [exact Ho4|etransitivity; [exact Ho3|etransitivity; eassumption]]]).
Qed.

End Delete.

(** Settle an answer other than 200 of the delete route. *)
Ltac close_gate :=
  eexists; split; [reflexivity|];
  split; [first [reflexivity | eassumption]|];
  split; [first [eassumption | reflexivity]|];
  split; [let H := fresh in intros H; discriminate H|];
  split;
  [ let H := fresh in
    intros H; first [reflexivity | destruct H as [H|H]; discriminate H]
  | let d' := fresh in
    let p' := fresh in
    intros d' p' ? ? ? ?; first [reflexivity | congruence] ].

Lemma deleteRecording_run (sv : Server.Services) (userId id : string)
    (s : Server.state) :
  let run := Server.deleteRecording sv userId id s in
  exists response,
    Server.reply run = Returned response
    /\ Server.jobs (Server.after run) = Server.jobs s
    /\ Server.objects (Server.after run) ⊆ Server.objects s
    /\ (Server.status response = 200%nat ->
        exists d p,
          Server.documents s !! id = Some d
          /\ Server.projects s !! Server.project d = Some p
          /\ Server.owner p = userId
          /\ Server.after run
             = Server.dropDocument id
                 (Server.pullRecording (Server.project d) id
                    (Server.after (Server.deleteFiles sv d s))))
    /\ (Server.status response = 403%nat \/ Server.status response = 404%nat ->
        Server.after run = s)
    /\ (forall d p,
           Server.refuses sv Server.FindRecording = None ->
           Server.documents s !! id = Some d ->
           Server.projects s !! Server.project d = Some p ->
           Server.owner p <> userId ->
           Server.status response = 403%nat).
Proof.
  cbv zeta. unfold Server.deleteRecording.
  unfold Server.findPopulated, Server.populated.
  unfold Server.tryCatch, Server.bind, Server.await, Server.gets,
    Server.log, Server.throw, Server.ret, Server.modify.
  destruct (Server.refuses sv Server.FindRecording) eqn:Hfind; cbn;
    [close_gate|].
  destruct (Server.documents s !! id) as [d|] eqn:Hd; cbn; [|close_gate].
  destruct (Server.projects s !! Server.project d) as [p|] eqn:Hp; cbn;
    [|close_gate].
  destruct (String.eqb_spec (Server.owner p) userId) as [Hown|Hown]; cbn;
    [|close_gate].
  destruct (deleteFiles_run sv d s) as (Hr & Hdocs & Hprojs & Hjobs & Hobjs).
  cbv zeta in Hr, Hdocs, Hprojs, Hjobs, Hobjs.
  destruct (Server.deleteFiles sv d s) as [[o s1] t1] eqn:Hfiles.
  cbn in Hr, Hdocs, Hprojs, Hjobs, Hobjs. subst o. cbn.
  destruct (Server.refuses sv Server.PullRecording) eqn:?; cbn; [close_gate|].
  destruct (Server.refuses sv Server.DeleteRecording) eqn:?; cbn; [close_gate|].
  eexists. split; [reflexivity|]. split; [exact Hjobs|]. split; [exact Hobjs|].
  split; [|split].
  - intros _. exists d, p. rewrite Hfiles. repeat split; assumption.
  - intros [H|H]; discriminate H.
  - intros d' p' _ Hd' Hp' Ho'. congruence.
Qed.

(** X19: the delete route answers every request and never submits a job
    or adds an object. It answers 200 only to the owner of the project,
    collaborators are refused whatever their role, and then the Recording
    is gone from the store and from the list of its project; an answer of
    403 or 404 leaves everything as it was. *)
Theorem delete_route_gate (sv : Server.Services) (userId id : string)
    (s : Server.state) :
  let run := Server.deleteRecording sv userId id s in
  exists response,
    Server.reply run = Returned response
    /\ Server.jobs (Server.after run) = Server.jobs s
    /\ Server.objects (Server.after run) ⊆ Server.objects s
    /\ (Server.status response = 200%nat ->
        exists d p,
          Server.documents s !! id = Some d
          /\ Server.projects s !! Server.project d = Some p
          /\ Server.owner p = userId
          /\ Server.after run
             = Server.dropDocument id
                 (Server.pullRecording (Server.project d) id
                    (Server.after (Server.deleteFiles sv d s))))
    /\ (Server.status response = 403%nat \/ Server.status response = 404%nat ->
        Server.after run = s)
    /\ (forall d p,
           Server.refuses sv Server.FindRecording = None ->
           Server.documents s !! id = Some d ->
           Server.projects s !! Server.project d = Some p ->
           Server.owner p <> userId ->
           Server.status response = 403%nat).
Proof. exact (deleteRecording_run sv userId id s). Qed.

(** X20: when S3 refuses to delete the original video, the route deletes
    the Recording all the same and answers 200: no other file of the
    Recording is attempted, so every object is still in the bucket, and
    the failure is only a warning in the log. *)
Theorem delete_survives_storage_failure (sv : Server.Services)
    (userId id : string) (s : Server.state) (d : Server.Document)
    (p : Server.Project) (e : thrown) :
  let run := Server.deleteRecording sv userId id s in
  Server.documents s !! id = Some d ->
  Server.projects s !! Server.project d = Some p ->
  Server.owner p = userId ->
  originalVideoUrl (Server.recording d) <> EmptyString ->
  Server.refuses sv
    (Server.DeleteObject (Storage.keyOfUrl (originalVideoUrl (Server.recording d))))
  = Some e ->
  Server.refuses sv Server.FindRecording = None ->
  Server.refuses sv Server.PullRecording = None ->
  Server.refuses sv Server.DeleteRecording = None ->
  Server.reply run = Returned (Server.mkResponse 200 Server.RecordingDeleted)
  /\ Server.objects (Server.after run) = Server.objects s
  /\ Server.documents (Server.after run) = delete id (Server.documents s)
  /\ Server.notes run
     = [Server.Failure "S3 delete error:";
        Server.Warn "Error deleting files from S3:";
        Server.Info "Recording deleted"].
Proof.
  cbv zeta. intros Hd Hp Hown Hurl Hs3 Hfind Hpull Hdel.
  unfold Server.deleteRecording, Server.deleteFiles. unfold_routes.
  rewrite Hfind. cbn. rewrite Hd. cbn. rewrite Hp. cbn.
  apply String.eqb_eq in Hown. rewrite Hown. cbn.
  destruct (originalVideoUrl (Server.recording d)) as [|c u] eqn:Hu; [congruence|].
  cbn -[Storage.keyOfUrl]. rewrite Hs3. cbn. rewrite Hpull. cbn. rewrite Hdel. cbn.
  repeat split; reflexivity.
Qed.

(** The theorem on alice deleting her Recording while the bucket refuses
    the video: the three objects stay. *)
Lemma delete_survives_storage_failure_witness :
  let sv :=
    Server.refusing (Server.DeleteObject "videos/rec1.mp4")
      (ErrorObj "AccessDenied") Server.quiet in
  let run := Server.deleteRecording sv "alice" "rec1" Server.studio in
  Server.reply run = Returned (Server.mkResponse 200 Server.RecordingDeleted)
  /\ Server.objects (Server.after run) = Server.objects Server.studio.
Proof.
  intros sv run.
  assert (Server.documents Server.studio !! "rec1"
          = Some (Server.mkDocument Server.processed "proj1" "Demo" 90 None))
    as Hd by (vm_compute; reflexivity).
  assert (Server.projects Server.studio !! "proj1"
          = Some (Server.mkProject "alice"
                    [Server.mkCollaborator "bob" Server.editor;
                     Server.mkCollaborator "carol" Server.viewer] ["rec1"]))
    as Hp by (vm_compute; reflexivity).
  assert (originalVideoUrl Server.processed <> EmptyString) as Hurl by discriminate.
  assert (Server.refuses sv
            (Server.DeleteObject (Storage.keyOfUrl (originalVideoUrl Server.processed)))
          = Some (ErrorObj "AccessDenied")) as Hs3 by (vm_compute; reflexivity).
  destruct (delete_survives_storage_failure sv "alice" "rec1" Server.studio _ _ _
              Hd Hp eq_refl Hurl Hs3 eq_refl eq_refl eq_refl)
    as (Hreply & Hobjs & _).
  split; [exact Hreply|exact Hobjs].
Defined.

(** X21: the route is not atomic. When the store refuses the last step,
    the deletion of the Recording, the requester is told 500 although the
    files of the Recording have been removed from the bucket and the
    project no longer lists it; the Recording itself is still stored. *)
Theorem delete_not_atomic (sv : Server.Services) (userId id : string)
    (s : Server.state) (d : Server.Document) (p : Server.Project) (e : thrown) :
  let run := Server.deleteRecording sv userId id s in
  Server.documents s !! id = Some d ->
  Server.projects s !! Server.project d = Some p ->
  Server.owner p = userId ->
  (forall key, Server.refuses sv (Server.DeleteObject key) = None) ->
  Server.refuses sv Server.FindRecording = None ->
  Server.refuses sv Server.PullRecording = None ->
  Server.refuses sv Server.DeleteRecording = Some e ->
  Server.reply run
  = Returned (Server.mkResponse 500 (Server.ErrorBody "Internal server error"))
  /\ Server.documents (Server.after run) = Server.documents s
  /\ Server.projects (Server.after run) !! Server.project d
     = Some (Server.mkProject (Server.owner p) (Server.collaborators p)
               (List.filter (fun r => negb (String.eqb r id)) (Server.recordings p)))
  /\ forall url,
       In url (Server.fileUrls d) ->
       Storage.keyOfUrl url ∉ Server.objects (Server.after run).
Proof.
  cbv zeta. intros Hd Hp Hown Hs3 Hfind Hpull Hdel.
  unfold Server.deleteRecording, Server.deleteFiles, Server.fileUrls. unfold_routes.
  rewrite Hfind. cbn. rewrite Hd. cbn. rewrite Hp. cbn.
  apply String.eqb_eq in Hown. rewrite Hown. cbn.
  destruct (originalVideoUrl (Server.recording d)) as [|c0 u0];
    destruct (Server.processedVideoUrl d) as [[|c1 u1]|];
    destruct (audioUrl (Server.recording d)) as [[|c2 u2]|];
    destruct (thumbnailUrl (Server.recording d)) as [[|c3 u3]|];
    cbn -[Storage.keyOfUrl]; rewrite ?Hs3; cbn -[Storage.keyOfUrl];
    rewrite Hpull; cbn -[Storage.keyOfUrl]; rewrite Hdel; cbn -[Storage.keyOfUrl];
    (split; [reflexivity|]); (split; [reflexivity|]);
    (split; [rewrite lookup_alter_eq, Hp; reflexivity|]);
    intros url Hin; cbn -[Storage.keyOfUrl] in Hin;
    rewrite ?elem_of_difference, ?elem_of_singleton;
    intuition (subst; tauto).
Qed.

(** The theorem on alice's Recording when the store refuses to delete it:
    none of its three files is left. *)
Lemma delete_not_atomic_witness :
  let sv :=
    Server.refusing Server.DeleteRecording (ErrorObj "write conflict")
      Server.quiet in
  let run := Server.deleteRecording sv "alice" "rec1" Server.studio in
  Server.status
    (match Server.reply run with
     | Returned response => response
     | _ => Server.mkResponse 0 Server.RecordingDeleted
     end) = 500%nat
  /\ "videos/rec1.mp4" ∉ Server.objects (Server.after run).
Proof.
  intros sv run.
  assert (Server.documents Server.studio !! "rec1"
          = Some (Server.mkDocument Server.processed "proj1" "Demo" 90 None))
    as Hd by (vm_compute; reflexivity).
  assert (Server.projects Server.studio !! "proj1"
          = Some (Server.mkProject "alice"
                    [Server.mkCollaborator "bob" Server.editor;
                     Server.mkCollaborator "carol" Server.viewer] ["rec1"]))
    as Hp by (vm_compute; reflexivity).
  destruct (delete_not_atomic sv "alice" "rec1" Server.studio _ _
              (ErrorObj "write conflict") Hd Hp eq_refl
              (fun key => eq_refl) eq_refl eq_refl eq_refl)
    as (Hreply & _ & _ & Hgone).
  split.
  - fold run in Hreply. rewrite Hreply. reflexivity.
  - exact (Hgone "https://smartdemo-studio.s3.amazonaws.com/videos/rec1.mp4"
             (or_introl eq_refl)).
Defined.

(** ** Subtitles from the script *)

(** X22: the subtitles route answers every request and touches nothing
    but the Recording it is asked about. When it answers 200, the
    Recording has one cue for each segment of its script, in order, with
    the text and the times of the segment, in place of the cues it had;
    otherwise nothing has changed. (A cue is modelled with the fields the
    export reads.) *)
Theorem subtitles_follow_script (sv : Server.Services) (b : Server.SubtitlesBody)
    (s : Server.state) :
  let run := Server.postSubtitles sv b s in
  exists response,
    Server.reply run = Returned response
    /\ Server.projects (Server.after run) = Server.projects s
    /\ Server.objects (Server.after run) = Server.objects s
    /\ Server.jobs (Server.after run) = Server.jobs s
    /\ ((Server.status response <> 200%nat /\ Server.after run = s)
        \/ (Server.status response = 200%nat
            /\ exists id d cues,
                 Server.validateSubtitles b = inr id
                 /\ Server.documents s !! id = Some d
                 /\ Server.documents (Server.after run)
                    = <[ id := Server.withSubtitles cues d ]> (Server.documents s)
                 /\ segments (Server.recording (Server.withSubtitles cues d))
                    = segments (Server.recording d)
                 /\ map text cues = map segmentText (segments (Server.recording d))
                 /\ map startTime cues = map segmentStart (segments (Server.recording d))
                 /\ map endTime cues = map segmentEnd (segments (Server.recording d)))).
Proof.
  cbv zeta. unfold_routes.
  destruct (Server.validateSubtitles b) as [key|id] eqn:Hv; cbn;
    [eexists; repeat split; left; split; [discriminate|reflexivity]|].
  destruct (Server.refuses sv Server.FindRecording) eqn:?; cbn;
    [eexists; repeat split; left; split; [discriminate|reflexivity]|].
  destruct (Server.documents s !! id) as [d|] eqn:Hd; cbn;
    [|eexists; repeat split; left; split; [discriminate|reflexivity]].
  destruct (Server.refuses sv Server.SaveRecording) eqn:?; cbn;
    [eexists; repeat split; left; split; [discriminate|reflexivity]|].
  eexists. repeat split. right. split; [reflexivity|].
  exists id, d, (Server.subtitlesOfScript (segments (Server.recording d))).
  unfold Server.subtitlesOfScript. rewrite !map_map. cbn.
  repeat split; assumption.
Qed.

(** ** Answers *)

(** Settle the answer of a route that has not changed the state. *)
Ltac answer :=
  eexists; split; [reflexivity|];
  split; [cbn; tauto|];
  first [ intros _; reflexivity | cbn; intros; lia ].

(** X23: none of the four routes lets an error escape: whatever the body,
    the state and the services do, the route returns a response, with
    status 200, 400, 403, 404 or 500 (a refused database, queue or bucket
    call gives 500, or for the bucket a warning), and when it refuses the
    request with a status from 400 to 499 it has changed nothing. *)
Theorem routes_always_answer (sv : Server.Services) (s : Server.state) :
  (forall req, Server.answered s (Server.postExportVideo sv req s))
  /\ (forall userId id b, Server.answered s (Server.putScript sv userId id b s))
  /\ (forall userId id, Server.answered s (Server.deleteRecording sv userId id s))
  /\ (forall b, Server.answered s (Server.postSubtitles sv b s)).
Proof.
  unfold Server.answered. split; [|split; [|split]].
  - intros req. unfold_routes.
    destruct (Server.validateExportVideo (Server.exportBody req)) as [key|value];
      cbn; [answer|].
    destruct (Server.refuses sv Server.FindRecording); cbn; [answer|].
    destruct (Server.documents s !! Server.valueRecordingId value) as [d|]; cbn;
      [|answer].
    destruct (Server.projects s !! Server.project d) as [p|]; cbn; [|answer].
    destruct (Server.hasAccess p (Server.exportUserId req)); cbn; [|answer].
    destruct (processingStatus (Server.recording d)); cbn; try answer.
    destruct (Server.refuses sv Server.QueueAdd); cbn; answer.
  - intros userId id b. unfold_routes.
    destruct (Server.validateScript b) as [key|segs]; cbn; [answer|].
    destruct (Server.refuses sv Server.FindRecording); cbn; [answer|].
    destruct (Server.documents s !! id) as [d|]; cbn; [|answer].
    destruct (Server.projects s !! Server.project d) as [p|]; cbn; [|answer].
    destruct (Server.hasEditAccess p userId); cbn; [|answer].
    destruct (Server.refuses sv Server.SaveRecording); cbn; [answer|].
    destruct (Server.refuses sv Server.QueueAdd); cbn; answer.
  - intros userId id. unfold Server.deleteRecording.
    unfold Server.findPopulated, Server.populated.
    unfold Server.tryCatch, Server.bind, Server.await, Server.gets,
      Server.log, Server.throw, Server.ret, Server.modify.
    destruct (Server.refuses sv Server.FindRecording); cbn; [answer|].
    destruct (Server.documents s !! id) as [d|]; cbn; [|answer].
    destruct (Server.projects s !! Server.project d) as [p|]; cbn; [|answer].
    destruct (Server.owner p =? userId)%string; cbn; [|answer].
    pose proof (deleteFiles_run sv d s) as Hr. cbv zeta in Hr. apply proj1 in Hr.
    destruct (Server.deleteFiles sv d s) as [[o s1] t1]. cbn in Hr. subst o. cbn.
    destruct (Server.refuses sv Server.PullRecording); cbn; [answer|].
    destruct (Server.refuses sv Server.DeleteRecording); cbn; answer.
  - intros b. unfold_routes.
    destruct (Server.validateSubtitles b) as [key|id]; cbn; [answer|].
    destruct (Server.refuses sv Server.FindRecording); cbn; [answer|].
    destruct (Server.documents s !! id) as [d|]; cbn; [|answer].
    destruct (Server.refuses sv Server.SaveRecording); cbn; answer.
Qed.

(** ** Who may do what *)

Section Access.

Import Server.

Lemma access_nested (p : Project) (userId : string) :
  (owner p = userId -> hasEditAccess p userId = true)
  /\ (hasEditAccess p userId = true -> hasAccess p userId = true).
Proof.
  unfold hasEditAccess, hasAccess. split.
  - intros <-. now rewrite String.eqb_refl.
  - destruct (owner p =? userId)%string; [reflexivity|]. cbn.
    induction (collaborators p) as [|collab rest IH]; [discriminate|].
    cbn. destruct (user collab =? userId)%string; cbn; [reflexivity|exact IH].
Qed.

End Access.

(** X24: the permissions of the routes are nested. Whoever the delete
    route lets delete a Recording is never refused with 403 by the script
    route for it, and whoever the script route lets rewrite its script is
    never refused with 403 by the export route, whatever else those
    requests contain and whatever the services do. *)
Theorem permissions_are_nested (sv sv' : Server.Services) (s : Server.state)
    (userId id : string) :
  (forall response,
      Server.reply (Server.deleteRecording sv userId id s) = Returned response ->
      Server.status response = 200%nat ->
      forall b response',
        Server.reply (Server.putScript sv' userId id b s) = Returned response' ->
        Server.status response' <> 403%nat)
  /\ (forall b response,
         Server.reply (Server.putScript sv userId id b s) = Returned response ->
         Server.status response = 200%nat ->
         forall req value response',
           Server.validateExportVideo (Server.exportBody req) = inr value ->
           Server.valueRecordingId value = id ->
           Server.exportUserId req = userId ->
           Server.reply (Server.postExportVideo sv' req s) = Returned response' ->
           Server.status response' <> 403%nat).
Proof.
  split.
  - intros response Hreply Hstatus b response'.
    destruct (deleteRecording_run sv userId id s)
      as (r & Hr & _ & _ & H200 & _).
    cbv zeta in Hr. rewrite Hreply in Hr. injection Hr as <-.
    destruct (H200 Hstatus) as (d & p & Hd & Hp & Hown & _).
    pose proof (proj1 (access_nested p userId) Hown) as Hedit.
    unfold_routes.
    destruct (Server.validateScript b); cbn; [intros [= <-]; discriminate|].
    destruct (Server.refuses sv' Server.FindRecording); cbn;
      [intros [= <-]; discriminate|].
    rewrite Hd. cbn. rewrite Hp. cbn. rewrite Hedit. cbn.
    destruct (Server.refuses sv' Server.SaveRecording); cbn;
      [intros [= <-]; discriminate|].
    destruct (Server.refuses sv' Server.QueueAdd); cbn;
      intros [= <-]; discriminate.
  - intros b response. unfold_routes.
    destruct (Server.validateScript b); cbn; [intros [= <-]; discriminate|].
    destruct (Server.refuses sv Server.FindRecording); cbn;
      [intros [= <-]; discriminate|].
    destruct (Server.documents s !! id) as [d|] eqn:Hd; cbn;
      [|intros [= <-]; discriminate].
    destruct (Server.projects s !! Server.project d) as [p|] eqn:Hp; cbn;
      [|intros [= <-]; discriminate].
    destruct (Server.hasEditAccess p userId) eqn:Hedit; cbn;
      [|intros [= <-]; discriminate].
    intros _ _ req value response' Hv Hid Huser.
    pose proof (proj2 (access_nested p userId) Hedit) as Haccess.
    rewrite Hv. cbn. rewrite Hid, Huser.
    destruct (Server.refuses sv' Server.FindRecording); cbn;
      [intros [= <-]; discriminate|].
    rewrite Hd. cbn. rewrite Hp. cbn. rewrite Haccess. cbn.
    destruct (processingStatus (Server.recording d)); cbn;
      try (intros [= <-]; discriminate).
    destruct (Server.refuses sv' Server.QueueAdd); cbn;
      intros [= <-]; discriminate.
Qed.

(** The theorem on alice, the owner: she may delete, so her script
    request, here one without segments, is not refused. *)
Lemma permissions_are_nested_witness :
  exists response,
    Server.reply
      (Server.putScript Server.quiet "alice" "rec1"
         (Server.mkScriptBody (Some []) []) Server.studio)
    = Returned response
    /\ Server.status response <> 403%nat.
Proof.
  assert (Server.reply
            (Server.deleteRecording Server.quiet "alice" "rec1" Server.studio)
          = Returned (Server.mkResponse 200 Server.RecordingDeleted)) as Hdelete
    by (vm_compute; reflexivity).
  assert (exists response,
             Server.reply
               (Server.putScript Server.quiet "alice" "rec1"
                  (Server.mkScriptBody (Some []) []) Server.studio)
             = Returned response) as (response & Hscript)
    by (eexists; vm_compute; reflexivity).
  exists response. split; [exact Hscript|].
  exact (proj1 (permissions_are_nested Server.quiet Server.quiet Server.studio
                  "alice" "rec1") _ Hdelete eq_refl _ _ Hscript).
Defined.

(** ** The set of Recordings *)

(** X25: no job creates or removes a Recording: after a transform or a
    voice job, finished or failed, the store holds Recordings under exactly
    the ids it held before, and a job for an id that the store does not
    hold leaves the whole store as it was. *)
Theorem jobs_keep_the_set_of_recordings (env : Env) (id : string) (w : world) :
  (forall url ui,
      let run := processVideo env id url ui Queue.job_progress w in
      dom (db (final run)) = dom (db w)
      /\ (db w !! id = None -> db (final run) = db w))
  /\ (forall segs,
         let run := generateAudio env id segs Queue.job_progress w in
         dom (db (final run)) = dom (db w)
         /\ (db w !! id = None -> db (final run) = db w)).
Proof.
  assert (forall (f : Recording -> Recording),
             db w !! id = None -> alter f id (db w) = db w) as Halter.
  { intros f Hnone. apply map_eq. intros i.
    destruct (decide (i = id)) as [->|Hne].
    - now rewrite lookup_alter_eq, Hnone.
    - now rewrite lookup_alter_ne by congruence. }
  split.
  - intros url ui. cbv zeta. unfold_steps.
    destruct (rejects env AtFindById) eqn:?.
    + crunch env; (split; [try apply dom_alter_L; reflexivity|]);
        intros Hnone; rewrite ?Halter by exact Hnone; reflexivity.
    + cbn. destruct (db w !! id) eqn:Hr; cbn; crunch env;
        (split;
         [ rewrite ?dom_alter_L, ?dom_insert_lookup_L by (rewrite Hr; eauto);
           reflexivity
         | intros Hnone; first [discriminate Hnone
                               | rewrite ?Halter by exact Hnone; reflexivity] ]).
  - intros segs. cbv zeta.
    destruct (result (generateAudio env id segs Queue.job_progress w))
      as [a|e|] eqn:Hres.
    + destruct (generateAudio_success env id segs w a Hres)
        as (_ & recording & Hr & ->).
      split; [|intros Hnone; congruence].
      cbn. apply dom_insert_lookup_L. rewrite Hr. eauto.
    + rewrite (proj2 (generateAudio_world env id segs w) e Hres).
      split; reflexivity.
    + exfalso. exact (generateAudio_settles env id segs w Hres).
Qed.
